(** * BOA: campaign ledger, repositories, job queue and mixed-space encoder

    A shallow embedding of the parts of the BOA server that its
    specification makes checkable statements about:

    - [boa/db/repository.py]  (campaign status machine, process versions,
      decision lookup),
    - [boa/db/job_queue.py]   (job completion and failure),
    - [boa/core/ledger.py]    (decisions and observations),
    - [boa/core/engine.py]    (observation intake),
    - [boa/core/executor.py]  (reference point of the optimization step),
    - [boa/spec/encoder.py]   (encode / decode / snap_to_grid).

    Conventions of the embedding.

    - A Python exception is a value of [exn]; a call that may raise returns
      a [result].  Repository and ledger methods mutate a database session:
      they are functions from the store to a [result] paired with the store
      after the call, so that what a failed call leaves behind is explicit.
    - [uuid4()] and [datetime.utcnow()] are inputs of the operation that
      calls them.
    - Python floats are idealised: a finite float is an exact rational
      ([Qc]), and the three special values of IEEE arithmetic that numpy
      produces on division by zero are kept ([np_float]).  Rounding is not
      modelled there; [Binary64] gives the arithmetic of one continuous
      cell on binary64 numbers, to show where rounding matters. *)

From Stdlib Require Import PrimFloat QArith Qcanon.
From stdpp Require Import numbers strings pretty gmap fin_maps list sorting.

Set Default Proof Using "Type".
Local Open Scope Z_scope.

(** ** Exceptions and results *)

Abbreviation UUID := positive (only parsing).
Abbreviation datetime := Z (only parsing).

(** Campaign lifecycle states, [boa/db/models.py]. *)
Inductive CampaignStatus := CREATED | ACTIVE | PAUSED | COMPLETED | ARCHIVED.

(** Job queue states, [boa/db/models.py]. *)
Inductive JobStatus :=
  JOB_PENDING | JOB_RUNNING | JOB_COMPLETED | JOB_FAILED | JOB_CANCELLED.

Global Instance CampaignStatus_eq_dec : EqDecision CampaignStatus.
Proof. solve_decision. Defined.
Global Instance JobStatus_eq_dec : EqDecision JobStatus.
Proof. solve_decision. Defined.

(** The exceptions the modelled code raises.  The formatted message of an
    exception is replaced by the data it is formatted from. *)
Inductive exn :=
  | KeyError (key : string)
  | IndexError (what : string)
  | ValueError (what : string)
  | NotFoundError (id : UUID)
  | InvalidStateTransitionError (from to : CampaignStatus)
  | JobNotFoundError (id : UUID)
  | JobAlreadyRunningError (id : UUID).

Inductive result (A : Type) :=
  | Ok (a : A)
  | Err (e : exn).
Arguments Ok {A} a.
Arguments Err {A} e.

Global Instance result_ret : MRet result := fun A a => Ok a.
Global Instance result_bind : MBind result := fun A B f r =>
  match r with Ok a => f a | Err e => Err e end.
Global Instance result_fmap : FMap result := fun A B f r =>
  match r with Ok a => Ok (f a) | Err e => Err e end.

Definition is_Ok {A} (r : result A) : bool :=
  match r with Ok _ => true | Err _ => false end.

(** ** Campaign repository: the status machine *)

Module CampaignRepository.

Record Campaign := {
  process_id : UUID;
  name : string;
  status : CampaignStatus;
  updated_at : option datetime }.

(** The [campaigns] table, keyed by primary key. *)
Abbreviation Session := (gmap positive Campaign) (only parsing).

(** [VALID_TRANSITIONS]: the successors the class attribute lists. *)
Definition VALID_TRANSITIONS (s : CampaignStatus) : list CampaignStatus :=
  match s with
  | CREATED => [ACTIVE]
  | ACTIVE => [PAUSED; COMPLETED]
  | PAUSED => [ACTIVE; ARCHIVED]
  | COMPLETED => [ARCHIVED]
  | ARCHIVED => []
  end.

(** [BaseRepository.get_or_raise]. *)
Definition get_or_raise (db : Session) (id : UUID) : result Campaign :=
  match db !! id with
  | Some c => Ok c
  | None => Err (NotFoundError id)
  end.

(** [BaseRepository.update]: stamps [updated_at] and writes the row. *)
Definition update (db : Session) (id : UUID) (now : datetime) (c : Campaign)
  : Campaign * Session :=
  let c' := {| process_id := process_id c; name := name c;
               status := status c; updated_at := Some now |} in
  (c', <[id := c']> db).

(** [CampaignRepository.update_status]. *)
Definition update_status (db : Session) (campaign_id : UUID)
    (new_status : CampaignStatus) (now : datetime)
  : result Campaign * Session :=
  match get_or_raise db campaign_id with
  | Err e => (Err e, db)
  | Ok campaign =>
      let valid_next := VALID_TRANSITIONS (status campaign) in
      if bool_decide (new_status ∈ valid_next) then
        let campaign' :=
          {| process_id := process_id campaign; name := name campaign;
             status := new_status; updated_at := updated_at campaign |} in
        let '(c, db') := update db campaign_id now campaign' in
        (Ok c, db')
      else
        (Err (InvalidStateTransitionError (status campaign) new_status), db)
  end.

(** The transition graph as the specification draws it. *)
Inductive graph_edge : CampaignStatus -> CampaignStatus -> Prop :=
  | edge_created_active : graph_edge CREATED ACTIVE
  | edge_active_paused : graph_edge ACTIVE PAUSED
  | edge_active_completed : graph_edge ACTIVE COMPLETED
  | edge_paused_active : graph_edge PAUSED ACTIVE
  | edge_paused_archived : graph_edge PAUSED ARCHIVED
  | edge_completed_archived : graph_edge COMPLETED ARCHIVED.

(** A status history is a path when consecutive entries are edges. *)
Fixpoint is_path (s : CampaignStatus) (rest : list CampaignStatus) : Prop :=
  match rest with
  | [] => True
  | s' :: rest' => graph_edge s s' /\ is_path s' rest'
  end.

(** The status of a campaign in a store, if the campaign exists. *)
Definition status_of (db : Session) (id : UUID) : option CampaignStatus :=
  status <$> db !! id.

(** A client session: a sequence of requested status changes on one
    campaign.  [history] collects the statuses the campaign takes, one
    entry per request that succeeded. *)
Fixpoint history (db : Session) (id : UUID)
    (requests : list (CampaignStatus * datetime)) : list CampaignStatus :=
  match requests with
  | [] => []
  | (s, now) :: requests' =>
      match update_status db id s now with
      | (Ok c, db') => status c :: history db' id requests'
      | (Err _, db') => history db' id requests'
      end
  end.

End CampaignRepository.

(** ** Raw values and numpy floats *)

(** A float64 cell of a numpy array.  Finite values are exact; [NaN],
    [PInf] and [NInf] are what numpy yields for [0/0], [x/0] and
    arithmetic on them (a RuntimeWarning, not an exception). *)
Inductive np_float :=
  | NaN
  | NInf
  | Fin (q : Qc)
  | PInf.

Global Instance np_float_eq_dec : EqDecision np_float.
Proof. solve_decision. Defined.
Global Instance np_float_inhabited : Inhabited np_float := populate NaN.

(** A scalar of a raw input map, of an objective map or of an [active_if]
    list: a float or a piece of text. *)
Inductive Value :=
  | VNum (x : np_float)
  | VStr (s : string).

Global Instance Value_eq_dec : EqDecision Value.
Proof. solve_decision. Defined.

(** A Python [dict] with string keys. *)
Abbreviation pydict := (gmap string Value) (only parsing).

Definition isnan (x : np_float) : bool :=
  match x with NaN => true | _ => false end.

Definition fneg (x : np_float) : np_float :=
  match x with
  | NaN => NaN
  | NInf => PInf
  | Fin q => Fin (- q)%Qc
  | PInf => NInf
  end.

Definition fadd (x y : np_float) : np_float :=
  match x, y with
  | NaN, _ | _, NaN => NaN
  | PInf, NInf | NInf, PInf => NaN
  | PInf, _ | _, PInf => PInf
  | NInf, _ | _, NInf => NInf
  | Fin a, Fin b => Fin (a + b)%Qc
  end.

Definition fsub (x y : np_float) : np_float := fadd x (fneg y).

(** The sign of an infinity multiplied by the finite [a]. *)
Definition scale_inf (a : Qc) (pos : bool) : np_float :=
  match (a ?= 0)%Qc with
  | Eq => NaN
  | Gt => if pos then PInf else NInf
  | Lt => if pos then NInf else PInf
  end.

Definition fmul (x y : np_float) : np_float :=
  match x, y with
  | NaN, _ | _, NaN => NaN
  | Fin a, Fin b => Fin (a * b)%Qc
  | Fin a, PInf | PInf, Fin a => scale_inf a true
  | Fin a, NInf | NInf, Fin a => scale_inf a false
  | PInf, PInf | NInf, NInf => PInf
  | PInf, NInf | NInf, PInf => NInf
  end.

(** Division; the divisors the encoder uses are the non-negative widths
    [hi - lo], so a zero divisor is the float [+0.0]. *)
Definition fdiv (x y : np_float) : np_float :=
  match x, y with
  | NaN, _ | _, NaN => NaN
  | Fin a, Fin b =>
      if decide (b = 0%Qc) then
        match (a ?= 0)%Qc with Eq => NaN | Gt => PInf | Lt => NInf end
      else Fin (a / b)%Qc
  | Fin _, (PInf | NInf) => Fin 0%Qc
  | PInf, Fin b => if decide (b < 0)%Qc then NInf else PInf
  | NInf, Fin b => if decide (b < 0)%Qc then PInf else NInf
  | (PInf | NInf), (PInf | NInf) => NaN
  end.

Definition fabs (x : np_float) : np_float :=
  match x with
  | NaN => NaN
  | NInf | PInf => PInf
  | Fin q => Fin (if decide (q < 0)%Qc then - q else q)%Qc
  end.

(** IEEE [x <= y]: false as soon as one side is [NaN]. *)
Definition fle (x y : np_float) : bool :=
  match x, y with
  | NaN, _ | _, NaN => false
  | NInf, _ | _, PInf => true
  | _, NInf | PInf, _ => false
  | Fin a, Fin b => bool_decide (a <= b)%Qc
  end.

(** [np.clip(x, lo, hi)] with finite limits: [NaN] stays [NaN]. *)
Definition np_clip (x : np_float) (lo hi : Qc) : np_float :=
  match x with
  | NaN => NaN
  | NInf => Fin lo
  | PInf => Fin hi
  | Fin q =>
      let q1 := if decide (q < lo)%Qc then lo else q in
      Fin (if decide (hi < q1)%Qc then hi else q1)
  end.

(** [np.argmin] of a 1-d array, with the value found: the first [NaN] if
    there is one, else the first least cell.  [None] on the empty array. *)
Fixpoint argmin_val (l : list np_float) : option (nat * np_float) :=
  match l with
  | [] => None
  | x :: l' =>
      match argmin_val l' with
      | None => Some (O, x)
      | Some (j, y) =>
          if isnan x || (negb (isnan y) && fle x y)
          then Some (O, x) else Some (S j, y)
      end
  end.

(** [np.argmax] of a 1-d array: the first [NaN], else the first greatest. *)
Fixpoint argmax_val (l : list np_float) : option (nat * np_float) :=
  match l with
  | [] => None
  | x :: l' =>
      match argmax_val l' with
      | None => Some (O, x)
      | Some (j, y) =>
          if isnan x || (negb (isnan y) && fle y x)
          then Some (O, x) else Some (S j, y)
      end
  end.

Definition np_argmin (l : list np_float) : result nat :=
  match argmin_val l with
  | Some (i, _) => Ok i
  | None => Err (ValueError "attempt to get argmin of an empty sequence")
  end.

Definition np_argmax (l : list np_float) : result nat :=
  match argmax_val l with
  | Some (i, _) => Ok i
  | None => Err (ValueError "attempt to get argmax of an empty sequence")
  end.

(** A numpy array of dimension 0, 1 or 2.  A 2-d array carries its number
    of columns, so that the shape [(0, d)] is represented; its rows all
    have that length ([wf_ndarray]). *)
Inductive ndarray :=
  | Arr0 (x : np_float)
  | Arr1 (v : list np_float)
  | Arr2 (ncols : nat) (rows : list (list np_float)).

Definition ndim (a : ndarray) : nat :=
  match a with Arr0 _ => 0 | Arr1 _ => 1 | Arr2 _ _ => 2 end%nat.

Definition wf_ndarray (a : ndarray) : Prop :=
  match a with
  | Arr2 d rows => Forall (fun r => length r = d) rows
  | _ => True
  end.

(** [a.reshape(1, -1)] of a 1-d array. *)
Definition reshape_row (v : list np_float) : ndarray := Arr2 (length v) [v].

(** [a.squeeze()]: every axis of length one is dropped. *)
Definition squeeze (a : ndarray) : ndarray :=
  match a with
  | Arr0 x => Arr0 x
  | Arr1 v => if decide (length v = 1%nat) then Arr0 (v !!! O) else Arr1 v
  | Arr2 d rows =>
      match decide (length rows = 1%nat), decide (d = 1%nat) with
      | left _, left _ => Arr0 (concat rows !!! O)
      | left _, right _ | right _, left _ => Arr1 (concat rows)
      | right _, right _ => Arr2 d rows
      end
  end.

(** ** Specification models, [boa/spec/models.py] *)

(** [active_if]: a dict from the name of another input to the values that
    activate this one, in insertion order. *)
Abbreviation ActiveIf := (list (string * list Value)) (only parsing).

Inductive InputSpec :=
  | ContinuousInput (name : string) (bounds : Qc * Qc)
      (active_if : option ActiveIf)
  | DiscreteInput (name : string) (values : list Qc)
      (active_if : option ActiveIf)
  | CategoricalInput (name : string) (categories : list string)
      (active_if : option ActiveIf).

Definition input_name (inp : InputSpec) : string :=
  match inp with
  | ContinuousInput n _ _ | DiscreteInput n _ _ | CategoricalInput n _ _ => n
  end.

Definition input_active_if (inp : InputSpec) : option ActiveIf :=
  match inp with
  | ContinuousInput _ _ a | DiscreteInput _ _ a | CategoricalInput _ _ a => a
  end.

(** The [is_conditional] property of the three input classes. *)
Definition input_is_conditional (inp : InputSpec) : bool :=
  match input_active_if inp with Some _ => true | None => false end.

Definition is_categorical (inp : InputSpec) : bool :=
  match inp with CategoricalInput _ _ _ => true | _ => false end.

Inductive ObjectiveDirection := MAXIMIZE | MINIMIZE.

Record ObjectiveSpec := {
  objective_name : string;
  direction : ObjectiveDirection }.

(** [ObjectiveSpec.is_maximization]. *)
Definition is_maximization (obj : ObjectiveSpec) : bool :=
  match direction obj with MAXIMIZE => true | MINIMIZE => false end.

Record ProcessSpec := {
  inputs : list InputSpec;
  objectives : list ObjectiveSpec }.

(** [ProcessSpec.input_names] and [ProcessSpec.objective_names]. *)
Definition input_names (spec : ProcessSpec) : list string :=
  input_name <$> inputs spec.
Definition objective_names (spec : ProcessSpec) : list string :=
  objective_name <$> objectives spec.

(** [ProcessSpec.get_input]: the first input of that name. *)
Definition get_input (spec : ProcessSpec) (name : string) : option InputSpec :=
  list_find (fun inp => input_name inp = name) (inputs spec) ≫= fun p => Some p.2.

(** The field validators of one input class: [validate_bounds],
    [validate_values_or_range] and [validate_categories]. *)
Definition input_valid (inp : InputSpec) : bool :=
  match inp with
  | ContinuousInput _ (lo, hi) _ => bool_decide (lo < hi)%Qc
  | DiscreteInput _ values _ => negb (bool_decide (values = []))
  | CategoricalInput _ categories _ =>
      bool_decide (2 <= length categories)%nat && bool_decide (NoDup categories)
  end.

(** [ProcessSpec.validate_conditional_references] for one input: a non-empty
    [active_if] names only inputs that exist and are categorical. *)
Definition references_valid (spec : ProcessSpec) (inp : InputSpec) : bool :=
  match input_active_if inp with
  | None => true
  | Some cond =>
      forallb (fun ref =>
        match get_input spec ref.1 with
        | Some target => is_categorical target
        | None => false
        end) cond
  end.

(** What constructing a [ProcessSpec] checks (the pydantic validators; they
    run whether or not the loader's own validation is requested). *)
Definition pydantic_valid (spec : ProcessSpec) : bool :=
  negb (bool_decide (inputs spec = []))
  && bool_decide (NoDup (input_names spec))
  && negb (bool_decide (objectives spec = []))
  && bool_decide (NoDup (objective_names spec))
  && forallb input_valid (inputs spec)
  && forallb (references_valid spec) (inputs spec).

(** ** Mixed-space encoder, [boa/spec/encoder.py] *)

(** The type tag of an [info] entry together with the keys that only that
    type carries ([bounds], [values], [categories]). *)
Inductive InfoType :=
  | ContinuousInfo (bounds : Qc * Qc)
  | DiscreteInfo (values : list Qc) (bounds : Qc * Qc)
  | CategoricalInfo (categories : list string).

(** One entry of [input_info]. *)
Record Info := {
  info_name : string;
  info_type : InfoType;
  info_active_if : option ActiveIf;
  encoded_cols : list string;
  activity_col : option string }.

(** [info["is_conditional"]], which is [active_if is not None]. *)
Definition is_conditional (info : Info) : bool :=
  match info_active_if info with Some _ => true | None => false end.

Record MixedSpaceEncoder := {
  input_info : list Info;
  encoded_columns : list string;
  activity_columns : list string;
  n_encoded : nat }.

(** Python's [min] and [max] of a list of floats. *)
Definition py_min (l : list Qc) : result Qc :=
  match l with
  | [] => Err (ValueError "min() arg is an empty sequence")
  | x :: l' => Ok (foldl (fun m y => if decide (y < m)%Qc then y else m) x l')
  end.

Definition py_max (l : list Qc) : result Qc :=
  match l with
  | [] => Err (ValueError "max() arg is an empty sequence")
  | x :: l' => Ok (foldl (fun m y => if decide (m < y)%Qc then y else m) x l')
  end.

(** [DiscreteInput.bounds]. *)
Definition discrete_bounds (values : list Qc) : result (Qc * Qc) :=
  lo ← py_min values; hi ← py_max values; Ok (lo, hi).

(** The body of the loop of [_build_encoding_info] for one input. *)
Definition build_info (inp : InputSpec) : result Info :=
  let act_col := if input_is_conditional inp
                 then Some (input_name inp +:+ "__active") else None in
  match inp with
  | ContinuousInput name bounds active_if =>
      Ok {| info_name := name; info_type := ContinuousInfo bounds;
            info_active_if := active_if; encoded_cols := [name];
            activity_col := act_col |}
  | DiscreteInput name values active_if =>
      bounds ← discrete_bounds values;
      Ok {| info_name := name; info_type := DiscreteInfo values bounds;
            info_active_if := active_if; encoded_cols := [name];
            activity_col := act_col |}
  | CategoricalInput name categories active_if =>
      let cat_cols := (fun cat => name +:+ "__" +:+ cat) <$> categories in
      Ok {| info_name := name; info_type := CategoricalInfo categories;
            info_active_if := active_if; encoded_cols := cat_cols;
            activity_col := act_col |}
  end.

Fixpoint build_infos (inps : list InputSpec) : result (list Info) :=
  match inps with
  | [] => Ok []
  | inp :: inps' =>
      info ← build_info inp; infos ← build_infos inps'; Ok (info :: infos)
  end.

(** [MixedSpaceEncoder.__init__], that is [_build_encoding_info]. *)
Definition _build_encoding_info (spec : ProcessSpec) : result MixedSpaceEncoder :=
  infos ← build_infos (inputs spec);
  let encoded_columns := concat (encoded_cols <$> infos) in
  let activity_columns := omap activity_col infos in
  Ok {| input_info := infos;
        encoded_columns := encoded_columns;
        activity_columns := activity_columns;
        n_encoded := length encoded_columns + length activity_columns |}.

(** [get_encoded_column_names]. *)
Definition get_encoded_column_names (enc : MixedSpaceEncoder) : list string :=
  encoded_columns enc ++ activity_columns enc.

(** [df[name]] on the one-row frame built from the dict [df]. *)
Definition df_col (df : pydict) (name : string) : result Value :=
  match df !! name with
  | Some v => Ok v
  | None => Err (KeyError name)
  end.

(** [is_active &= df[ref_var].isin(values)], over the items of [active_if]. *)
Fixpoint check_activity_loop (df : pydict) (is_active : bool)
    (items : ActiveIf) : result bool :=
  match items with
  | [] => Ok is_active
  | (ref_var, values) :: items' =>
      v ← df_col df ref_var;
      check_activity_loop df (is_active && bool_decide (v ∈ values)) items'
  end.

(** [MixedSpaceEncoder._check_activity] on a one-row frame. *)
Definition _check_activity (df : pydict) (active_if : ActiveIf) : result bool :=
  check_activity_loop df true active_if.

(** [a[i] = x] on a 1-d array. *)
Definition setitem (a : list np_float) (i : nat) (x : np_float)
  : result (list np_float) :=
  if decide (i < length a)%nat then Ok (<[i := x]> a)
  else Err (IndexError "index is out of bounds").

(** [np.clip((values - lo) / (hi - lo), 0, 1)]. *)
Definition normalize (x : np_float) (lo hi : Qc) : np_float :=
  np_clip (fdiv (fsub x (Fin lo)) (Fin (hi - lo)%Qc)) 0%Qc 1%Qc.

(** [(values - lo) / (hi - lo)], without clipping. *)
Definition renormalize (x : np_float) (lo hi : Qc) : np_float :=
  fdiv (fsub x (Fin lo)) (Fin (hi - lo)%Qc).

(** [normalized * (hi - lo) + lo]. *)
Definition denormalize (x : np_float) (lo hi : Qc) : np_float :=
  fadd (fmul x (Fin (hi - lo)%Qc)) (Fin lo).

(** [grid[np.argmin(np.abs(grid - v))]].  The grid of an [info] entry is
    never empty: building the entry takes its [min]. *)
Definition snap_value (grid : list Qc) (v : np_float) : np_float :=
  match argmin_val ((fun g => fabs (fsub (Fin g) v)) <$> grid) with
  | Some (idx, _) => match grid !! idx with Some g => Fin g | None => NaN end
  | None => NaN
  end.

Definition of_bool (b : bool) : np_float := if b then Fin 1%Qc else Fin 0%Qc.

Section Encode.

(** Python's [float(s)] on a text cell, which [astype(float)] applies to
    the cells of an object column: a float, or [ValueError]. *)
Variable py_float : string -> result np_float.

(** [df[name].values.astype(float)] on a one-row frame. *)
Definition astype_float (v : Value) : result np_float :=
  match v with
  | VNum x => Ok x
  | VStr s => py_float s
  end.

(** The [for cat in categories] loop of [encode]. *)
Fixpoint encode_categories (df : pydict) (name : string) (is_active : bool)
    (categories : list string) (encoded : list np_float) (col_idx : nat)
  : result (list np_float * nat) :=
  match categories with
  | [] => Ok (encoded, col_idx)
  | cat :: categories' =>
      v ← df_col df name;
      let is_cat := of_bool (bool_decide (v = VStr cat)) in
      let is_cat := if is_active then is_cat else Fin 0%Qc in
      encoded ← setitem encoded col_idx is_cat;
      encode_categories df name is_active categories' encoded (S col_idx)
  end.

(** The body of the [for info in self.input_info] loop of [encode]. *)
Definition encode_info (df : pydict) (info : Info)
    (encoded : list np_float) (col_idx : nat) : result (list np_float * nat) :=
  let name := info_name info in
  is_active ←
    match info_active_if info with
    | Some active_if => _check_activity df active_if
    | None => Ok true
    end;
  '(encoded, col_idx) ←
    match info_type info with
    | ContinuousInfo (lo, hi) | DiscreteInfo _ (lo, hi) =>
        v ← df_col df name;
        values ← astype_float v;
        let normalized := normalize values lo hi in
        let normalized := if is_active then normalized else Fin (Q2Qc (1 # 2)) in
        encoded ← setitem encoded col_idx normalized;
        Ok (encoded, S col_idx)
    | CategoricalInfo categories =>
        encode_categories df name is_active categories encoded col_idx
    end;
  if is_conditional info then
    encoded ← setitem encoded col_idx (of_bool is_active);
    Ok (encoded, S col_idx)
  else Ok (encoded, col_idx).

Fixpoint encode_loop (df : pydict) (infos : list Info)
    (encoded : list np_float) (col_idx : nat) : result (list np_float * nat) :=
  match infos with
  | [] => Ok (encoded, col_idx)
  | info :: infos' =>
      '(encoded, col_idx) ← encode_info df info encoded col_idx;
      encode_loop df infos' encoded col_idx
  end.

(** [MixedSpaceEncoder.encode] on a single dict: a frame of one row, and an
    array of shape [(1, n_encoded)]. *)
Definition encode (enc : MixedSpaceEncoder) (data : pydict) : result ndarray :=
  let encoded := replicate (n_encoded enc) (Fin 0%Qc) in
  '(encoded, _) ← encode_loop data (input_info enc) encoded O;
  Ok (Arr2 (n_encoded enc) [encoded]).

(** [ndarray.flatten()]. *)
Definition flatten (a : ndarray) : list np_float :=
  match a with
  | Arr0 x => [x]
  | Arr1 v => v
  | Arr2 _ rows => concat rows
  end.

(** [MixedSpaceEncoder.encode_single]. *)
Definition encode_single (enc : MixedSpaceEncoder) (x : pydict)
  : result (list np_float) :=
  flatten <$> encode enc x.

End Encode.

(** An entry of [input_info] whose encoding indexes the frame by the
    entry's own name: every entry but a categorical one without levels. *)
Definition reads_own_column (info : Info) : Prop :=
  match info_type info with
  | CategoricalInfo categories => categories <> []
  | _ => True
  end.


(** The slice [row[col_idx : col_idx + n_cats]]; slicing clips at the end
    of the row. *)
Definition one_hot_slice (row : list np_float) (col_idx n_cats : nat)
  : list np_float :=
  take n_cats (drop col_idx row).

(** [np.argmax] of one row of the slice.  The slice is not empty where this
    is used: an empty slice makes [np.argmax(one_hot, axis=1)] raise. *)
Definition argmax_row (slice : list np_float) : nat :=
  match argmax_val slice with
  | Some (idx, _) => idx
  | None => O
  end.

(** The width of [encoded[:, col_idx : col_idx + n_cats]] in an array of
    [d] columns. *)
Definition slice_width (d col_idx n_cats : nat) : nat :=
  (n_cats `min` (d - col_idx))%nat.

(** The body of the [for info in self.input_info] loop of [decode], on an
    array of [d] columns given by its rows; [decoded] holds one dict per
    row. *)
Definition decode_info (d : nat) (rows : list (list np_float)) (info : Info)
    (decoded : list pydict) (col_idx : nat) : result (list pydict * nat) :=
  let name := info_name info in
  '(decoded, col_idx) ←
    match info_type info with
    | ContinuousInfo (lo, hi) =>
        if decide (col_idx < d)%nat then
          Ok (zip_with (fun row (dct : pydict) =>
                <[name := VNum (denormalize (row !!! col_idx) lo hi)]> dct)
                rows decoded, S col_idx)
        else Err (IndexError "index is out of bounds for axis 1")
    | DiscreteInfo grid (lo, hi) =>
        if decide (col_idx < d)%nat then
          Ok (zip_with (fun row (dct : pydict) =>
                <[name := VNum (snap_value grid
                                  (denormalize (row !!! col_idx) lo hi))]> dct)
                rows decoded, S col_idx)
        else Err (IndexError "index is out of bounds for axis 1")
    | CategoricalInfo categories =>
        let n_cats := length categories in
        if decide (slice_width d col_idx n_cats = O) then
          Err (ValueError "attempt to get argmax of an empty sequence")
        else
          Ok (zip_with (fun row (dct : pydict) =>
                let idx := argmax_row (one_hot_slice row col_idx n_cats) in
                <[name := VStr (categories !!! idx)]> dct)
                rows decoded, (col_idx + n_cats)%nat)
    end;
  if is_conditional info then Ok (decoded, S col_idx)
  else Ok (decoded, col_idx).

Fixpoint decode_loop (d : nat) (rows : list (list np_float))
    (infos : list Info) (decoded : list pydict) (col_idx : nat)
  : result (list pydict * nat) :=
  match infos with
  | [] => Ok (decoded, col_idx)
  | info :: infos' =>
      '(decoded, col_idx) ← decode_info d rows info decoded col_idx;
      decode_loop d rows infos' decoded col_idx
  end.

(** [MixedSpaceEncoder.decode] with [return_dataframe=False]: the list of
    decoded dicts (the frame of the default is built from this list). *)
Definition decode (enc : MixedSpaceEncoder) (encoded : ndarray)
  : result (list pydict) :=
  match encoded with
  | Arr0 _ => Err (IndexError "tuple index out of range")
  | Arr1 v =>
      fst <$> decode_loop (length v) [v] (input_info enc) [∅] O
  | Arr2 d rows =>
      fst <$> decode_loop d rows (input_info enc)
                (replicate (length rows) ∅) O
  end.

(** [MixedSpaceEncoder.decode_single]; [decode] of a 1-d array yields
    exactly one dict. *)
Definition decode_single (enc : MixedSpaceEncoder) (encoded : ndarray)
  : result pydict :=
  decoded ← decode enc encoded;
  match decoded with
  | dct :: _ => Ok dct
  | [] => Err (IndexError "list index out of range")
  end.

(** [one_hot[:] = 0.0; one_hot[i, idx] = 1.0] seen from the row the slice
    is a view of. *)
Definition harden (row : list np_float) (col_idx width : nat) : list np_float :=
  let idx := argmax_row (take width (drop col_idx row)) in
  take col_idx row
  ++ <[idx := Fin 1%Qc]> (replicate width (Fin 0%Qc))
  ++ drop (col_idx + width) row.

(** The body of the [for info in self.input_info] loop of [snap_to_grid]. *)
Definition snap_info (d : nat) (info : Info) (rows : list (list np_float))
    (col_idx : nat) : result (list (list np_float) * nat) :=
  '(rows, col_idx) ←
    match info_type info with
    | DiscreteInfo grid (lo, hi) =>
        if decide (col_idx < d)%nat then
          Ok ((fun row =>
                 let values := denormalize (row !!! col_idx) lo hi in
                 let values := snap_value grid values in
                 <[col_idx := renormalize values lo hi]> row) <$> rows,
              S col_idx)
        else Err (IndexError "index is out of bounds for axis 1")
    | ContinuousInfo _ => Ok (rows, S col_idx)
    | CategoricalInfo categories =>
        let n_cats := length categories in
        let width := slice_width d col_idx n_cats in
        if decide (width = O) then
          Err (ValueError "attempt to get argmax of an empty sequence")
        else
          Ok ((fun row => harden row col_idx width) <$> rows,
              (col_idx + n_cats)%nat)
    end;
  if is_conditional info then Ok (rows, S col_idx)
  else Ok (rows, col_idx).

Fixpoint snap_loop (d : nat) (infos : list Info) (rows : list (list np_float))
    (col_idx : nat) : result (list (list np_float) * nat) :=
  match infos with
  | [] => Ok (rows, col_idx)
  | info :: infos' =>
      '(rows, col_idx) ← snap_info d info rows col_idx;
      snap_loop d infos' rows col_idx
  end.

(** [MixedSpaceEncoder.snap_to_grid].  A 0-d array is not reshaped (its
    [ndim] is not 1), and then every path raises [IndexError]: a discrete
    or categorical entry indexes [result[:, col_idx]], and after the loop
    [result.shape[0]] indexes the empty shape. *)
Definition snap_to_grid (enc : MixedSpaceEncoder) (encoded : ndarray)
  : result ndarray :=
  match (match encoded with Arr1 v => reshape_row v | _ => encoded end) with
  | Arr2 d rows =>
      '(rows, _) ← snap_loop d (input_info enc) rows O;
      if decide (length rows = 1%nat) then Ok (squeeze (Arr2 d rows))
      else Ok (Arr2 d rows)
  | _ => Err (IndexError "array is 0-dimensional")
  end.

(** ** Process repository, [boa/db/repository.py] *)

Module ProcessRepository.

Record Process := {
  id : UUID;
  name : string;
  description : option string;
  spec_yaml : string;
  spec_parsed : gmap string string;
  version : Z;
  is_active : bool;
  updated_at : option datetime }.

(** The [processes] table; rows are kept in insertion order, which is the
    order of [created_at]. *)
Abbreviation Session := (list Process) (only parsing).

(** [BaseRepository.create]. *)
Definition create (db : Session) (entity : Process) : Process * Session :=
  (entity, db ++ [entity]).

(** Python's [a or b] on an optional string: [None] and the empty string
    are falsy. *)
Definition str_or (a : option string) (b : string) : string :=
  match a with
  | Some s => if decide (s = "") then b else s
  | None => b
  end.

(** [ProcessRepository.create_from_spec]. *)
Definition create_from_spec (db : Session) (spec_yaml : string)
    (spec_parsed : gmap string string) (name description : option string)
    (uuid : UUID) : Process * Session :=
  let process_name :=
    str_or name (default "Unnamed Process" (spec_parsed !! "name")) in
  let process :=
    {| id := uuid; name := process_name; description := description;
       spec_yaml := spec_yaml; spec_parsed := spec_parsed;
       version := 1; is_active := true; updated_at := None |} in
  create db process.

(** [ProcessRepository.list(name=...)]: newest first, at most [limit]. *)
Definition list_by_name (db : Session) (n : string) (limit : nat) : list Process :=
  take limit (reverse (filter (fun p => name p = n) db)).

(** The deactivation loop of [create_version]. *)
Definition deactivate (n : string) (now : datetime) (old : Process) : Process :=
  if decide (name old = n) then
    if is_active old then
      {| id := id old; name := name old; description := description old;
         spec_yaml := spec_yaml old; spec_parsed := spec_parsed old;
         version := version old; is_active := false; updated_at := Some now |}
    else old
  else old.

(** Python's [max] over a generator of ints. *)
Definition max_version (l : list Process) : result Z :=
  match l with
  | [] => Err (ValueError "max() arg is an empty sequence")
  | p :: l' => Ok (foldl (fun m q => Z.max m (version q)) (version p) l')
  end.

(** [ProcessRepository.create_version]; [process] is a row that is not in
    the table yet. *)
Definition create_version (db : Session) (process : Process) (now : datetime)
  : result Process * Session :=
  let db1 := deactivate (name process) now <$> db in
  match max_version (list_by_name db1 (name process) 100) with
  | Err e => (Err e, db1)
  | Ok m =>
      let process' :=
        {| id := id process; name := name process;
           description := description process; spec_yaml := spec_yaml process;
           spec_parsed := spec_parsed process;
           version := m + 1; is_active := true;
           updated_at := updated_at process |} in
      let '(p, db2) := create db1 process' in
      (Ok p, db2)
  end.

(** The number of stored versions of the name [n] that are flagged active. *)
Definition count_active (db : Session) (n : string) : nat :=
  length (filter (fun p => name p = n /\ is_active p = true) db).

(** Active-version uniqueness. *)
Definition active_unique (db : Session) : Prop :=
  forall n, (count_active db n <= 1)%nat.

End ProcessRepository.

(** ** Job queue, [boa/db/job_queue.py] *)

Module JobQueue.

Inductive JobType := PROPOSE | BENCHMARK | EXPORT | IMPORT.

Record Job := {
  campaign_id : option UUID;
  job_type : JobType;
  status : JobStatus;
  params : gmap string Value;
  result_ : option (gmap string Value);
  error : option string;
  progress : option Qc;
  started_at : option datetime;
  completed_at : option datetime;
  updated_at : option datetime }.

(** The [jobs] table, keyed by primary key. *)
Abbreviation Session := (gmap positive Job) (only parsing).

(** [JobQueue.get_or_raise]. *)
Definition get_or_raise (db : Session) (job_id : UUID) : result Job :=
  match db !! job_id with
  | Some job => Ok job
  | None => Err (JobNotFoundError job_id)
  end.

(** [JobQueue.complete]. *)
Definition complete (db : Session) (job_id : UUID)
    (res : option (gmap string Value)) (now : datetime)
  : result Job * Session :=
  match get_or_raise db job_id with
  | Err e => (Err e, db)
  | Ok job =>
      let job' :=
        {| campaign_id := campaign_id job; job_type := job_type job;
           status := JOB_COMPLETED; params := params job;
           result_ := res; error := error job;
           progress := Some 1%Qc; started_at := started_at job;
           completed_at := Some now; updated_at := Some now |} in
      (Ok job', <[job_id := job']> db)
  end.

(** [JobQueue.fail]. *)
Definition fail (db : Session) (job_id : UUID) (err : string) (now : datetime)
  : result Job * Session :=
  match get_or_raise db job_id with
  | Err e => (Err e, db)
  | Ok job =>
      let job' :=
        {| campaign_id := campaign_id job; job_type := job_type job;
           status := JOB_FAILED; params := params job;
           result_ := result_ job; error := Some err;
           progress := progress job; started_at := started_at job;
           completed_at := Some now; updated_at := Some now |} in
      (Ok job', <[job_id := job']> db)
  end.

End JobQueue.

(** ** Proposal ledger, [boa/core/ledger.py] *)

Module Ledger.

Record Iteration := {
  iteration_id : UUID;
  iteration_campaign : UUID;
  index : Z }.

Record Proposal := {
  proposal_id : UUID;
  proposal_iteration : UUID;
  strategy_name : string;
  candidates_raw : list (gmap string Value) }.

(** One element of [accepted]: [{proposal_id, candidate_indices}]. *)
Record Accepted := {
  accepted_proposal : UUID;
  candidate_indices : list Z }.

Record Decision := {
  decision_id : UUID;
  decision_iteration : UUID;
  accepted : list Accepted;
  notes : option string;
  decision_metadata : gmap string Value }.

Record Observation := {
  observation_id : UUID;
  observation_campaign : UUID;
  x_raw : gmap string Value;
  x_encoded : option (list np_float);
  y : gmap string Value;
  source : string;
  observed_at : datetime;
  observation_metadata : gmap string Value }.

(** The tables the ledger reads and writes, rows in insertion order. *)
Record Session := {
  proposals : list Proposal;
  decisions : list Decision;
  observations : list Observation }.

(** [DecisionRepository.get_by_iteration]: [select ... .first()]. *)
Definition get_by_iteration (db : Session) (iteration : UUID) : option Decision :=
  snd <$> list_find (fun d => decision_iteration d = iteration) (decisions db).

(** [DecisionRepository.has_decision]. *)
Definition has_decision (db : Session) (iteration : UUID) : bool :=
  bool_decide (is_Some (get_by_iteration db iteration)).

(** [ProposalLedger.record_decision]; [if existing] holds of every row
    (the model class defines no truth value of its own). *)
Definition record_decision (db : Session) (iteration : Iteration)
    (acc : list Accepted) (notes_ : option string)
    (metadata : option (gmap string Value)) (uuid : UUID)
  : result Decision * Session :=
  match get_by_iteration db (iteration_id iteration) with
  | Some existing =>
      (Err (ValueError ("Decision already exists for iteration "
                        +:+ pretty (index iteration))), db)
  | None =>
      let decision :=
        {| decision_id := uuid;
           decision_iteration := iteration_id iteration;
           accepted := acc; notes := notes_;
           decision_metadata := default ∅ metadata |} in
      (Ok decision,
       {| proposals := proposals db;
          decisions := decisions db ++ [decision];
          observations := observations db |})
  end.

(** [ProposalLedger.add_observation] of the ledger of campaign [campaign]. *)
Definition add_observation (db : Session) (campaign : UUID)
    (x_raw_ : gmap string Value) (y_ : gmap string Value)
    (x_encoded_ : option (list np_float)) (source_ : string)
    (observed_at_ : option datetime) (metadata : option (gmap string Value))
    (uuid : UUID) (now : datetime) : result Observation * Session :=
  let observation :=
    {| observation_id := uuid; observation_campaign := campaign;
       x_raw := x_raw_; x_encoded := x_encoded_; y := y_;
       source := source_; observed_at := default now observed_at_;
       observation_metadata := default ∅ metadata |} in
  (Ok observation,
   {| proposals := proposals db;
      decisions := decisions db;
      observations := observations db ++ [observation] |}).

(** The number of decisions stored for an iteration. *)
Definition count_decisions (db : Session) (iteration : UUID) : nat :=
  length (filter (fun d => decision_iteration d = iteration) (decisions db)).

(** At most one decision per iteration. *)
Definition decision_unique (db : Session) : Prop :=
  forall iteration, (count_decisions db iteration <= 1)%nat.

(** The range condition of the specification on one accepted entry: every
    index addresses a candidate of the proposal the entry names. *)
Definition indices_in_range (db : Session) (a : Accepted) : bool :=
  match list_find (fun p => proposal_id p = accepted_proposal a) (proposals db) with
  | Some (_, p) =>
      forallb (fun i => bool_decide (0 <= i < Z.of_nat (length (candidates_raw p))))
              (candidate_indices a)
  | None => false
  end.

End Ledger.

(** ** Campaign engine, [boa/core/engine.py] *)

Module Engine.

Section AddObservation.

Variable py_float : string -> result np_float.

(** [CampaignEngine.add_observation] of the engine of campaign [campaign],
    whose encoder is [enc]. *)
Definition add_observation (enc : MixedSpaceEncoder) (db : Ledger.Session)
    (campaign : UUID) (x_raw : gmap string Value) (y : gmap string Value)
    (source : string) (uuid : UUID) (now : datetime)
  : result Ledger.Observation * Ledger.Session :=
  match encode_single py_float enc x_raw with
  | Err e => (Err e, db)
  | Ok x_encoded =>
      Ledger.add_observation db campaign x_raw y (Some x_encoded) source
        None None uuid now
  end.

End AddObservation.

(** The coverage conditions of the specification on an observation. *)

(** [x_raw] has a key for every input that is active under [x_raw]. *)
Definition covers_active_inputs (enc : MixedSpaceEncoder)
    (x_raw : gmap string Value) : Prop :=
  forall info, info ∈ input_info enc ->
    match info_active_if info with
    | None => is_Some (x_raw !! info_name info)
    | Some active_if =>
        _check_activity x_raw active_if = Ok true ->
        is_Some (x_raw !! info_name info)
    end.

(** [y] has a key for every objective name. *)
Definition covers_objectives (spec : ProcessSpec) (y : gmap string Value) : Prop :=
  forall n, n ∈ objective_names spec -> is_Some (y !! n).

End Engine.

(** ** Strategy executor, [boa/core/executor.py] *)

Module Executor.

(** Negating column [i] of every row, [Y[:, i] = -Y[:, i]]. *)
Definition negate_column (i : nat) (Y : list (list np_float))
  : list (list np_float) :=
  (fun row => <[i := fneg (row !!! i)]> row) <$> Y.

(** The loop [for i, obj in enumerate(self.spec.objectives)] that flips the
    sign of the columns of minimization objectives, on an array of [p]
    columns. *)
Fixpoint flip_signs (p : nat) (objs : list ObjectiveSpec) (i : nat)
    (Y : list (list np_float)) : result (list (list np_float)) :=
  match objs with
  | [] => Ok Y
  | obj :: objs' =>
      if is_maximization obj then flip_signs p objs' (S i) Y
      else if decide (i < p)%nat then flip_signs p objs' (S i) (negate_column i Y)
      else Err (IndexError "index is out of bounds")
  end.

Section RefPoint.

(** [torch.Tensor.min(dim=0).values] and [torch.Tensor.std(dim=0)] on one
    column; the reductions of the tensor library are not modelled. *)
Variable torch_min : list np_float -> np_float.
Variable torch_std : list np_float -> np_float.

Definition column (i : nat) (Y : list (list np_float)) : list np_float :=
  (fun row => row !!! i) <$> Y.

(** The value [execute_optimization] passes as [ref_point=] to the
    acquisition plugin's [build], from the training outputs [Y] (of [p]
    columns) and the caller's [ref_point]. *)
Definition build_ref_point (spec : ProcessSpec) (p : nat)
    (Y : list (list np_float)) (ref_point : option (list np_float))
  : result (list np_float) :=
  Y_transformed ← flip_signs p (objectives spec) O Y;
  match ref_point with
  | None =>
      Ok ((fun i =>
             fsub (torch_min (column i Y_transformed))
                  (fmul (Fin (Q2Qc (1 # 10))) (torch_std (column i Y_transformed))))
          <$> seq O p)
  | Some r => Ok r
  end.

End RefPoint.

(** The reference point [CampaignAnalyzer._compute_hypervolume] hands to the
    hypervolume computation: the caller's, sign-flipped. *)
Definition analyzer_ref_point (spec : ProcessSpec) (ref_point : list np_float)
  : result (list np_float) :=
  rows ← flip_signs (length ref_point) (objectives spec) O [ref_point];
  match rows with
  | r :: _ => Ok r
  | [] => Ok ref_point
  end.

End Executor.

(** ** The encoder seen one row and one input at a time

    The functions below restate what the loops of the encoder do to a single
    row; the properties relate them to the loops. *)

(** The number of columns an entry of [input_info] occupies: its content
    columns, then its activity indicator if it is conditional. *)
Definition content_width (info : Info) : nat :=
  match info_type info with
  | ContinuousInfo _ | DiscreteInfo _ _ => 1%nat
  | CategoricalInfo categories => length categories
  end.

Definition info_width (info : Info) : nat :=
  (content_width info + if is_conditional info then 1 else 0)%nat.

Definition widths (infos : list Info) : nat :=
  foldr (fun info n => (info_width info + n)%nat) O infos.

(** What one pass of the loop of [snap_to_grid] does to a row, for the entry
    that starts at column [col_idx]. *)
Definition snap_row_info (info : Info) (col_idx : nat) (row : list np_float)
  : list np_float :=
  match info_type info with
  | DiscreteInfo grid (lo, hi) =>
      <[col_idx :=
          renormalize (snap_value grid (denormalize (row !!! col_idx) lo hi))
            lo hi]> row
  | ContinuousInfo _ => row
  | CategoricalInfo categories => harden row col_idx (length categories)
  end.

Fixpoint snap_row (infos : list Info) (col_idx : nat) (row : list np_float)
  : list np_float :=
  match infos with
  | [] => row
  | info :: infos' =>
      snap_row infos' (col_idx + info_width info)%nat
        (snap_row_info info col_idx row)
  end.

(** The value [decode] stores under the name of an entry, from the columns
    of a row that start at the entry's first column. *)
Definition decode_value (info : Info) (cols : list np_float) : Value :=
  match info_type info with
  | ContinuousInfo (lo, hi) => VNum (denormalize (cols !!! O) lo hi)
  | DiscreteInfo grid (lo, hi) =>
      VNum (snap_value grid (denormalize (cols !!! O) lo hi))
  | CategoricalInfo categories =>
      VStr (categories !!! argmax_row (take (length categories) cols))
  end.

(** The entries [_build_encoding_info] makes from inputs that pass their
    validators: continuous bounds are ordered, the bounds of a grid are its
    extreme values, a categorical entry has levels. *)
Definition info_wf (info : Info) : Prop :=
  match info_type info with
  | ContinuousInfo (lo, hi) => (lo < hi)%Qc
  | DiscreteInfo grid bounds => discrete_bounds grid = Ok bounds
  | CategoricalInfo categories => categories <> []
  end.

Definition is_fin (x : np_float) : Prop :=
  match x with Fin _ => True | _ => False end.








(** The dict [decode] builds for one row, entry by entry. *)
Fixpoint decode_row (infos : list Info) (col_idx : nat) (row : list np_float)
    (dct : gmap string Value) : gmap string Value :=
  match infos with
  | [] => dct
  | info :: infos' =>
      decode_row infos' (col_idx + info_width info)%nat row
        (<[info_name info := decode_value info (drop col_idx row)]> dct)
  end.


(** ** Sample data *)

Definition demo_campaign : CampaignRepository.Campaign :=
  {| CampaignRepository.process_id := 1%positive;
     CampaignRepository.name := "demo";
     CampaignRepository.status := CREATED;
     CampaignRepository.updated_at := None |}.

Definition demo_iteration : Ledger.Iteration :=
  {| Ledger.iteration_id := 3%positive;
     Ledger.iteration_campaign := 7%positive;
     Ledger.index := 0 |}.

(** A proposal with a single candidate, [{"x": 0.5}]. *)
Definition demo_proposal : Ledger.Proposal :=
  {| Ledger.proposal_id := 11%positive;
     Ledger.proposal_iteration := 3%positive;
     Ledger.strategy_name := "default";
     Ledger.candidates_raw := [ {[ "x" := VNum (Fin (Q2Qc (1 # 2))) ]} ] |}.

Definition demo_ledger : Ledger.Session :=
  {| Ledger.proposals := [demo_proposal];
     Ledger.decisions := [];
     Ledger.observations := [] |}.

(** An accepted entry naming candidate 5 of [demo_proposal], which has a
    single candidate. *)
Definition out_of_range_accepted : list Ledger.Accepted :=
  [ {| Ledger.accepted_proposal := 11%positive;
       Ledger.candidate_indices := [5] |} ].

Definition pending_job : JobQueue.Job :=
  {| JobQueue.campaign_id := None;
     JobQueue.job_type := JobQueue.PROPOSE;
     JobQueue.status := JOB_PENDING;
     JobQueue.params := ∅;
     JobQueue.result_ := None;
     JobQueue.error := None;
     JobQueue.progress := None;
     JobQueue.started_at := None;
     JobQueue.completed_at := None;
     JobQueue.updated_at := None |}.

Definition cancelled_job : JobQueue.Job :=
  {| JobQueue.campaign_id := None;
     JobQueue.job_type := JobQueue.PROPOSE;
     JobQueue.status := JOB_CANCELLED;
     JobQueue.params := ∅;
     JobQueue.result_ := None;
     JobQueue.error := None;
     JobQueue.progress := None;
     JobQueue.started_at := None;
     JobQueue.completed_at := Some 3;
     JobQueue.updated_at := Some 3 |}.

Definition demo_jobs : gmap positive JobQueue.Job :=
  {[ 5%positive := pending_job; 6%positive := cancelled_job ]}.

(** Two posts of a specification under the same name. *)
Definition one_process : list ProcessRepository.Process :=
  (ProcessRepository.create_from_spec [] "name: p" ∅ (Some "p") None
     1%positive).2.

Definition two_processes : list ProcessRepository.Process :=
  (ProcessRepository.create_from_spec one_process "name: p" ∅ (Some "p") None
     2%positive).2.

(** A new version of the process posted first. *)
Definition next_version : ProcessRepository.Process :=
  {| ProcessRepository.id := 3%positive;
     ProcessRepository.name := "p";
     ProcessRepository.description := None;
     ProcessRepository.spec_yaml := "name: p";
     ProcessRepository.spec_parsed := ∅;
     ProcessRepository.version := 1;
     ProcessRepository.is_active := true;
     ProcessRepository.updated_at := None |}.

(** One continuous input and one objective to minimize. *)
Definition minimize_spec : ProcessSpec :=
  {| inputs := [ContinuousInput "x" (0%Qc, 1%Qc) None];
     objectives := [ {| objective_name := "cost"; direction := MINIMIZE |} ] |}.

(** Three observed costs, as the one-column array [Y]. *)
Definition minimize_Y : list (list np_float) :=
  [ [Fin (Q2Qc 1)]; [Fin (Q2Qc 2)]; [Fin (Q2Qc 3)] ].

(** A [float()] that accepts no text at all. *)
Definition py_float_refuse (s : string) : result np_float :=
  Err (ValueError "could not convert string to float").

(** Scenario S1: one continuous input [x] in [0, 10], one objective [y]
    to maximize. *)
Definition hill_spec : ProcessSpec :=
  {| inputs := [ContinuousInput "x" (0%Qc, Q2Qc 10) None];
     objectives := [ {| objective_name := "y"; direction := MAXIMIZE |} ] |}.

Definition hill_encoder : MixedSpaceEncoder :=
  {| input_info :=
       [ {| info_name := "x"; info_type := ContinuousInfo (0%Qc, Q2Qc 10);
            info_active_if := None; encoded_cols := ["x"];
            activity_col := None |} ];
     encoded_columns := ["x"];
     activity_columns := [];
     n_encoded := 1 |}.

Definition empty_ledger : Ledger.Session :=
  {| Ledger.proposals := []; Ledger.decisions := []; Ledger.observations := [] |}.







(** ** Campaign write locks, [boa/db/repository.py] *)

Module CampaignLocks.

(** A row of [campaign_locks]; the primary key [campaign_id] is the key of
    the table.  Times are counted in the resolution of [datetime]. *)
Record CampaignLock := {
  locked_by : string;
  locked_at : datetime;
  expires_at : datetime }.

Abbreviation Session := (gmap positive CampaignLock) (only parsing).

(** The arguments of [CampaignLockedError]. *)
Record CampaignLockedError := {
  error_campaign_id : UUID;
  error_locked_by : string;
  error_expires_at : datetime }.

(** [CampaignRepository.acquire_write_lock]: [inl] is the exception raised,
    [inr] the value returned.  [timeout] is
    [timedelta(seconds=timeout_seconds)]. *)
Definition acquire_write_lock (db : Session) (campaign_id : UUID)
    (holder : string) (timeout : Z) (now : datetime)
  : (CampaignLockedError + bool) * Session :=
  let expires := now + timeout in
  match db !! campaign_id with
  | Some existing =>
      if bool_decide (now < expires_at existing)
         && bool_decide (locked_by existing <> holder) then
        (inl {| error_campaign_id := campaign_id;
                error_locked_by := locked_by existing;
                error_expires_at := expires_at existing |}, db)
      else
        (inr true,
         <[campaign_id := {| locked_by := holder; locked_at := now;
                             expires_at := expires |}]> db)
  | None =>
      (inr true,
       <[campaign_id := {| locked_by := holder; locked_at := now;
                           expires_at := expires |}]> db)
  end.

(** Truth value of an optional string: [None] and [""] are falsy. *)
Definition str_truthy (s : option string) : bool :=
  match s with
  | Some s => bool_decide (s <> "")
  | None => false
  end.

(** [CampaignRepository.release_write_lock]. *)
Definition release_write_lock (db : Session) (campaign_id : UUID)
    (holder : option string) : bool * Session :=
  match db !! campaign_id with
  | None => (false, db)
  | Some existing =>
      if str_truthy holder
         && bool_decide (Some (locked_by existing) <> holder) then
        (false, db)
      else
        (true, delete campaign_id db)
  end.

(** [CampaignRepository.is_locked]. *)
Definition is_locked (db : Session) (campaign_id : UUID) (now : datetime)
  : bool * option CampaignLock :=
  match db !! campaign_id with
  | Some lock =>
      if bool_decide (now < expires_at lock) then (true, Some lock)
      else (false, None)
  | None => (false, None)
  end.

(** [CampaignRepository.cleanup_expired_locks]: the rows selected, then
    deleted one by one. *)
Definition cleanup_expired_locks (db : Session) (now : datetime)
  : nat * Session :=
  let expired :=
    filter (fun kv : positive * CampaignLock => expires_at kv.2 <= now)
           (map_to_list db) in
  (length expired, foldr (fun kv db' => delete kv.1 db') db expired).

End CampaignLocks.

(** ** Job queue, [boa/db/job_queue.py]: the rest of the life cycle *)

Module JobLifecycle.

Import JobQueue.

(** Python's [x < y] on floats. *)
Definition flt (x y : np_float) : bool :=
  match x, y with
  | NaN, _ | _, NaN => false
  | NInf, NInf | PInf, PInf => false
  | NInf, _ | _, PInf => true
  | _, NInf | PInf, _ => false
  | Fin a, Fin b => bool_decide (a < b)%Qc
  end.

(** The builtins [min(a, b)] and [max(a, b)]: the first argument is kept
    unless the second compares strictly below (above) it. *)
Definition min2 (a b : np_float) : np_float := if flt b a then b else a.
Definition max2 (a b : np_float) : np_float := if flt a b then b else a.


(** The value a float leaves in the [progress] column. *)
Definition stored (x : np_float) : option Qc :=
  match x with Fin q => Some q | _ => None end.

(** [JobQueue.enqueue]; [created_at] is the column of that name, which the
    insert sets and nothing updates. *)
Definition enqueue (created_at : UUID -> datetime) (db : Session)
    (job_type_ : JobType) (params_ : gmap string Value)
    (campaign_id_ : option UUID) (uuid : UUID) (now : datetime)
  : Job * Session * (UUID -> datetime) :=
  let job :=
    {| campaign_id := campaign_id_; job_type := job_type_;
       status := JOB_PENDING; params := params_; result_ := None;
       error := None; progress := None; started_at := None;
       completed_at := None; updated_at := None |} in
  (job, <[uuid := job]> db,
   fun k => if decide (k = uuid) then now else created_at k).

(** [order_by(created_at.asc()).limit(1)] then [.first()]: a row of least
    [created_at]; among equals the database is free, the first in key
    order is taken here. *)
Definition first_by_created_at (created_at : UUID -> datetime)
    (rows : list (UUID * Job)) : option (UUID * Job) :=
  foldr (fun r best =>
           match best with
           | Some b =>
               if bool_decide (created_at r.1 <= created_at b.1)
               then Some r else Some b
           | None => Some r
           end) None rows.

(** [JobQueue.dequeue]; the job is returned with its key. *)
Definition dequeue (created_at : UUID -> datetime) (db : Session)
    (now : datetime) : option (UUID * Job) * Session :=
  let pending :=
    filter (fun r : UUID * Job => status r.2 = JOB_PENDING) (map_to_list db) in
  match first_by_created_at created_at pending with
  | Some (job_id, job) =>
      let job' :=
        {| campaign_id := campaign_id job; job_type := job_type job;
           status := JOB_RUNNING; params := params job;
           result_ := result_ job; error := error job;
           progress := progress job; started_at := Some now;
           completed_at := completed_at job; updated_at := Some now |} in
      (Some (job_id, job'), <[job_id := job']> db)
  | None => (None, db)
  end.

(** [JobQueue.cancel]. *)
Definition cancel (db : Session) (job_id : UUID) (now : datetime)
  : result Job * Session :=
  match get_or_raise db job_id with
  | Err e => (Err e, db)
  | Ok job =>
      match status job with
      | JOB_RUNNING => (Err (JobAlreadyRunningError job_id), db)
      | JOB_COMPLETED | JOB_FAILED | JOB_CANCELLED => (Ok job, db)
      | JOB_PENDING =>
          let job' :=
            {| campaign_id := campaign_id job; job_type := job_type job;
               status := JOB_CANCELLED; params := params job;
               result_ := result_ job; error := error job;
               progress := progress job; started_at := started_at job;
               completed_at := Some now; updated_at := Some now |} in
          (Ok job', <[job_id := job']> db)
      end
  end.


(** The filter of [pending_count] and [running_count]: a status, and the
    campaign when one is given. *)
Definition counted (s : JobStatus) (campaign_id_ : option UUID) (job : Job)
  : bool :=
  bool_decide (status job = s)
  && match campaign_id_ with
     | Some c => bool_decide (campaign_id job = Some c)
     | None => true
     end.

(** [JobQueue.pending_count] and [JobQueue.running_count]. *)
Definition pending_count (db : Session) (campaign_id_ : option UUID) : nat :=
  length (filter (fun r : UUID * Job => counted JOB_PENDING campaign_id_ r.2)
                 (map_to_list db)).

Definition running_count (db : Session) (campaign_id_ : option UUID) : nat :=
  length (filter (fun r : UUID * Job => counted JOB_RUNNING campaign_id_ r.2)
                 (map_to_list db)).





End JobLifecycle.

(** ** Iterations of a campaign, [boa/db/repository.py] and
    [boa/core/ledger.py] *)

Module Iterations.

(** A row of [iterations]: the columns of [Ledger.Iteration] and the two
    that [start_iteration] fills in besides. *)
Record IterationRow := {
  iteration : Ledger.Iteration;
  dataset_hash : option string;
  metadata_ : gmap string Value }.

(** The tables [start_iteration] reads and writes; iterations are kept in
    insertion order. *)
Record Session := {
  campaigns : gmap positive CampaignRepository.Campaign;
  iterations : list IterationRow }.

Definition index_of (r : IterationRow) : Z := Ledger.index (iteration r).

Definition of_campaign (campaign_id : UUID) (r : IterationRow) : Prop :=
  Ledger.iteration_campaign (iteration r) = campaign_id.

Global Instance of_campaign_dec campaign_id r : Decision (of_campaign campaign_id r).
Proof. unfold of_campaign. apply _. Defined.

(** [IterationRepository.get_latest]: [order_by(index.desc()).limit(1)],
    then [.first()].  Among rows of equal index the database is free; the
    first in insertion order is taken here. *)
Definition get_latest (db : Session) (campaign_id : UUID)
  : option IterationRow :=
  foldr (fun r best =>
           match best with
           | Some b => if bool_decide (index_of b <= index_of r)
                       then Some r else Some b
           | None => Some r
           end)
        None (filter (of_campaign campaign_id) (iterations db)).

(** [IterationRepository.next_index]. *)
Definition next_index (db : Session) (campaign_id : UUID) : Z :=
  match get_latest db campaign_id with
  | Some latest => index_of latest + 1
  | None => 0
  end.

(** [IterationRepository.get_by_index]: [.first()] of the matching rows. *)
Definition get_by_index (db : Session) (campaign_id : UUID) (i : Z)
  : option IterationRow :=
  head (filter (fun r => of_campaign campaign_id r /\ index_of r = i)
               (iterations db)).

(** The order of [order_by(index.asc())]. *)
Definition by_index (a b : IterationRow) : Prop := index_of a <= index_of b.

Global Instance by_index_dec a b : Decision (by_index a b).
Proof. unfold by_index. apply _. Defined.

(** [IterationRepository.list]: by ascending index, [offset] rows skipped
    and at most [limit] returned. *)
Definition list_ (db : Session) (campaign_id : UUID) (limit offset : nat)
  : list IterationRow :=
  take limit
    (drop offset
       (merge_sort by_index
          (filter (of_campaign campaign_id) (iterations db)))).

(** [ProposalLedger.get_current_iteration] and
    [ProposalLedger.get_iteration_count] of the ledger of a campaign. *)
Definition get_current_iteration (db : Session) (campaign_id : UUID)
  : option IterationRow :=
  get_latest db campaign_id.

Definition get_iteration_count (db : Session) (campaign_id : UUID) : nat :=
  length (list_ db campaign_id 100 0).

(** [ProposalLedger.start_iteration] of the ledger whose [self.campaign]
    is the object [campaign] with primary key [campaign_id].  The call
    returns the iteration, the campaign object as it is afterwards, and
    the tables; the new row is committed before the status is looked at. *)
Definition start_iteration (db : Session) (campaign_id : UUID)
    (campaign : CampaignRepository.Campaign) (dataset_hash_ : option string)
    (metadata : option (gmap string Value)) (uuid : UUID) (now : datetime)
  : result IterationRow * CampaignRepository.Campaign * Session :=
  let current := get_current_iteration db campaign_id in
  let next_idx :=
    match current with
    | None => 0
    | Some c => index_of c + 1
    end in
  let row :=
    {| iteration :=
         {| Ledger.iteration_id := uuid;
            Ledger.iteration_campaign := campaign_id;
            Ledger.index := next_idx |};
       dataset_hash := dataset_hash_;
       metadata_ := default ∅ metadata |} in
  let its := iterations db ++ [row] in
  if decide (CampaignRepository.status campaign = CREATED) then
    match CampaignRepository.update_status (campaigns db) campaign_id ACTIVE now
    with
    | (Ok refreshed, campaigns') =>
        (Ok row, refreshed, {| campaigns := campaigns'; iterations := its |})
    | (Err e, campaigns') =>
        (Err e, campaign, {| campaigns := campaigns'; iterations := its |})
    end
  else
    (Ok row, campaign, {| campaigns := campaigns db; iterations := its |}).

(** The indices stored for a campaign, in insertion order. *)
Definition indices (db : Session) (campaign_id : UUID) : list Z :=
  index_of <$> filter (of_campaign campaign_id) (iterations db).

(** The ledger's campaign object is the row stored under its key. *)
Definition attached (db : Session) (campaign_id : UUID)
    (campaign : CampaignRepository.Campaign) : Prop :=
  campaigns db !! campaign_id = Some campaign.

(** A run of [start_iteration] calls on one ledger, one entry of [calls]
    per call; the iterations that were started, in order, and the state
    the last call leaves.  The run stops at the first call that raises. *)
Fixpoint start_iterations (db : Session) (campaign_id : UUID)
    (campaign : CampaignRepository.Campaign)
    (calls : list (UUID * datetime))
  : list IterationRow * CampaignRepository.Campaign * Session :=
  match calls with
  | [] => ([], campaign, db)
  | (uuid, now) :: calls' =>
      match start_iteration db campaign_id campaign None None uuid now with
      | (Ok row, campaign', db') =>
          let '(rows, campaign'', db'') :=
            start_iterations db' campaign_id campaign' calls' in
          (row :: rows, campaign'', db'')
      | (Err _, campaign', db') => ([], campaign', db')
      end
  end.

End Iterations.

(** ** Process versions, [boa/db/repository.py]: the lookups *)

Module ProcessVersions.

Import ProcessRepository.

(** The [where] clauses of [get_by_name]: the name, and either the version
    asked for or the active flag. *)
Definition selected (n : string) (v : option Z) (p : Process) : Prop :=
  name p = n /\
  match v with
  | Some v => version p = v
  | None => is_active p = true
  end.

Global Instance selected_dec n v p : Decision (selected n v p).
Proof. unfold selected. destruct v; apply _. Defined.

(** [ProcessRepository.get_by_name]: [.first()] of a statement without an
    order; rows are taken in insertion order. *)
Definition get_by_name (db : Session) (n : string) (v : option Z)
  : option Process :=
  head (filter (selected n v) db).

(** The order of [order_by(version.desc())]. *)
Definition by_version_desc (a b : Process) : Prop := version b <= version a.

Global Instance by_version_desc_dec a b : Decision (by_version_desc a b).
Proof. unfold by_version_desc. apply _. Defined.

(** [ProcessRepository.list_versions]. *)
Definition list_versions (db : Session) (n : string) (active_only : bool)
  : list Process :=
  merge_sort by_version_desc
    (filter (fun p => name p = n /\ (active_only = true -> is_active p = true))
            db).

End ProcessVersions.

(** ** The encoded space and the way back from it, [boa/spec/encoder.py]
    and the end of [execute_optimization] in [boa/core/executor.py] *)

(** [MixedSpaceEncoder.get_bounds]: [np.zeros(n_encoded)] and
    [np.ones(n_encoded)]. *)
Definition get_bounds (enc : MixedSpaceEncoder)
  : list np_float * list np_float :=
  (replicate (n_encoded enc) (Fin 0%Qc), replicate (n_encoded enc) (Fin 1%Qc)).

(** A row has one cell per bound, and each cell lies between the bounds of
    its column unless it is NaN. *)
Definition within_bounds (bounds : list np_float * list np_float)
    (row : list np_float) : Prop :=
  length row = length bounds.1 /\
  forall i lo hi x,
    bounds.1 !! i = Some lo -> bounds.2 !! i = Some hi -> row !! i = Some x ->
    isnan x = true \/ (fle lo x = true /\ fle x hi = true).

(** A cell that [encode] can write: NaN, or a number from 0 to 1. *)
Definition unit_cell (x : np_float) : Prop :=
  x = NaN \/ exists q, x = Fin q /\ (0 <= q)%Qc /\ (q <= 1)%Qc.

(** A value of the kind an input declares: a number, one of the grid
    values, or one of the levels. *)
Definition in_domain (inp : InputSpec) (v : Value) : Prop :=
  match inp with
  | ContinuousInput _ _ _ => exists x, v = VNum x
  | DiscreteInput _ values _ => exists g, v = VNum (Fin g) /\ g ∈ values
  | CategoricalInput _ categories _ => exists s, v = VStr s /\ s ∈ categories
  end.

Module ExecuteOptimization.



End ExecuteOptimization.

(** ** Campaign engine, [boa/core/engine.py]: status changes, batches and
    training data *)

Module CampaignEngine.

(** [CampaignEngine.complete] and [CampaignEngine.pause] of the engine of
    the campaign with key [campaign_id]; the campaign returned is
    [self.campaign] after [session.refresh]. *)
Definition complete (db : gmap positive CampaignRepository.Campaign)
    (campaign_id : UUID) (now : datetime)
  : result CampaignRepository.Campaign
    * gmap positive CampaignRepository.Campaign :=
  CampaignRepository.update_status db campaign_id COMPLETED now.

Definition pause (db : gmap positive CampaignRepository.Campaign)
    (campaign_id : UUID) (now : datetime)
  : result CampaignRepository.Campaign
    * gmap positive CampaignRepository.Campaign :=
  CampaignRepository.update_status db campaign_id PAUSED now.

(** [CampaignEngine.resume]; [campaign] is [self.campaign]. *)
Definition resume (db : gmap positive CampaignRepository.Campaign)
    (campaign_id : UUID) (campaign : CampaignRepository.Campaign)
    (now : datetime)
  : result CampaignRepository.Campaign
    * gmap positive CampaignRepository.Campaign :=
  if decide (CampaignRepository.status campaign <> PAUSED) then
    (Err (ValueError "Campaign is not paused"), db)
  else CampaignRepository.update_status db campaign_id ACTIVE now.

(** [ObservationRepository.list]: the order of
    [order_by(observed_at.asc())]. *)
Definition by_observed_at (a b : Ledger.Observation) : Prop :=
  Ledger.observed_at a <= Ledger.observed_at b.

Global Instance by_observed_at_dec a b : Decision (by_observed_at a b).
Proof. unfold by_observed_at. apply _. Defined.

Definition listed (campaign_id : UUID) (source : option string)
    (o : Ledger.Observation) : Prop :=
  Ledger.observation_campaign o = campaign_id /\
  match source with
  | Some s => Ledger.source o = s
  | None => True
  end.

Global Instance listed_dec campaign_id source o
  : Decision (listed campaign_id source o).
Proof. unfold listed. destruct source; apply _. Defined.

Definition list_ (db : Ledger.Session) (campaign_id : UUID)
    (source : option string) (limit offset : nat) : list Ledger.Observation :=
  take limit
    (drop offset
       (merge_sort by_observed_at
          (filter (listed campaign_id source) (Ledger.observations db)))).

(** [ObservationRepository.count]. *)
Definition count (db : Ledger.Session) (campaign_id : UUID) : nat :=
  length (filter (fun o => Ledger.observation_campaign o = campaign_id)
                 (Ledger.observations db)).

(** [ProposalLedger.get_observations]. *)
Definition get_observations (db : Ledger.Session) (campaign_id : UUID)
  : list Ledger.Observation :=
  list_ db campaign_id None 1000 0.

Section Data.

Variable py_float : string -> result np_float.

(** [obs[key]] on an element of the batch. *)
Definition getitem (obs : gmap string pydict) (key : string) : result pydict :=
  match obs !! key with
  | Some d => Ok d
  | None => Err (KeyError key)
  end.

(** What [add_observation] is called with for one element of the batch,
    and the row [encode_single] makes of it: the part of the loop body
    that can raise. *)
Definition prepare (enc : MixedSpaceEncoder) (obs : gmap string pydict)
  : result (pydict * pydict * list np_float) :=
  x_raw ← getitem obs "x_raw";
  y ← getitem obs "y";
  x_encoded ← encode_single py_float enc x_raw;
  Ok (x_raw, y, x_encoded).

(** [CampaignEngine.add_observations_batch]; each element of the batch
    comes with the key and the time its row is given. *)
Fixpoint add_observations_batch (enc : MixedSpaceEncoder)
    (db : Ledger.Session) (campaign_id : UUID)
    (observations : list (gmap string pydict * UUID * datetime))
    (source : string) : result unit * Ledger.Session :=
  match observations with
  | [] => (Ok tt, db)
  | (obs, uuid, now) :: observations' =>
      match getitem obs "x_raw" with
      | Err e => (Err e, db)
      | Ok x_raw =>
          match getitem obs "y" with
          | Err e => (Err e, db)
          | Ok y =>
              match Engine.add_observation py_float enc db campaign_id
                      x_raw y source uuid now with
              | (Err e, db') => (Err e, db')
              | (Ok _, db') =>
                  add_observations_batch enc db' campaign_id observations'
                    source
              end
          end
      end
  end.

(** The comprehension [[encode_single(obs.x_raw) for obs in observations]]. *)
Fixpoint encode_rows (enc : MixedSpaceEncoder)
    (observations : list Ledger.Observation) : result (list (list np_float)) :=
  match observations with
  | [] => Ok []
  | obs :: observations' =>
      row ← encode_single py_float enc (Ledger.x_raw obs);
      rows ← encode_rows enc observations';
      Ok (row :: rows)
  end.

(** The comprehension [[obs.y.get(obj.name, np.nan) for obj in objectives]]
    for one observation. *)
Definition objective_row (spec : ProcessSpec) (obs : Ledger.Observation)
  : list Value :=
  (fun obj => default (VNum NaN) (Ledger.y obs !! objective_name obj))
    <$> objectives spec.

(** [CampaignEngine.get_training_data].  [X] is the array built from the
    encoded rows; [Y] is given by its number of columns and the rows
    [np.array] is called on. *)
Definition get_training_data (enc : MixedSpaceEncoder) (spec : ProcessSpec)
    (db : Ledger.Session) (campaign_id : UUID)
  : result (ndarray * (nat * list (list Value))) :=
  let observations := get_observations db campaign_id in
  let n_obj := length (objectives spec) in
  match observations with
  | [] => Ok (Arr2 (n_encoded enc) [], (n_obj, []))
  | _ =>
      X ← encode_rows enc observations;
      let Y := objective_row spec <$> observations in
      Ok (Arr2 (n_encoded enc) X, (n_obj, Y))
  end.

End Data.

End CampaignEngine.

(** ** Campaign analyzer, [boa/core/analyzer.py] *)

Module CampaignAnalyzer.

(** The largest finite double, which [np.nan_to_num] puts in the place of
    an infinity when it is given no value for it. *)
Definition float_max : Qc := Q2Qc ((2 ^ 1024 - 2 ^ 971)%Z # 1).

(** [np.nan_to_num(x, nan=-np.inf)] on one cell. *)
Definition nan_to_num (x : np_float) : np_float :=
  match x with
  | NaN => NInf
  | PInf => Fin float_max
  | NInf => Fin (- float_max)%Qc
  | Fin q => Fin q
  end.

(** [np.all(a >= b)] and [np.any(a > b)] on two rows. *)
Definition all_ge (a b : list np_float) : bool :=
  forallb (fun ab : np_float * np_float => fle ab.2 ab.1) (zip a b).

Definition any_gt (a b : list np_float) : bool :=
  existsb (fun ab : np_float * np_float => JobLifecycle.flt ab.2 ab.1) (zip a b).

(** The test of the inner loop: row [j] is at least as good as row [i]
    everywhere and strictly better somewhere. *)
Definition dominates (Yj Yi : list np_float) : bool :=
  all_ge Yj Yi && any_gt Yj Yi.

(** The array [Y_max] of [_get_pareto_mask]: the columns of minimization
    objectives negated, then NaN turned into minus infinity.  [Y] is given
    by its rows, [p] is its number of columns. *)
Definition to_maximization (spec : ProcessSpec) (p : nat)
    (Y : list (list np_float)) : result (list (list np_float)) :=
  match Executor.flip_signs p (objectives spec) O Y with
  | Ok Y_max => Ok ((fun row : list np_float => nan_to_num <$> row) <$> Y_max)
  | Err e => Err e
  end.

(** The two loops of [_get_pareto_mask] for one [i]: whether some [j]
    other than [i] makes the test succeed. *)
Definition is_dominated (Y_max : list (list np_float)) (i : nat)
    (Yi : list np_float) : bool :=
  existsb (fun jr : nat * list np_float =>
             bool_decide (jr.1 <> i) && dominates jr.2 Yi)
          (imap pair Y_max).

(** [CampaignAnalyzer._get_pareto_mask]. *)
Definition _get_pareto_mask (spec : ProcessSpec) (p : nat)
    (Y : list (list np_float)) : result (list bool) :=
  if decide (length Y = O) then Ok []
  else
    match to_maximization spec p Y with
    | Ok Y_max => Ok (imap (fun i Yi => negb (is_dominated Y_max i Yi)) Y_max)
    | Err e => Err e
    end.

(** The loop of [_compute_improvement_history] for one objective:
    [best] is the running best, [history] is returned in order. *)
Fixpoint cumulative_best (maximize : bool) (best : np_float)
    (column : list np_float) : list np_float :=
  match column with
  | [] => []
  | val :: column' =>
      if isnan val then NaN :: cumulative_best maximize best column'
      else
        let best' := if maximize then JobLifecycle.max2 best val
                     else JobLifecycle.min2 best val in
        best' :: cumulative_best maximize best' column'
  end.

Section History.

(** [partial._compute_hypervolume()] of the analyzer built on a prefix of
    the observations, given by the rows of its [Y]. *)
Variable _compute_hypervolume : list (list np_float) -> option np_float.

(** [CampaignAnalyzer._compute_improvement_history]; [has_ref_point] says
    whether [self.ref_point] is set. *)
Definition _compute_improvement_history (spec : ProcessSpec)
    (Y : list (list np_float)) (has_ref_point : bool) : list np_float :=
  if decide (length Y = O) then []
  else
    match objectives spec with
    | [obj] =>
        let best := if is_maximization obj then NInf else PInf in
        cumulative_best (is_maximization obj) best
          ((fun row => row !!! O) <$> Y)
    | _ =>
        if has_ref_point then
          (fun i => default (Fin 0%Qc) (_compute_hypervolume (take i Y)))
            <$> seq 1 (length Y)
        else []
    end.

End History.

End CampaignAnalyzer.

(** [b] is at least as good as [w] for an objective that is maximized
    ([maximize = true]) or minimized. *)
Definition at_least_as_good (maximize : bool) (b w : np_float) : Prop :=
  if maximize then fle w b = true else fle b w = true.

(** Row [a] dominates row [b]: it is at least as large in every column and
    larger in some column. *)
Definition pareto_dominates (a b : list np_float) : Prop :=
  (forall j x y, a !! j = Some x -> b !! j = Some y -> fle y x = true) /\
  (exists j x y, a !! j = Some x /\ b !! j = Some y
                 /\ JobLifecycle.flt y x = true).

(** ** One continuous cell in binary64, [encoder.py] l.126-129 and 189-190

    The arithmetic [encode] and [decode] perform on a cell of a continuous
    input, on IEEE binary64 numbers as numpy computes it. *)

Module Binary64.

(** [np.clip(x, lo, hi)] on one cell: [NaN] stays [NaN]. *)
Definition clip (x lo hi : float) : float :=
  if PrimFloat.ltb x lo then lo
  else if PrimFloat.ltb hi x then hi else x.

(** [np.clip((values - lo) / (hi - lo), 0, 1)]. *)
Definition normalize (x lo hi : float) : float :=
  clip (PrimFloat.div (PrimFloat.sub x lo) (PrimFloat.sub hi lo))
       0%float 1%float.

(** [normalized * (hi - lo) + lo]. *)
Definition denormalize (x lo hi : float) : float :=
  PrimFloat.add (PrimFloat.mul x (PrimFloat.sub hi lo)) lo.

End Binary64.

(** * Properties *)

(** ** The campaign status machine *)

Lemma VALID_TRANSITIONS_graph (s s' : CampaignStatus) :
  s' ∈ CampaignRepository.VALID_TRANSITIONS s <-> CampaignRepository.graph_edge s s'.
Proof.
  split.
  - destruct s; simpl; intros H;
      repeat (apply elem_of_cons in H as [-> | H]); try constructor;
      by apply elem_of_nil in H.
  - destruct 1; simpl; set_solver.
Qed.

Lemma update_status_edge (db : gmap positive CampaignRepository.Campaign)
    (id : positive) (c : CampaignRepository.Campaign) (s' : CampaignStatus)
    (now : Z) :
  db !! id = Some c ->
  CampaignRepository.graph_edge (CampaignRepository.status c) s' ->
  exists c',
    CampaignRepository.update_status db id s' now = (Ok c', <[id := c']> db)
    /\ CampaignRepository.status c' = s'.
Proof.
  intros Hc He. unfold CampaignRepository.update_status,
    CampaignRepository.get_or_raise. rewrite Hc.
  rewrite bool_decide_eq_true_2 by by apply VALID_TRANSITIONS_graph.
  simpl. eexists. split; reflexivity.
Qed.

Lemma update_status_no_edge (db : gmap positive CampaignRepository.Campaign)
    (id : positive) (c : CampaignRepository.Campaign) (s' : CampaignStatus)
    (now : Z) :
  db !! id = Some c ->
  ~ CampaignRepository.graph_edge (CampaignRepository.status c) s' ->
  CampaignRepository.update_status db id s' now
  = (Err (InvalidStateTransitionError (CampaignRepository.status c) s'), db).
Proof.
  intros Hc He. unfold CampaignRepository.update_status,
    CampaignRepository.get_or_raise. rewrite Hc.
  rewrite bool_decide_eq_false_2; [done|].
  by rewrite VALID_TRANSITIONS_graph.
Qed.

Lemma graph_edge_dec (s s' : CampaignStatus) :
  {CampaignRepository.graph_edge s s'} + {~ CampaignRepository.graph_edge s s'}.
Proof.
  destruct (decide (s' ∈ CampaignRepository.VALID_TRANSITIONS s)) as [H|H];
    [left|right]; by rewrite <- VALID_TRANSITIONS_graph.
Qed.

Lemma history_is_path (requests : list (CampaignStatus * Z)) :
  forall (db : gmap positive CampaignRepository.Campaign) (id : positive)
         (c : CampaignRepository.Campaign),
    db !! id = Some c ->
    CampaignRepository.is_path (CampaignRepository.status c)
      (CampaignRepository.history db id requests).
Proof.
  induction requests as [|[s now] requests IH]; intros db id c Hc; [done|].
  simpl. destruct (graph_edge_dec (CampaignRepository.status c) s) as [He|He].
  - destruct (update_status_edge db id c s now Hc He) as (c' & -> & Hs).
    simpl. rewrite Hs. split; [done|].
    rewrite <- Hs. apply IH. by rewrite lookup_insert_eq.
  - rewrite (update_status_no_edge db id c s now Hc He). by apply IH.
Qed.

(** C6: on an existing campaign a requested status change succeeds exactly
    along the edges CREATED -> ACTIVE, ACTIVE -> PAUSED, ACTIVE -> COMPLETED,
    PAUSED -> ACTIVE, PAUSED -> ARCHIVED, COMPLETED -> ARCHIVED, and then
    stores the new status; any other request fails with
    InvalidStateTransitionError and leaves the store (hence the status)
    unchanged; so the statuses a campaign takes over any sequence of
    requests form a path in that graph. *)
Theorem update_status_follows_graph
    (db : gmap positive CampaignRepository.Campaign) (id : positive)
    (c : CampaignRepository.Campaign) (s' : CampaignStatus) (now : Z) :
  db !! id = Some c ->
  (CampaignRepository.graph_edge (CampaignRepository.status c) s' ->
     exists c',
       CampaignRepository.update_status db id s' now = (Ok c', <[id := c']> db)
       /\ CampaignRepository.status c' = s'
       /\ CampaignRepository.status_of (<[id := c']> db) id = Some s')
  /\ (~ CampaignRepository.graph_edge (CampaignRepository.status c) s' ->
        CampaignRepository.update_status db id s' now
        = (Err (InvalidStateTransitionError (CampaignRepository.status c) s'), db))
  /\ (forall s, ~ CampaignRepository.graph_edge ARCHIVED s)
  /\ (forall requests,
        CampaignRepository.is_path (CampaignRepository.status c)
          (CampaignRepository.history db id requests)).
Proof.
  intros Hc. repeat split.
  - intros He. destruct (update_status_edge db id c s' now Hc He) as (c' & Hu & Hs).
    exists c'. repeat split; [done..|].
    unfold CampaignRepository.status_of. by rewrite lookup_insert_eq, <- Hs.
  - by apply update_status_no_edge.
  - intros s He. inversion He.
  - intros requests. by apply history_is_path.
Qed.

Lemma update_status_follows_graph_witness :
  CampaignRepository.is_path CREATED
    (CampaignRepository.history ({[ 7%positive := demo_campaign ]}) 7%positive
       [(PAUSED, 1); (ACTIVE, 2); (COMPLETED, 3); (ACTIVE, 4); (ARCHIVED, 5)]).
Proof.
  apply (update_status_follows_graph {[ 7%positive := demo_campaign ]}
           7%positive demo_campaign ACTIVE 0).
  reflexivity.
Defined.

(** ** Decisions *)

Lemma get_by_iteration_None (db : Ledger.Session) (i : positive) :
  Ledger.get_by_iteration db i = None <-> Ledger.count_decisions db i = O.
Proof.
  unfold Ledger.get_by_iteration, Ledger.count_decisions.
  etrans; [apply fmap_None|]. etrans; [apply list_find_None|].
  induction (Ledger.decisions db) as [|d l IH]; [done|].
  rewrite Forall_cons, filter_cons. destruct (decide (Ledger.decision_iteration d = i)).
  - simpl. split; [intros [? _]; done | done].
  - rewrite <- IH. tauto.
Qed.

Lemma count_decisions_snoc (db : Ledger.Session) (d : Ledger.Decision)
    (i : positive) :
  length (filter (fun d => Ledger.decision_iteration d = i)
            (Ledger.decisions db ++ [d]))
  = (Ledger.count_decisions db i
     + if decide (Ledger.decision_iteration d = i) then 1 else 0)%nat.
Proof.
  unfold Ledger.count_decisions. rewrite filter_app, length_app.
  f_equal. rewrite filter_cons, filter_nil. by destruct (decide _).
Qed.

Lemma record_decision_exists (db : Ledger.Session) (it : Ledger.Iteration)
    (acc : list Ledger.Accepted) (notes : option string)
    (md : option (gmap string Value)) (uuid : positive) :
  Ledger.count_decisions db (Ledger.iteration_id it) <> O ->
  Ledger.record_decision db it acc notes md uuid
  = (Err (ValueError ("Decision already exists for iteration "
                      +:+ pretty (Ledger.index it))), db).
Proof.
  intros Hc. unfold Ledger.record_decision.
  destruct (Ledger.get_by_iteration _ _) eqn:Hg; [done|].
  by apply get_by_iteration_None in Hg.
Qed.

Lemma count_decisions_O (db : Ledger.Session) (i : positive) :
  Ledger.count_decisions db i = O <->
  forall d, d ∈ Ledger.decisions db -> Ledger.decision_iteration d <> i.
Proof.
  unfold Ledger.count_decisions.
  induction (Ledger.decisions db) as [|d l IH]; simpl.
  - split; [|done]. intros _ d Hd. by apply elem_of_nil in Hd.
  - rewrite filter_cons.
    destruct (decide (Ledger.decision_iteration d = i)) as [Hd|Hd]; simpl.
    + split; [done|]. intros H. destruct (H d); [apply list_elem_of_here|done].
    + rewrite IH. split.
      * intros H d' Hd'. apply elem_of_cons in Hd' as [->|Hd']; [done|].
        by apply H.
      * intros H d' Hd'. apply H. by apply list_elem_of_further.
Qed.

Lemma filter_two_lookups {A} (P : A -> Prop) `{!forall x, Decision (P x)}
    (l : list A) (i j : nat) (a b : A) :
  l !! i = Some a -> l !! j = Some b -> P a -> P b -> i <> j ->
  (2 <= length (filter P l))%nat.
Proof.
  revert i j. induction l as [|x l IH]; intros i j Hi Hj Pa Pb Hne; [done|].
  rewrite filter_cons. destruct i as [|i], j as [|j]; simpl in *.
  - done.
  - injection Hi as ->. rewrite decide_True by done. simpl.
    assert (Hin : b ∈ filter P l).
    { apply list_elem_of_filter. split; [done|].
      by apply list_elem_of_lookup_2 in Hj. }
    destruct (filter P l); [by apply elem_of_nil in Hin|simpl; lia].
  - injection Hj as ->. rewrite decide_True by done. simpl.
    assert (Hin : a ∈ filter P l).
    { apply list_elem_of_filter. split; [done|].
      by apply list_elem_of_lookup_2 in Hi. }
    destruct (filter P l); [by apply elem_of_nil in Hin|simpl; lia].
  - assert (Hl : (2 <= length (filter P l))%nat)
      by (apply (IH i j); [done..|lia]).
    destruct (decide (P x)); simpl; lia.
Qed.

Lemma decision_unique_lookup (db : Ledger.Session) :
  Ledger.decision_unique db ->
  forall i j d1 d2,
    Ledger.decisions db !! i = Some d1 ->
    Ledger.decisions db !! j = Some d2 ->
    Ledger.decision_iteration d1 = Ledger.decision_iteration d2 ->
    i = j.
Proof.
  intros Hu i j d1 d2 Hi Hj Heq.
  destruct (decide (i = j)) as [|Hne]; [done|]. exfalso.
  specialize (Hu (Ledger.decision_iteration d1)).
  unfold Ledger.count_decisions in Hu.
  pose proof (filter_two_lookups
                (fun d => Ledger.decision_iteration d
                          = Ledger.decision_iteration d1)
                (Ledger.decisions db) i j d1 d2 Hi Hj eq_refl
                (eq_sym Heq) Hne) as Hlen.
  lia.
Qed.

(** C3, as the code has it.  Let the store hold at most one decision per
    iteration.  When no stored decision names the iteration,
    record_decision returns the decision built from its arguments and
    appends it to the table, after which it is the only stored decision of
    the iteration and every further record_decision on the iteration fails.
    When some stored decision names the iteration, record_decision raises
    ValueError("Decision already exists for iteration <index>") and leaves
    the store as it was.  Either way the store keeps at most one decision
    per iteration, and any two stored decisions of one iteration are the
    same row. *)
Theorem record_decision_at_most_one (db : Ledger.Session)
    (it : Ledger.Iteration) (acc : list Ledger.Accepted) (notes : option string)
    (md : option (gmap string Value)) (uuid : positive) :
  Ledger.decision_unique db ->
  let decision :=
    {| Ledger.decision_id := uuid;
       Ledger.decision_iteration := Ledger.iteration_id it;
       Ledger.accepted := acc; Ledger.notes := notes;
       Ledger.decision_metadata := default ∅ md |} in
  let db' := (Ledger.record_decision db it acc notes md uuid).2 in
  ((forall d, d ∈ Ledger.decisions db ->
      Ledger.decision_iteration d <> Ledger.iteration_id it) ->
     Ledger.record_decision db it acc notes md uuid
     = (Ok decision,
        {| Ledger.proposals := Ledger.proposals db;
           Ledger.decisions := Ledger.decisions db ++ [decision];
           Ledger.observations := Ledger.observations db |})
     /\ (forall d, d ∈ Ledger.decisions db' ->
           Ledger.decision_iteration d = Ledger.iteration_id it ->
           d = decision)
     /\ forall acc' notes' md' uuid',
          Ledger.record_decision db' it acc' notes' md' uuid'
          = (Err (ValueError ("Decision already exists for iteration "
                              +:+ pretty (Ledger.index it))), db'))
  /\ ((exists d, d ∈ Ledger.decisions db
         /\ Ledger.decision_iteration d = Ledger.iteration_id it) ->
      Ledger.record_decision db it acc notes md uuid
      = (Err (ValueError ("Decision already exists for iteration "
                          +:+ pretty (Ledger.index it))), db))
  /\ Ledger.decision_unique db'
  /\ (forall i j d1 d2,
        Ledger.decisions db' !! i = Some d1 ->
        Ledger.decisions db' !! j = Some d2 ->
        Ledger.decision_iteration d1 = Ledger.decision_iteration d2 ->
        i = j).
Proof.
  intros Hinv decision db'.
  assert (Hinv' : Ledger.decision_unique db').
  { subst db'. unfold Ledger.record_decision.
    destruct (Ledger.get_by_iteration _ _) eqn:Hg; [done|]. simpl.
    intros i. unfold Ledger.count_decisions. simpl.
    rewrite count_decisions_snoc. simpl. specialize (Hinv i).
    destruct (decide (Ledger.iteration_id it = i)) as [<-|]; [|lia].
    apply get_by_iteration_None in Hg. lia. }
  split; [|split; [|split]].
  - intros Hnone.
    assert (Hg : Ledger.get_by_iteration db (Ledger.iteration_id it) = None).
    { apply get_by_iteration_None, count_decisions_O. exact Hnone. }
    assert (Hrun : Ledger.record_decision db it acc notes md uuid
                   = (Ok decision,
                      {| Ledger.proposals := Ledger.proposals db;
                         Ledger.decisions := Ledger.decisions db ++ [decision];
                         Ledger.observations := Ledger.observations db |})).
    { unfold Ledger.record_decision. by rewrite Hg. }
    split; [exact Hrun|]. subst db'. rewrite Hrun. simpl. split.
    + intros d Hd Hit. apply elem_of_app in Hd as [Hd|Hd].
      * by destruct (Hnone d Hd).
      * by apply list_elem_of_singleton in Hd.
    + intros acc' notes' md' uuid'. apply record_decision_exists.
      intros Hc. pose proof (proj1 (count_decisions_O _ _) Hc) as Hc'.
      apply (Hc' decision); [|done]. simpl.
      apply elem_of_app. right. apply list_elem_of_here.
  - intros (d & Hd & Hit). apply record_decision_exists.
    intros Hc. pose proof (proj1 (count_decisions_O _ _) Hc) as Hc'.
    by apply (Hc' d).
  - exact Hinv'.
  - intros i j d1 d2 Hi Hj Heq.
    apply (decision_unique_lookup db' Hinv' i j d1 d2 Hi Hj Heq).
Qed.

Lemma record_decision_at_most_one_witness :
  let first := Ledger.record_decision demo_ledger demo_iteration
                 out_of_range_accepted (Some "first") None 21%positive in
  let second := Ledger.record_decision first.2 demo_iteration
                  [] (Some "second") None 22%positive in
  let stored :=
    {| Ledger.decision_id := 21%positive;
       Ledger.decision_iteration := 3%positive;
       Ledger.accepted := out_of_range_accepted;
       Ledger.notes := Some "first";
       Ledger.decision_metadata := ∅ |} in
  first.1 = Ok stored
  /\ Ledger.decisions first.2 = [stored]
  /\ second = (Err (ValueError "Decision already exists for iteration 0"),
               first.2)
  /\ Ledger.decisions second.2 = [stored]
  /\ Ledger.decision_unique second.2.
Proof.
  intros first second stored.
  assert (H0 : Ledger.decision_unique demo_ledger).
  { intros i. unfold Ledger.count_decisions. simpl. lia. }
  destruct (record_decision_at_most_one demo_ledger demo_iteration
              out_of_range_accepted (Some "first") None 21%positive H0)
    as (H1 & _ & Hu1 & _).
  destruct H1 as (Hfirst & _ & _).
  { intros d Hd. simpl in Hd. by apply elem_of_nil in Hd. }
  destruct (record_decision_at_most_one first.2 demo_iteration
              [] (Some "second") None 22%positive Hu1)
    as (_ & H2 & Hu2 & _).
  assert (Hsecond : second
            = (Err (ValueError "Decision already exists for iteration 0"),
               first.2)).
  { apply H2. exists stored. subst first. rewrite Hfirst. simpl.
    split; [apply list_elem_of_here|reflexivity]. }
  split; [by subst first; rewrite Hfirst|].
  split; [by subst first; rewrite Hfirst|].
  split; [exact Hsecond|].
  split; [by rewrite Hsecond; subst first; rewrite Hfirst|].
  exact Hu2.
Defined.

(** C3, the error raised.  The second record_decision on an iteration fails
    with Python's built-in ValueError, carrying the message "Decision
    already exists for iteration 0": the exception class that the engine's
    resume raises for a campaign that is not paused, not an error kind of
    its own.  The store, and so the first decision, is left as it was. *)
Theorem record_decision_raises_ValueError :
  let first := Ledger.record_decision demo_ledger demo_iteration
                 [] None None 21%positive in
  let second := Ledger.record_decision first.2 demo_iteration
                  [] None None 22%positive in
  is_Ok first.1 = true
  /\ second = (Err (ValueError "Decision already exists for iteration 0"),
               first.2)
  /\ (CampaignEngine.resume ∅ 7%positive demo_campaign 0).1
     = Err (ValueError "Campaign is not paused").
Proof. repeat split. Qed.

(** C8, as the code has it: record_decision does not look at the candidate
    indices.  Whenever the iteration has no decision yet it succeeds and
    stores the accepted entries exactly as given, whether or not their
    indices address candidates of the proposals they name. *)
Theorem record_decision_stores_accepted_unchecked (db : Ledger.Session)
    (it : Ledger.Iteration) (acc : list Ledger.Accepted) (notes : option string)
    (md : option (gmap string Value)) (uuid : positive) :
  Ledger.get_by_iteration db (Ledger.iteration_id it) = None ->
  exists d db',
    Ledger.record_decision db it acc notes md uuid = (Ok d, db')
    /\ Ledger.accepted d = acc
    /\ Ledger.get_by_iteration db' (Ledger.iteration_id it) = Some d.
Proof.
  intros Hnone. unfold Ledger.record_decision. rewrite Hnone.
  eexists _, _. split; [reflexivity|]. split; [done|].
  unfold Ledger.get_by_iteration in *. simpl.
  apply fmap_None in Hnone. rewrite list_find_app_r by done.
  simpl. by rewrite decide_True.
Qed.

Lemma record_decision_stores_accepted_unchecked_witness :
  exists d db',
    Ledger.record_decision demo_ledger demo_iteration out_of_range_accepted
      None None 21%positive = (Ok d, db')
    /\ Ledger.accepted d = out_of_range_accepted
    /\ Ledger.get_by_iteration db' (Ledger.iteration_id demo_iteration) = Some d.
Proof.
  apply (record_decision_stores_accepted_unchecked demo_ledger demo_iteration
           out_of_range_accepted None None 21%positive).
  reflexivity.
Defined.

(** C8 refuted as stated: an accepted entry whose index 5 is out of range of
    the one-candidate proposal it names is recorded, not rejected. *)
Lemma record_decision_accepts_out_of_range :
  forallb (Ledger.indices_in_range demo_ledger) out_of_range_accepted = false
  /\ is_Ok (Ledger.record_decision demo_ledger demo_iteration
              out_of_range_accepted None None 21%positive).1 = true
  /\ Ledger.accepted <$>
       Ledger.decisions
         (Ledger.record_decision demo_ledger demo_iteration
            out_of_range_accepted None None 21%positive).2
     = [out_of_range_accepted].
Proof. repeat split; vm_compute; reflexivity. Qed.

(** ** Jobs *)

(** C9, as the code has it: complete and fail apply to a stored job in any
    status.  complete sets status COMPLETED, the result, completed_at and
    progress = 1; fail sets status FAILED, the error and completed_at; the
    other fields of the job are kept.  On an unknown id both raise
    JobNotFoundError and leave the store unchanged. *)
Theorem complete_fail_any_status (db : gmap positive JobQueue.Job)
    (job_id : positive) (res : option (gmap string Value)) (err : string)
    (now : Z) :
  (forall job, db !! job_id = Some job ->
     (exists job',
        JobQueue.complete db job_id res now = (Ok job', <[job_id := job']> db)
        /\ JobQueue.status job' = JOB_COMPLETED
        /\ JobQueue.completed_at job' = Some now
        /\ JobQueue.progress job' = Some 1%Qc
        /\ JobQueue.result_ job' = res
        /\ JobQueue.params job' = JobQueue.params job
        /\ JobQueue.started_at job' = JobQueue.started_at job)
     /\ (exists job',
        JobQueue.fail db job_id err now = (Ok job', <[job_id := job']> db)
        /\ JobQueue.status job' = JOB_FAILED
        /\ JobQueue.completed_at job' = Some now
        /\ JobQueue.error job' = Some err
        /\ JobQueue.progress job' = JobQueue.progress job
        /\ JobQueue.params job' = JobQueue.params job
        /\ JobQueue.started_at job' = JobQueue.started_at job))
  /\ (db !! job_id = None ->
      JobQueue.complete db job_id res now = (Err (JobNotFoundError job_id), db)
      /\ JobQueue.fail db job_id err now = (Err (JobNotFoundError job_id), db)).
Proof.
  split.
  - intros job Hjob. unfold JobQueue.complete, JobQueue.fail, JobQueue.get_or_raise.
    rewrite Hjob. split; eexists; (split; [reflexivity|]); simpl; done.
  - intros Hnone. unfold JobQueue.complete, JobQueue.fail, JobQueue.get_or_raise.
    by rewrite Hnone.
Qed.

Lemma complete_fail_any_status_witness :
  exists job',
    JobQueue.complete demo_jobs 5%positive None 4
    = (Ok job', <[5%positive := job']> demo_jobs)
    /\ JobQueue.status job' = JOB_COMPLETED
    /\ JobQueue.completed_at job' = Some 4
    /\ JobQueue.progress job' = Some 1%Qc
    /\ JobQueue.result_ job' = None
    /\ JobQueue.params job' = JobQueue.params pending_job
    /\ JobQueue.started_at job' = JobQueue.started_at pending_job.
Proof.
  apply (proj1 (complete_fail_any_status demo_jobs 5%positive None "boom" 4)
           pending_job).
  reflexivity.
Defined.

(** C9 refuted as stated: complete moves a job that is still PENDING (never
    dequeued) to COMPLETED, and fail moves a CANCELLED job to FAILED. *)
Lemma complete_fail_not_only_running :
  JobQueue.status <$> demo_jobs !! 5%positive = Some JOB_PENDING
  /\ JobQueue.status <$> (JobQueue.complete demo_jobs 5%positive None 4).2 !! 5%positive
     = Some JOB_COMPLETED
  /\ JobQueue.status <$> demo_jobs !! 6%positive = Some JOB_CANCELLED
  /\ JobQueue.status <$> (JobQueue.fail demo_jobs 6%positive "boom" 4).2 !! 6%positive
     = Some JOB_FAILED.
Proof. repeat split; vm_compute; reflexivity. Qed.

(** ** Process versions *)

Lemma count_active_deactivate (db : list ProcessRepository.Process)
    (n m : string) (now : Z) :
  ProcessRepository.count_active (ProcessRepository.deactivate n now <$> db) m
  = if decide (m = n) then O else ProcessRepository.count_active db m.
Proof.
  unfold ProcessRepository.count_active.
  induction db as [|p db IH]; [by destruct (decide _)|].
  rewrite fmap_cons, !filter_cons.
  destruct (decide (ProcessRepository.name (ProcessRepository.deactivate n now p) = m
                    /\ ProcessRepository.is_active
                         (ProcessRepository.deactivate n now p) = true))
    as [[H1 H2]|H];
  destruct (decide (ProcessRepository.name p = m
                    /\ ProcessRepository.is_active p = true)) as [[H3 H4]|H'];
  simpl; rewrite IH; clear IH;
  unfold ProcessRepository.deactivate in *;
  destruct (decide (ProcessRepository.name p = n)) as [Hn|Hn];
  destruct (ProcessRepository.is_active p) eqn:Ha;
  destruct (decide (m = n)) as [Hm|Hm];
  simpl in *; try done; try congruence; try (exfalso; naive_solver).
Qed.

Lemma count_active_snoc (db : list ProcessRepository.Process)
    (p : ProcessRepository.Process) (m : string) :
  ProcessRepository.count_active (db ++ [p]) m
  = (ProcessRepository.count_active db m
     + if decide (ProcessRepository.name p = m
                  /\ ProcessRepository.is_active p = true) then 1 else 0)%nat.
Proof.
  unfold ProcessRepository.count_active. rewrite filter_app, length_app.
  f_equal. rewrite filter_cons, filter_nil. by destruct (decide _).
Qed.

(** create_version keeps active-version uniqueness: it deactivates every
    stored version of the name before it adds the new active one. *)
Lemma create_version_active_unique (db : list ProcessRepository.Process)
    (process : ProcessRepository.Process) (now : Z) :
  ProcessRepository.active_unique db ->
  ProcessRepository.active_unique
    (ProcessRepository.create_version db process now).2.
Proof.
  intros Hinv m. unfold ProcessRepository.create_version.
  destruct (ProcessRepository.max_version _) as [v|e]; simpl.
  - rewrite count_active_snoc, count_active_deactivate. simpl.
    specialize (Hinv m). destruct (decide (m = _)) as [->|Hm].
    + destruct (decide _); lia.
    + rewrite decide_False by (intros [? _]; congruence). lia.
  - rewrite count_active_deactivate. specialize (Hinv m).
    destruct (decide _); lia.
Qed.

(** C7 at the failing input: posting a specification under the name "p"
    twice through create_from_spec leaves two stored versions of "p" both
    flagged active, although the store was unique before the second post;
    create_version on the same store would have restored uniqueness. *)
Theorem create_from_spec_second_active_version :
  ProcessRepository.active_unique one_process
  /\ ProcessRepository.count_active two_processes "p" = 2%nat
  /\ ~ ProcessRepository.active_unique two_processes
  /\ ProcessRepository.active_unique
       (ProcessRepository.create_version one_process next_version 0).2.
Proof.
  assert (H1 : ProcessRepository.active_unique one_process).
  { intros n. unfold ProcessRepository.count_active, one_process. simpl.
    rewrite filter_cons, filter_nil. destruct (decide _); simpl; lia. }
  repeat split.
  - exact H1.
  - intros H. specialize (H "p"). vm_compute in H. lia.
  - by apply create_version_active_unique.
Qed.

(** ** Reference point of the optimization step *)

Lemma build_ref_point_supplied
    (torch_min torch_std : list np_float -> np_float) (spec : ProcessSpec)
    (p : nat) (Y Yt : list (list np_float)) (r : list np_float) :
  Executor.flip_signs p (objectives spec) O Y = Ok Yt ->
  Executor.build_ref_point torch_min torch_std spec p Y (Some r) = Ok r.
Proof. intros H. unfold Executor.build_ref_point. by rewrite H. Qed.

(** C2 at the failing input: with a single minimize objective, observed
    costs 1, 2, 3 and the caller's reference point [4], the training outputs
    are negated but the acquisition builder receives [4] as given; the
    sign-flip applied to Y, which the analyzer applies to the same
    caller-supplied point, yields [-4].  Without a caller's point the
    builder receives min - 0.1 * std of the negated column. *)
Theorem build_ref_point_not_flipped
    (torch_min torch_std : list np_float -> np_float) :
  Executor.flip_signs 1 (objectives minimize_spec) O minimize_Y
  = Ok [ [Fin (- Q2Qc 1)%Qc]; [Fin (- Q2Qc 2)%Qc]; [Fin (- Q2Qc 3)%Qc] ]
  /\ Executor.build_ref_point torch_min torch_std minimize_spec 1 minimize_Y
       (Some [Fin (Q2Qc 4)])
     = Ok [Fin (Q2Qc 4)]
  /\ Executor.flip_signs 1 (objectives minimize_spec) O [[Fin (Q2Qc 4)]]
     = Ok [[Fin (- Q2Qc 4)%Qc]]
  /\ Executor.analyzer_ref_point minimize_spec [Fin (Q2Qc 4)]
     = Ok [Fin (- Q2Qc 4)%Qc]
  /\ Fin (Q2Qc 4) <> Fin (- Q2Qc 4)%Qc
  /\ Executor.build_ref_point torch_min torch_std minimize_spec 1 minimize_Y
       None
     = Ok [ fsub
              (torch_min [Fin (- Q2Qc 1)%Qc; Fin (- Q2Qc 2)%Qc; Fin (- Q2Qc 3)%Qc])
              (fmul (Fin (Q2Qc (1 # 10)))
                 (torch_std
                    [Fin (- Q2Qc 1)%Qc; Fin (- Q2Qc 2)%Qc; Fin (- Q2Qc 3)%Qc])) ].
Proof.
  repeat split; try reflexivity. intros H. inversion H.
Qed.

(** ** The encoder: which keys encode reads *)

Lemma bind_Ok {A B} (c : result A) (f : A -> result B) (b : B) :
  c ≫= f = Ok b <-> exists a, c = Ok a /\ f a = Ok b.
Proof.
  destruct c as [a|e]; simpl; split.
  - intros H. by exists a.
  - by intros (a' & [= <-] & H).
  - done.
  - by intros (a' & [=] & _).
Qed.

Lemma fmap_Ok {A B} (c : result A) (f : A -> B) (b : B) :
  f <$> c = Ok b <-> exists a, c = Ok a /\ f a = b.
Proof.
  destruct c as [a|e]; simpl; split.
  - intros [= <-]. by exists a.
  - by intros (a' & [= <-] & <-).
  - done.
  - by intros (a' & [=] & _).
Qed.

Lemma df_col_Ok (df : gmap string Value) (name : string) (v : Value) :
  df_col df name = Ok v <-> df !! name = Some v.
Proof. unfold df_col. destruct (df !! name); split; congruence. Qed.

Lemma encode_info_Ok_key (py_float : string -> result np_float)
    (df : gmap string Value) (info : Info) (encoded : list np_float)
    (col_idx : nat) (r : list np_float * nat) :
  reads_own_column info ->
  encode_info py_float df info encoded col_idx = Ok r ->
  is_Some (df !! info_name info).
Proof.
  unfold encode_info, reads_own_column. intros Hread H.
  apply bind_Ok in H as (is_active & _ & H).
  apply bind_Ok in H as ([enc1 c1] & H & _).
  destruct (info_type info) as [[lo hi]|grid [lo hi]|cats].
  - apply bind_Ok in H as (v & Hv%df_col_Ok & _). by exists v.
  - apply bind_Ok in H as (v & Hv%df_col_Ok & _). by exists v.
  - destruct cats as [|cat cats]; [done|]. simpl in H.
    apply bind_Ok in H as (v & Hv%df_col_Ok & _). by exists v.
Qed.

Lemma encode_loop_Ok_keys (py_float : string -> result np_float)
    (df : gmap string Value) (infos : list Info) :
  forall (encoded : list np_float) (col_idx : nat) (r : list np_float * nat),
    Forall reads_own_column infos ->
    encode_loop py_float df infos encoded col_idx = Ok r ->
    Forall (fun info => is_Some (df !! info_name info)) infos.
Proof.
  induction infos as [|info infos IH]; intros encoded col_idx r Hread H; [done|].
  apply Forall_cons in Hread as [Hr Hread]. simpl in H.
  apply bind_Ok in H as ([enc1 c1] & H1 & H2).
  apply Forall_cons. split.
  - by eapply encode_info_Ok_key.
  - by eapply IH.
Qed.

Lemma build_info_name (inp : InputSpec) (info : Info) :
  build_info inp = Ok info ->
  info_name info = input_name inp /\ info_active_if info = input_active_if inp.
Proof.
  destruct inp as [n b a|n vs a|n cs a]; simpl.
  - by intros [= <-].
  - intros H. apply bind_Ok in H as (bd & _ & [= <-]). done.
  - by intros [= <-].
Qed.

Lemma build_info_reads (inp : InputSpec) (info : Info) :
  input_valid inp = true -> build_info inp = Ok info -> reads_own_column info.
Proof.
  unfold reads_own_column.
  destruct inp as [n b a|n vs a|n cs a]; simpl.
  - by intros _ [= <-].
  - intros _ H. apply bind_Ok in H as (bd & _ & [= <-]). done.
  - intros Hv [= <-]. simpl. apply andb_true_iff in Hv as [Hv _].
    apply bool_decide_eq_true in Hv. intros ->. simpl in Hv. lia.
Qed.

Lemma build_infos_Forall2 (inps : list InputSpec) :
  forall infos, build_infos inps = Ok infos ->
    Forall2 (fun inp info => build_info inp = Ok info) inps infos.
Proof.
  induction inps as [|inp inps IH]; intros infos H; simpl in H.
  - injection H as <-. constructor.
  - apply bind_Ok in H as (info & Hi & H).
    apply bind_Ok in H as (infos' & Hs & [= <-]).
    constructor; [done|]. by apply IH.
Qed.

Lemma pydantic_valid_inputs (spec : ProcessSpec) :
  pydantic_valid spec = true ->
  NoDup (input_names spec)
  /\ Forall (fun inp => input_valid inp = true) (inputs spec)
  /\ Forall (fun inp => references_valid spec inp = true) (inputs spec).
Proof.
  unfold pydantic_valid. rewrite !andb_true_iff.
  intros [[[[[_ Hn] _] _] Hv] Hr]. repeat split.
  - by apply bool_decide_eq_true in Hn.
  - apply Forall_forall. intros inp Hin. rewrite forallb_forall in Hv.
    apply Hv. by apply list_elem_of_In.
  - apply Forall_forall. intros inp Hin. rewrite forallb_forall in Hr.
    apply Hr. by apply list_elem_of_In.
Qed.

Lemma encoder_input_info (spec : ProcessSpec) (enc : MixedSpaceEncoder) :
  _build_encoding_info spec = Ok enc ->
  Forall2 (fun inp info => build_info inp = Ok info) (inputs spec) (input_info enc).
Proof.
  unfold _build_encoding_info. intros H.
  apply bind_Ok in H as (infos & Hb & [= <-]). simpl.
  by apply build_infos_Forall2.
Qed.

(** Where encode succeeds, the map has a key for every declared input. *)
Lemma encode_Ok_keys (py_float : string -> result np_float)
    (spec : ProcessSpec) (enc : MixedSpaceEncoder) (m : gmap string Value)
    (a : ndarray) :
  pydantic_valid spec = true ->
  _build_encoding_info spec = Ok enc ->
  encode py_float enc m = Ok a ->
  (forall name, name ∈ input_names spec -> is_Some (m !! name))
  /\ (forall info, info ∈ input_info enc -> is_Some (m !! info_name info)).
Proof.
  intros Hvalid Hbuild Henc.
  apply pydantic_valid_inputs in Hvalid as (_ & Hv & _).
  pose proof (encoder_input_info _ _ Hbuild) as HF.
  unfold encode in Henc. apply bind_Ok in Henc as ([row c] & Hloop & _).
  apply encode_loop_Ok_keys in Hloop.
  - split.
    + intros name Hin. unfold input_names in Hin.
      apply list_elem_of_fmap in Hin as (inp & -> & Hin).
      apply list_elem_of_lookup in Hin as [i Hi].
      destruct (Forall2_lookup_l _ _ _ _ _ HF Hi) as (info & Hinfo & Hb).
      apply build_info_name in Hb as [<- _].
      rewrite Forall_forall in Hloop. apply Hloop.
      apply list_elem_of_lookup. by exists i.
    + rewrite Forall_forall in Hloop. done.
  - apply Forall_forall. intros info Hin.
    apply list_elem_of_lookup in Hin as [i Hi].
    destruct (Forall2_lookup_r _ _ _ _ _ HF Hi) as (inp & Hinp & Hb).
    eapply build_info_reads; [|done].
    rewrite Forall_forall in Hv. apply Hv.
    apply list_elem_of_lookup. by exists i.
Qed.

(** C10: for a specification as its constructor accepts it (hence with at
    least one input) and a map that lacks the key of any declared input,
    active or not under that map, encode raises instead of filling in the
    neutral value; so do encode_single and the engine's add_observation,
    which then leaves the ledger untouched. *)
Theorem encode_requires_every_declared_key
    (py_float : string -> result np_float) (spec : ProcessSpec)
    (enc : MixedSpaceEncoder) (m : gmap string Value) (name : string) :
  pydantic_valid spec = true ->
  _build_encoding_info spec = Ok enc ->
  name ∈ input_names spec ->
  m !! name = None ->
  (exists e, encode py_float enc m = Err e)
  /\ (exists e, encode_single py_float enc m = Err e)
  /\ (forall db campaign y source uuid now,
        exists e,
          Engine.add_observation py_float enc db campaign m y source uuid now
          = (Err e, db)).
Proof.
  intros Hvalid Hbuild Hin Hnone.
  assert (He : exists e, encode py_float enc m = Err e).
  { destruct (encode py_float enc m) as [a|e] eqn:Henc; [|by exists e].
    destruct (encode_Ok_keys _ _ _ _ _ Hvalid Hbuild Henc) as [Hk _].
    specialize (Hk name Hin). rewrite Hnone in Hk. by destruct Hk. }
  destruct He as [e He].
  assert (Hs : encode_single py_float enc m = Err e).
  { unfold encode_single. by rewrite He. }
  repeat split; [by exists e..|].
  intros db campaign y source uuid now. exists e.
  unfold Engine.add_observation. by rewrite Hs.
Qed.

Lemma encode_requires_every_declared_key_witness :
  (exists e, encode py_float_refuse hill_encoder ∅ = Err e)
  /\ (exists e, encode_single py_float_refuse hill_encoder ∅ = Err e)
  /\ (forall db campaign y source uuid now,
        exists e,
          Engine.add_observation py_float_refuse hill_encoder db campaign ∅ y
            source uuid now
          = (Err e, db)).
Proof.
  apply (encode_requires_every_declared_key py_float_refuse hill_spec
           hill_encoder ∅ "x").
  - vm_compute. reflexivity.
  - vm_compute. reflexivity.
  - vm_compute. apply list_elem_of_here.
  - reflexivity.
Defined.

(** ** Observations *)

(** C4, as the code has it: the ledger's add_observation validates nothing
    and always persists the observation it is given.  The engine's
    add_observation encodes x_raw first: when encoding raises, the error is
    passed on and nothing is persisted; when it succeeds, x_raw has a key
    for every declared input (so in particular for every input active under
    x_raw) and the observation is persisted with the encoded vector.  The
    objective map y is stored as given in both. *)
Theorem add_observation_checks_only_by_encoding
    (py_float : string -> result np_float) (spec : ProcessSpec)
    (enc : MixedSpaceEncoder) (db : Ledger.Session) (campaign : positive)
    (x y : gmap string Value) (source : string) (uuid : positive) (now : Z) :
  pydantic_valid spec = true ->
  _build_encoding_info spec = Ok enc ->
  (forall x_encoded observed_at metadata,
     exists obs,
       Ledger.add_observation db campaign x y x_encoded source observed_at
         metadata uuid now
       = (Ok obs,
          {| Ledger.proposals := Ledger.proposals db;
             Ledger.decisions := Ledger.decisions db;
             Ledger.observations := Ledger.observations db ++ [obs] |})
       /\ Ledger.x_raw obs = x /\ Ledger.y obs = y)
  /\ (forall e, encode_single py_float enc x = Err e ->
        Engine.add_observation py_float enc db campaign x y source uuid now
        = (Err e, db))
  /\ (forall x_encoded, encode_single py_float enc x = Ok x_encoded ->
        Engine.covers_active_inputs enc x
        /\ (forall name, name ∈ input_names spec -> is_Some (x !! name))
        /\ exists obs,
             Engine.add_observation py_float enc db campaign x y source uuid now
             = (Ok obs,
                {| Ledger.proposals := Ledger.proposals db;
                   Ledger.decisions := Ledger.decisions db;
                   Ledger.observations := Ledger.observations db ++ [obs] |})
             /\ Ledger.x_raw obs = x /\ Ledger.y obs = y
             /\ Ledger.x_encoded obs = Some x_encoded).
Proof.
  intros Hvalid Hbuild. split; [|split].
  - intros x_encoded observed_at metadata. eexists. split; [reflexivity|done].
  - intros e He. unfold Engine.add_observation. by rewrite He.
  - intros x_encoded He.
    assert (Hk : (forall name, name ∈ input_names spec -> is_Some (x !! name))
                 /\ (forall info, info ∈ input_info enc ->
                       is_Some (x !! info_name info))).
    { unfold encode_single in He. apply fmap_Ok in He as (a & Ha & _).
      by eapply encode_Ok_keys. }
    destruct Hk as [Hk1 Hk2]. split; [|split; [done|]].
    + intros info Hin. specialize (Hk2 info Hin).
      by destruct (info_active_if info).
    + unfold Engine.add_observation. rewrite He.
      eexists. split; [reflexivity|done].
Qed.

Lemma add_observation_checks_only_by_encoding_witness :
  Engine.add_observation py_float_refuse hill_encoder empty_ledger 7%positive
    ∅ ∅ "user" 31%positive 0
  = (Err (KeyError "x"), empty_ledger).
Proof.
  refine (proj1 (proj2 (add_observation_checks_only_by_encoding py_float_refuse
           hill_spec hill_encoder empty_ledger 7%positive ∅ ∅ "user"
           31%positive 0 _ _)) (KeyError "x") _).
  - vm_compute. reflexivity.
  - vm_compute. reflexivity.
  - vm_compute. reflexivity.
Defined.

(** C4 refuted as stated: the ledger persists an observation whose x_raw
    lacks the key of the (unconditional, hence active) input x, and the
    engine persists an observation whose y lacks the objective y. *)
Lemma add_observation_persists_uncovered :
  ~ Engine.covers_active_inputs hill_encoder ∅
  /\ Ledger.x_raw <$>
       Ledger.observations
         (Ledger.add_observation empty_ledger 7%positive ∅ ∅ None "user"
            None None 31%positive 0).2
     = [∅]
  /\ ~ Engine.covers_objectives hill_spec ∅
  /\ is_Ok (Engine.add_observation py_float_refuse hill_encoder empty_ledger
              7%positive {[ "x" := VNum (Fin (Q2Qc 5)) ]} ∅ "user"
              31%positive 0).1 = true
  /\ Ledger.y <$>
       Ledger.observations
         (Engine.add_observation py_float_refuse hill_encoder empty_ledger
            7%positive {[ "x" := VNum (Fin (Q2Qc 5)) ]} ∅ "user"
            31%positive 0).2
     = [∅].
Proof.
  repeat split.
  - intros H. specialize (H _ (list_elem_of_here _ _)). simpl in H.
    by destruct H.
  - intros H. specialize (H "y" (list_elem_of_here _ _)). by destruct H.
Qed.

(** ** numpy helpers *)

Lemma argmax_val_lookup (l : list np_float) (i : nat) (y : np_float) :
  argmax_val l = Some (i, y) -> l !! i = Some y.
Proof.
  revert i y. induction l as [|x l IH]; intros i y H; [done|].
  simpl in H. destruct (argmax_val l) as [[j z]|].
  - destruct (isnan x || negb (isnan z) && fle z x).
    + by injection H as <- <-.
    + injection H as <- <-. simpl. by apply IH.
  - by injection H as <- <-.
Qed.

Lemma argmin_val_lookup (l : list np_float) (i : nat) (y : np_float) :
  argmin_val l = Some (i, y) -> l !! i = Some y.
Proof.
  revert i y. induction l as [|x l IH]; intros i y H; [done|].
  simpl in H. destruct (argmin_val l) as [[j z]|].
  - destruct (isnan x || negb (isnan z) && fle x z).
    + by injection H as <- <-.
    + injection H as <- <-. simpl. by apply IH.
  - by injection H as <- <-.
Qed.

Lemma argmax_val_is_Some (l : list np_float) :
  l <> [] -> is_Some (argmax_val l).
Proof.
  destruct l as [|x l]; [done|]. intros _. simpl.
  destruct (argmax_val l) as [[j z]|]; [|done].
  by destruct (isnan x || negb (isnan z) && fle z x).
Qed.

Lemma argmin_val_is_Some (l : list np_float) :
  l <> [] -> is_Some (argmin_val l).
Proof.
  destruct l as [|x l]; [done|]. intros _. simpl.
  destruct (argmin_val l) as [[j z]|]; [|done].
  by destruct (isnan x || negb (isnan z) && fle x z).
Qed.

Lemma argmax_row_lt (l : list np_float) :
  l <> [] -> (argmax_row l < length l)%nat.
Proof.
  intros Hl. unfold argmax_row.
  destruct (argmax_val_is_Some l Hl) as [[i y] Hi]. rewrite Hi.
  apply argmax_val_lookup in Hi. by eapply lookup_lt_Some.
Qed.

Lemma argmax_val_zeros (n : nat) :
  argmax_val (replicate (S n) (Fin 0%Qc)) = Some (O, Fin 0%Qc).
Proof.
  induction n as [|n IH]; [done|].
  change (replicate (S (S n)) (Fin 0%Qc))
    with (Fin 0%Qc :: replicate (S n) (Fin 0%Qc)).
  cbn [argmax_val]. by rewrite IH.
Qed.

(** The argmax of a one-hot vector is its hot index. *)
Lemma argmax_val_one_hot (n k : nat) :
  (k < n)%nat ->
  argmax_val (<[k := Fin 1%Qc]> (replicate n (Fin 0%Qc))) = Some (k, Fin 1%Qc).
Proof.
  revert k. induction n as [|n IH]; intros k Hk; [lia|].
  destruct k as [|k].
  - simpl. destruct n as [|n]; [done|].
    by rewrite argmax_val_zeros.
  - simpl. by rewrite IH by lia.
Qed.

(** On finite cells [np.argmin] finds a least cell. *)
Lemma argmin_val_least (l : list np_float) (i : nat) (y : np_float) :
  Forall is_fin l ->
  argmin_val l = Some (i, y) ->
  is_fin y /\ forall z, z ∈ l -> fle y z = true.
Proof.
  revert i y. induction l as [|x l IH]; intros i y Hfin H; [done|].
  apply Forall_cons in Hfin as [Hx Hfin]. simpl in H.
  destruct x as [| |qx|]; try done.
  destruct (argmin_val l) as [[j z]|] eqn:Hl.
  - destruct (IH j z Hfin eq_refl) as [Hz Hleast].
    destruct z as [| |qz|]; try done. simpl in H.
    destruct (bool_decide (qx <= qz)%Qc) eqn:Hle.
    + injection H as <- <-. split; [done|]. intros w Hw.
      apply elem_of_cons in Hw as [->|Hw].
      * simpl. apply bool_decide_eq_true_2, Qcle_refl.
      * specialize (Hleast w Hw). destruct w as [| |qw|]; try done.
        simpl in *. apply bool_decide_eq_true in Hle, Hleast.
        apply bool_decide_eq_true_2. by eapply Qcle_trans.
    + injection H as <- <-. split; [done|]. intros w Hw.
      apply elem_of_cons in Hw as [->|Hw]; [|by apply Hleast].
      simpl. apply bool_decide_eq_false in Hle.
      apply bool_decide_eq_true_2, Qclt_le_weak. by apply Qcnot_le_lt.
  - injection H as <- <-. split; [done|]. intros w Hw.
    destruct l as [|x' l'].
    + apply elem_of_cons in Hw as [->|Hw]; [|by apply elem_of_nil in Hw].
      simpl. apply bool_decide_eq_true_2, Qcle_refl.
    + by destruct (argmin_val_is_Some (x' :: l')) as [? ?]; [|congruence].
Qed.

Lemma argmin_val_nan_head (l : list np_float) :
  argmin_val (NaN :: l) = Some (O, NaN).
Proof. simpl. by destruct (argmin_val l) as [[j z]|]. Qed.

Lemma Qcabs_le_0 (a : Qc) :
  ((if decide (a < 0)%Qc then - a else a) <= 0)%Qc -> a = 0%Qc.
Proof.
  destruct (decide (a < 0)%Qc) as [Hneg|Hpos]; intros H.
  - exfalso. apply (Qcplus_le_mono_r _ _ a) in H.
    replace (- a + a)%Qc with 0%Qc in H by ring. rewrite Qcplus_0_l in H.
    by eapply Qcle_not_lt.
  - apply Qcle_antisym; [done|]. by apply Qcnot_lt_le.
Qed.

Lemma Qcminus_eq_0 (a b : Qc) : (a + - b)%Qc = 0%Qc -> a = b.
Proof.
  intros H. replace a with ((a + - b) + b)%Qc by ring. rewrite H. ring.
Qed.

Lemma fabs_fsub_self (g : Qc) : fabs (fsub (Fin g) (Fin g)) = Fin 0%Qc.
Proof.
  unfold fsub. simpl. replace (g + - g)%Qc with 0%Qc by ring. done.
Qed.

(** Snapping lands on a grid value. *)
Lemma snap_value_grid (grid : list Qc) (v : np_float) :
  grid <> [] -> exists g, snap_value grid v = Fin g /\ g ∈ grid.
Proof.
  intros Hgrid. unfold snap_value.
  destruct (argmin_val_is_Some ((fun g => fabs (fsub (Fin g) v)) <$> grid))
    as [[idx y] Hmin].
  { by destruct grid. }
  rewrite Hmin. apply argmin_val_lookup in Hmin.
  rewrite list_lookup_fmap in Hmin.
  destruct (grid !! idx) as [g|] eqn:Hg; [|done].
  exists g. split; [done|]. by eapply list_elem_of_lookup_2.
Qed.

(** Snapping a grid value yields that value. *)
Lemma snap_value_fixed (grid : list Qc) (g : Qc) :
  g ∈ grid -> snap_value grid (Fin g) = Fin g.
Proof.
  intros Hin. unfold snap_value.
  set (l := (fun g' => fabs (fsub (Fin g') (Fin g))) <$> grid).
  assert (Hfin : Forall is_fin l).
  { apply Forall_fmap, Forall_forall. by intros g' _. }
  destruct (argmin_val_is_Some l) as [[idx y] Hmin].
  { destruct grid; [by apply elem_of_nil in Hin|done]. }
  rewrite Hmin.
  destruct (argmin_val_least l idx y Hfin Hmin) as [_ Hleast].
  apply argmin_val_lookup in Hmin. unfold l in Hmin.
  rewrite list_lookup_fmap in Hmin.
  destruct (grid !! idx) as [gi|] eqn:Hgi; [|done].
  injection Hmin as <-.
  specialize (Hleast (fabs (fsub (Fin g) (Fin g)))).
  rewrite fabs_fsub_self in Hleast.
  assert (Hle : fle (fabs (fsub (Fin gi) (Fin g))) (Fin 0%Qc) = true).
  { apply Hleast. unfold l. apply list_elem_of_fmap. exists g.
    by rewrite fabs_fsub_self. }
  unfold fsub in Hle. simpl in Hle. apply bool_decide_eq_true in Hle.
  apply Qcabs_le_0, Qcminus_eq_0 in Hle. by subst.
Qed.


Lemma py_min_spec (l : list Qc) (lo : Qc) :
  py_min l = Ok lo -> forall g, g ∈ l -> (lo <= g)%Qc.
Proof.
  destruct l as [|x l]; [done|]. simpl. intros [= <-].
  assert (H : forall m, (foldl (fun m y => if decide (y < m)%Qc then y else m) m l <= m)%Qc
                /\ forall g, g ∈ l ->
                     (foldl (fun m y => if decide (y < m)%Qc then y else m) m l <= g)%Qc).
  { induction l as [|y l IH]; intros m; simpl.
    - split; [apply Qcle_refl|]. intros g Hg. by apply elem_of_nil in Hg.
    - destruct (IH (if decide (y < m)%Qc then y else m)) as [IH1 IH2].
      assert (Hm : ((if decide (y < m)%Qc then y else m) <= m)%Qc
                   /\ ((if decide (y < m)%Qc then y else m) <= y)%Qc).
      { destruct (decide (y < m)%Qc) as [Hlt|Hge].
        - split; [by apply Qclt_le_weak|apply Qcle_refl].
        - split; [apply Qcle_refl|by apply Qcnot_lt_le]. }
      destruct Hm as [Hm1 Hm2]. split; [by eapply Qcle_trans|].
      intros g Hg. apply elem_of_cons in Hg as [->|Hg]; [|by apply IH2].
      by eapply Qcle_trans. }
  intros g Hg. destruct (H x) as [H1 H2].
  apply elem_of_cons in Hg as [->|Hg]; [done|by apply H2].
Qed.

Lemma py_max_spec (l : list Qc) (hi : Qc) :
  py_max l = Ok hi -> forall g, g ∈ l -> (g <= hi)%Qc.
Proof.
  destruct l as [|x l]; [done|]. simpl. intros [= <-].
  assert (H : forall m, (m <= foldl (fun m y => if decide (m < y)%Qc then y else m) m l)%Qc
                /\ forall g, g ∈ l ->
                     (g <= foldl (fun m y => if decide (m < y)%Qc then y else m) m l)%Qc).
  { induction l as [|y l IH]; intros m; simpl.
    - split; [apply Qcle_refl|]. intros g Hg. by apply elem_of_nil in Hg.
    - destruct (IH (if decide (m < y)%Qc then y else m)) as [IH1 IH2].
      assert (Hm : (m <= (if decide (m < y)%Qc then y else m))%Qc
                   /\ (y <= (if decide (m < y)%Qc then y else m))%Qc).
      { destruct (decide (m < y)%Qc) as [Hlt|Hge].
        - split; [by apply Qclt_le_weak|apply Qcle_refl].
        - split; [apply Qcle_refl|by apply Qcnot_lt_le]. }
      destruct Hm as [Hm1 Hm2]. split; [by eapply Qcle_trans|].
      intros g Hg. apply elem_of_cons in Hg as [->|Hg]; [|by apply IH2].
      by eapply Qcle_trans. }
  intros g Hg. destruct (H x) as [H1 H2].
  apply elem_of_cons in Hg as [->|Hg]; [done|by apply H2].
Qed.

Lemma discrete_bounds_spec (grid : list Qc) (lo hi : Qc) :
  discrete_bounds grid = Ok (lo, hi) ->
  grid <> [] /\ forall g, g ∈ grid -> (lo <= g)%Qc /\ (g <= hi)%Qc.
Proof.
  unfold discrete_bounds. intros H.
  apply bind_Ok in H as (lo' & Hlo & H). apply bind_Ok in H as (hi' & Hhi & H).
  injection H as -> ->. split.
  - by destruct grid.
  - intros g Hg. split; [by eapply py_min_spec|by eapply py_max_spec].
Qed.

Lemma denormalize_renormalize (g lo hi : Qc) :
  lo <> hi ->
  denormalize (renormalize (Fin g) lo hi) lo hi = Fin g.
Proof.
  intros Hne. unfold denormalize, renormalize, fsub. simpl.
  assert (Hd : (hi - lo)%Qc <> 0%Qc).
  { intros H. apply Hne. symmetry. by apply Qcminus_eq_0. }
  rewrite decide_False by done. simpl. f_equal. by field.
Qed.

(** One pass over a discrete column is idempotent. *)
Lemma discrete_snap_idempotent (grid : list Qc) (lo hi : Qc) (x : np_float) :
  discrete_bounds grid = Ok (lo, hi) ->
  let r := renormalize (snap_value grid (denormalize x lo hi)) lo hi in
  renormalize (snap_value grid (denormalize r lo hi)) lo hi = r.
Proof.
  intros Hb r. destruct (discrete_bounds_spec _ _ _ Hb) as [Hne Hrange].
  destruct (snap_value_grid grid (denormalize x lo hi) Hne) as (g & Hg & Hin).
  unfold r. rewrite Hg. destruct (decide (lo = hi)) as [<-|Hlh].
  - destruct (snap_value_grid grid (denormalize (renormalize (Fin g) lo lo) lo lo) Hne)
      as (g' & Hg' & Hin').
    rewrite Hg'. f_equal. f_equal.
    destruct (Hrange g Hin), (Hrange g' Hin').
    transitivity lo; [|symmetry]; by apply Qcle_antisym.
  - rewrite denormalize_renormalize by done. by rewrite snap_value_fixed.
Qed.

(** ** snap_to_grid, row by row *)

Lemma content_width_le (info : Info) : (content_width info <= info_width info)%nat.
Proof. unfold info_width. lia. Qed.

Lemma content_width_pos (info : Info) :
  info_wf info -> (0 < content_width info)%nat.
Proof.
  unfold info_wf, content_width. destruct (info_type info) as [?|??|cats]; try lia.
  intros H. destruct cats; [done|simpl; lia].
Qed.

Lemma harden_app_l (pre suf : list np_float) (n : nat) :
  harden (pre ++ suf) (length pre) n = pre ++ harden suf O n.
Proof.
  unfold harden. rewrite take_app_length, drop_app_length.
  rewrite drop_app_ge by lia.
  replace (length pre + n - length pre)%nat with n by lia.
  by rewrite take_0, drop_0.
Qed.

Lemma harden_app_r (chunk post : list np_float) (n : nat) :
  (n <= length chunk)%nat ->
  harden (chunk ++ post) O n = harden chunk O n ++ post.
Proof.
  intros Hn. unfold harden. rewrite !take_0, !drop_0. simpl.
  rewrite take_app_le by done. rewrite drop_app_le by done.
  by rewrite <- !app_assoc.
Qed.

Lemma harden_length (chunk : list np_float) (n : nat) :
  (n <= length chunk)%nat -> length (harden chunk O n) = length chunk.
Proof.
  intros Hn. unfold harden. rewrite take_0. simpl.
  rewrite length_app, length_insert, length_replicate, length_drop. lia.
Qed.

Lemma harden_idempotent (chunk : list np_float) (n : nat) :
  (0 < n <= length chunk)%nat ->
  harden (harden chunk O n) O n = harden chunk O n.
Proof.
  intros Hn. unfold harden at 2. rewrite take_0, drop_0. simpl.
  set (k := argmax_row (take n chunk)).
  assert (Hk : (k < n)%nat).
  { unfold k. pose proof (argmax_row_lt (take n chunk)) as H.
    rewrite length_take in H.
    assert (take n chunk <> []).
    { intros Hnil. apply (f_equal length) in Hnil.
      rewrite length_take in Hnil. simpl in Hnil. lia. }
    specialize (H H0). lia. }
  unfold harden. rewrite take_0, drop_0. simpl.
  assert (Hlen : length (<[k := Fin 1%Qc]> (replicate n (Fin 0%Qc))) = n).
  { by rewrite length_insert, length_replicate. }
  rewrite take_app_length' by done. rewrite drop_app_length' by done.
  unfold argmax_row at 1. by rewrite argmax_val_one_hot.
Qed.

Lemma snap_row_info_app_l (info : Info) (pre suf : list np_float) :
  (0 < length suf)%nat ->
  snap_row_info info (length pre) (pre ++ suf) = pre ++ snap_row_info info O suf.
Proof.
  intros Hsuf. unfold snap_row_info.
  destruct (info_type info) as [[lo hi]|grid [lo hi]|cats]; [done| |].
  - rewrite insert_app_r_alt by lia. rewrite Nat.sub_diag.
    rewrite lookup_total_app_r by lia. by rewrite Nat.sub_diag.
  - apply harden_app_l.
Qed.

Lemma snap_row_info_app_r (info : Info) (chunk post : list np_float) :
  (0 < content_width info <= length chunk)%nat ->
  snap_row_info info O (chunk ++ post) = snap_row_info info O chunk ++ post.
Proof.
  intros Hc. unfold snap_row_info, content_width in *.
  destruct (info_type info) as [[lo hi]|grid [lo hi]|cats]; [done| |].
  - destruct chunk as [|x chunk]; [simpl in Hc; lia|done].
  - apply harden_app_r. lia.
Qed.

Lemma snap_row_info_length (info : Info) (chunk : list np_float) :
  (content_width info <= length chunk)%nat ->
  length (snap_row_info info O chunk) = length chunk.
Proof.
  intros Hc. unfold snap_row_info, content_width in *.
  destruct (info_type info) as [[lo hi]|grid [lo hi]|cats]; [done| |].
  - by rewrite length_insert.
  - by apply harden_length.
Qed.

Lemma snap_row_info_idempotent (info : Info) (chunk : list np_float) :
  info_wf info ->
  (content_width info <= length chunk)%nat ->
  snap_row_info info O (snap_row_info info O chunk) = snap_row_info info O chunk.
Proof.
  intros Hwf Hc. pose proof (content_width_pos info Hwf) as Hpos.
  unfold snap_row_info, content_width, info_wf in *.
  destruct (info_type info) as [[lo hi]|grid [lo hi]|cats]; [done| |].
  - destruct chunk as [|x chunk]; [simpl in Hc; lia|]. simpl. f_equal.
    by apply discrete_snap_idempotent.
  - apply harden_idempotent. lia.
Qed.

Lemma snap_row_cons (info : Info) (infos : list Info) (chunk rest : list np_float) :
  (forall pre suf, length suf = widths infos ->
     snap_row infos (length pre) (pre ++ suf) = pre ++ snap_row infos O suf) ->
  info_wf info ->
  length chunk = info_width info ->
  length rest = widths infos ->
  snap_row (info :: infos) O (chunk ++ rest)
  = snap_row_info info O chunk ++ snap_row infos O rest.
Proof.
  intros IH Hwf Hchunk Hrest. cbn [snap_row]. rewrite Nat.add_0_l.
  pose proof (content_width_pos info Hwf). pose proof (content_width_le info).
  rewrite snap_row_info_app_r by lia.
  rewrite <- (IH (snap_row_info info O chunk) rest Hrest).
  rewrite snap_row_info_length by lia. by rewrite Hchunk.
Qed.

Lemma snap_row_app (infos : list Info) :
  Forall info_wf infos ->
  forall pre suf, length suf = widths infos ->
    snap_row infos (length pre) (pre ++ suf) = pre ++ snap_row infos O suf.
Proof.
  induction infos as [|info infos IH]; intros Hwf pre suf Hsuf; [done|].
  apply Forall_cons in Hwf as [Hwf Hwfs]. specialize (IH Hwfs).
  simpl in Hsuf.
  pose proof (content_width_pos info Hwf). pose proof (content_width_le info).
  rewrite <- (take_drop (info_width info) suf).
  assert (Hchunk : length (take (info_width info) suf) = info_width info).
  { rewrite length_take. lia. }
  assert (Hrest : length (drop (info_width info) suf) = widths infos).
  { rewrite length_drop. lia. }
  rewrite snap_row_cons by done.
  cbn [snap_row]. rewrite snap_row_info_app_l by (rewrite length_app; lia).
  rewrite snap_row_info_app_r by lia.
  rewrite app_assoc.
  replace (length pre + info_width info)%nat
    with (length (pre ++ snap_row_info info O (take (info_width info) suf))).
  - rewrite IH by done. by rewrite <- app_assoc.
  - rewrite length_app, snap_row_info_length by lia. lia.
Qed.

Lemma snap_row_length (infos : list Info) :
  Forall info_wf infos ->
  forall suf, length suf = widths infos ->
    length (snap_row infos O suf) = length suf.
Proof.
  induction infos as [|info infos IH]; intros Hwf suf Hsuf; [done|].
  pose proof (snap_row_app infos) as Happ.
  apply Forall_cons in Hwf as [Hwf Hwfs]. simpl in Hsuf.
  pose proof (content_width_pos info Hwf). pose proof (content_width_le info).
  rewrite <- (take_drop (info_width info) suf).
  assert (Hchunk : length (take (info_width info) suf) = info_width info).
  { rewrite length_take. lia. }
  assert (Hrest : length (drop (info_width info) suf) = widths infos).
  { rewrite length_drop. lia. }
  rewrite snap_row_cons by auto.
  rewrite !length_app, snap_row_info_length by lia. by rewrite IH.
Qed.

(** One pass of the loop over a row is idempotent. *)
Lemma snap_row_idempotent (infos : list Info) :
  Forall info_wf infos ->
  forall suf, length suf = widths infos ->
    snap_row infos O (snap_row infos O suf) = snap_row infos O suf.
Proof.
  induction infos as [|info infos IH]; intros Hwf suf Hsuf; [done|].
  pose proof (snap_row_app infos) as Happ.
  pose proof (snap_row_length infos) as Hlen.
  apply Forall_cons in Hwf as [Hwf Hwfs]. simpl in Hsuf.
  pose proof (content_width_pos info Hwf). pose proof (content_width_le info).
  rewrite <- (take_drop (info_width info) suf).
  assert (Hchunk : length (take (info_width info) suf) = info_width info).
  { rewrite length_take. lia. }
  assert (Hrest : length (drop (info_width info) suf) = widths infos).
  { rewrite length_drop. lia. }
  rewrite snap_row_cons by auto.
  rewrite snap_row_cons; auto.
  - rewrite snap_row_info_idempotent by (done || lia). by rewrite IH.
  - rewrite snap_row_info_length by lia. done.
  - rewrite Hlen by done. done.
Qed.

(** ** The encoder built from a valid specification *)

Lemma build_info_wf (inp : InputSpec) (info : Info) :
  input_valid inp = true -> build_info inp = Ok info -> info_wf info.
Proof.
  unfold info_wf. destruct inp as [n [lo hi] a|n vs a|n cs a]; simpl.
  - intros Hv [= <-]. simpl. by apply bool_decide_eq_true in Hv.
  - intros _ H. apply bind_Ok in H as (bd & Hb & [= <-]). done.
  - intros Hv [= <-]. simpl. apply andb_true_iff in Hv as [Hv _].
    apply bool_decide_eq_true in Hv. intros ->. simpl in Hv. lia.
Qed.

Lemma build_info_columns (inp : InputSpec) (info : Info) :
  build_info inp = Ok info ->
  length (encoded_cols info) = content_width info
  /\ activity_col info
     = if is_conditional info then Some (info_name info +:+ "__active") else None.
Proof.
  unfold content_width, is_conditional, input_is_conditional.
  destruct inp as [n b a|n vs a|n cs a]; simpl.
  - intros [= <-]. simpl. by destruct a.
  - intros H. apply bind_Ok in H as (bd & Hb & [= <-]). simpl. by destruct a.
  - intros [= <-]. simpl. rewrite length_fmap. by destruct a.
Qed.

Lemma encoder_wf (spec : ProcessSpec) (enc : MixedSpaceEncoder) :
  pydantic_valid spec = true ->
  _build_encoding_info spec = Ok enc ->
  Forall info_wf (input_info enc)
  /\ n_encoded enc = widths (input_info enc)
  /\ NoDup (info_name <$> input_info enc).
Proof.
  intros Hvalid Hbuild.
  pose proof (encoder_input_info _ _ Hbuild) as HF.
  apply pydantic_valid_inputs in Hvalid as (Hnd & Hv & _).
  unfold _build_encoding_info in Hbuild.
  apply bind_Ok in Hbuild as (infos & _ & [= <-]). simpl in *.
  unfold input_names in Hnd.
  revert Hnd Hv. induction HF as [|inp info inps infos Hb HF IH]; intros Hnd Hv.
  - repeat split; [constructor|constructor].
  - apply Forall_cons in Hv as [Hv Hvs]. rewrite fmap_cons in Hnd.
    apply NoDup_cons in Hnd as [Hnotin Hnd].
    destruct (IH Hnd Hvs) as (IH1 & IH2 & IH3).
    destruct (build_info_columns _ _ Hb) as [Hc1 Hc2].
    destruct (build_info_name _ _ Hb) as [Hname _].
    split; [|split].
    + constructor; [by eapply build_info_wf|done].
    + unfold fmap, omap in IH2 |- *. simpl.
      rewrite length_app, Hc1, Hc2. unfold info_width.
      destruct (is_conditional info); simpl; lia.
    + rewrite fmap_cons. apply NoDup_cons. split; [|done].
      rewrite Hname. intros Hin. apply Hnotin.
      apply list_elem_of_fmap in Hin as (info' & Hn' & Hin').
      apply list_elem_of_lookup in Hin' as [i Hi].
      destruct (Forall2_lookup_r _ _ _ _ _ HF Hi) as (inp' & Hinp' & Hb').
      apply build_info_name in Hb' as [Hname' _].
      apply list_elem_of_fmap. exists inp'. split; [congruence|].
      by eapply list_elem_of_lookup_2.
Qed.

(** ** snap_to_grid on a matrix *)

Lemma snap_info_rows (d : nat) (info : Info) (rows : list (list np_float))
    (col_idx : nat) :
  info_wf info ->
  (col_idx + info_width info <= d)%nat ->
  snap_info d info rows col_idx
  = Ok (snap_row_info info col_idx <$> rows, (col_idx + info_width info)%nat).
Proof.
  intros Hwf Hd. pose proof (content_width_pos info Hwf) as Hpos.
  unfold snap_info, snap_row_info, info_width, content_width, info_wf in *.
  destruct (info_type info) as [[lo hi]|grid [lo hi]|cats].
  - simpl. rewrite list_fmap_id.
    destruct (is_conditional info); simpl; do 2 f_equal; lia.
  - rewrite decide_True by lia. simpl.
    destruct (is_conditional info); simpl; do 2 f_equal; lia.
  - assert (Hw : slice_width d col_idx (length cats) = length cats).
    { unfold slice_width. lia. }
    rewrite Hw. rewrite decide_False by lia. simpl.
    destruct (is_conditional info); simpl; do 2 f_equal; lia.
Qed.

Lemma snap_loop_rows (d : nat) (infos : list Info) :
  Forall info_wf infos ->
  forall (rows : list (list np_float)) (col_idx : nat),
    (col_idx + widths infos <= d)%nat ->
    snap_loop d infos rows col_idx
    = Ok (snap_row infos col_idx <$> rows, (col_idx + widths infos)%nat).
Proof.
  induction infos as [|info infos IH]; intros Hwf rows col_idx Hd.
  - simpl. rewrite list_fmap_id. do 2 f_equal. lia.
  - apply Forall_cons in Hwf as [Hwf Hwfs]. simpl in Hd. cbn [snap_loop].
    rewrite snap_info_rows by (done || lia). simpl.
    rewrite IH by (done || lia). rewrite <- list_fmap_compose.
    do 2 f_equal. lia.
Qed.

Lemma snap_to_grid_matrix (spec : ProcessSpec) (enc : MixedSpaceEncoder)
    (rows : list (list np_float)) :
  pydantic_valid spec = true ->
  _build_encoding_info spec = Ok enc ->
  snap_to_grid enc (Arr2 (n_encoded enc) rows)
  = Ok (if decide (length rows = 1%nat)
        then squeeze (Arr2 (n_encoded enc) (snap_row (input_info enc) O <$> rows))
        else Arr2 (n_encoded enc) (snap_row (input_info enc) O <$> rows)).
Proof.
  intros Hvalid Hbuild.
  destruct (encoder_wf _ _ Hvalid Hbuild) as (Hwf & Hn & _).
  unfold snap_to_grid. rewrite snap_loop_rows by (done || lia). simpl.
  rewrite length_fmap. by destruct (decide (length rows = 1%nat)).
Qed.

(** Away from the 1 x 1 shape, snapping a snapped matrix changes nothing. *)
Lemma snap_to_grid_idempotent (spec : ProcessSpec) (enc : MixedSpaceEncoder)
    (rows : list (list np_float)) :
  pydantic_valid spec = true ->
  _build_encoding_info spec = Ok enc ->
  Forall (fun r => length r = n_encoded enc) rows ->
  ~ (length rows = 1%nat /\ n_encoded enc = 1%nat) ->
  exists y,
    snap_to_grid enc (Arr2 (n_encoded enc) rows) = Ok y
    /\ snap_to_grid enc y = Ok y.
Proof.
  intros Hvalid Hbuild Hrows Hshape.
  destruct (encoder_wf _ _ Hvalid Hbuild) as (Hwf & Hn & _).
  rewrite (snap_to_grid_matrix spec) by done.
  set (rows' := snap_row (input_info enc) O <$> rows).
  assert (Hlen' : Forall (fun r => length r = n_encoded enc) rows').
  { apply Forall_fmap. eapply Forall_impl; [exact Hrows|].
    intros r Hr. simpl in *. rewrite snap_row_length by (done || lia). done. }
  assert (Hidem : snap_row (input_info enc) O <$> rows' = rows').
  { unfold rows'. rewrite <- list_fmap_compose. apply list_fmap_ext.
    intros i r Hr. simpl. apply snap_row_idempotent; [done|].
    rewrite Forall_forall in Hrows. rewrite <- Hn. apply Hrows.
    by eapply list_elem_of_lookup_2. }
  destruct (decide (length rows = 1%nat)) as [Hone|Hmany].
  - assert (Hd : n_encoded enc <> 1%nat) by tauto.
    destruct rows as [|r [|r2 rows]]; try done.
    assert (Hr' : length (snap_row (input_info enc) O r) = n_encoded enc).
    { by apply Forall_cons in Hlen' as [? _]. }
    assert (Hsq : squeeze (Arr2 (n_encoded enc) rows')
                  = Arr1 (snap_row (input_info enc) O r)).
    { unfold rows'. simpl. rewrite decide_False by done. by rewrite app_nil_r. }
    rewrite Hsq. eexists. split; [reflexivity|].
    unfold snap_to_grid, reshape_row. rewrite Hr'.
    rewrite snap_loop_rows by (done || lia). simpl.
    rewrite snap_row_idempotent by (done || (apply Forall_cons in Hrows; lia)).
    rewrite decide_False by done. by rewrite app_nil_r.
  - eexists. split; [reflexivity|].
    rewrite (snap_to_grid_matrix spec) by done.
    rewrite Hidem. unfold rows'. rewrite length_fmap.
    by rewrite decide_False.
Qed.

(** A 0-d array cannot be snapped. *)
Lemma snap_to_grid_scalar (enc : MixedSpaceEncoder) (x : np_float) :
  snap_to_grid enc (Arr0 x) = Err (IndexError "array is 0-dimensional").
Proof. reflexivity. Qed.

(** With a single encoded column, a one-row matrix is snapped to a 0-d
    array, which cannot be snapped again. *)
Lemma snap_to_grid_one_by_one (spec : ProcessSpec) (enc : MixedSpaceEncoder)
    (x : np_float) :
  pydantic_valid spec = true ->
  _build_encoding_info spec = Ok enc ->
  n_encoded enc = 1%nat ->
  exists x',
    snap_to_grid enc (Arr2 1 [[x]]) = Ok (Arr0 x')
    /\ snap_to_grid enc (Arr0 x')
       = Err (IndexError "array is 0-dimensional").
Proof.
  intros Hvalid Hbuild Hone.
  destruct (encoder_wf _ _ Hvalid Hbuild) as (Hwf & Hn & _).
  pose proof (snap_to_grid_matrix spec enc [[x]] Hvalid Hbuild) as H.
  rewrite Hone in H. rewrite H. simpl.
  pose proof (snap_row_length (input_info enc) Hwf [x]) as Hlen.
  destruct (snap_row (input_info enc) O [x]) as [|x' [|x'' r]].
  - simpl in Hlen. lia.
  - exists x'. done.
  - simpl in Hlen. lia.
Qed.

(** C5 at the failing input: for the specification with the single
    continuous input x (one encoded column) and the 1 x 1 matrix [[0.3]],
    snap_to_grid returns a 0-d array, because squeeze() drops both axes,
    and snap_to_grid of that result raises IndexError instead of returning
    it again. *)
Theorem snap_to_grid_twice_raises_on_one_by_one :
  pydantic_valid hill_spec = true
  /\ _build_encoding_info hill_spec = Ok hill_encoder
  /\ wf_ndarray (Arr2 1 [[Fin (Q2Qc (3 # 10))]])
  /\ snap_to_grid hill_encoder (Arr2 1 [[Fin (Q2Qc (3 # 10))]])
     = Ok (Arr0 (Fin (Q2Qc (3 # 10))))
  /\ snap_to_grid hill_encoder (Arr2 1 [[Fin (Q2Qc (3 # 10))]])
       ≫= snap_to_grid hill_encoder
     = Err (IndexError "array is 0-dimensional").
Proof.
  repeat split; try (vm_compute; reflexivity).
  repeat constructor.
Qed.

(** ** encode, entry by entry *)











(** ** decode, entry by entry *)



Lemma decode_row_other (infos : list Info) (name : string) :
  name ∉ info_name <$> infos ->
  forall col_idx row (dct : gmap string Value),
    decode_row infos col_idx row dct !! name = dct !! name.
Proof.
  induction infos as [|info infos IH]; intros Hnot col_idx row dct; [done|].
  rewrite fmap_cons in Hnot. apply not_elem_of_cons in Hnot as [Hne Hnot].
  simpl. rewrite IH by done. by rewrite lookup_insert_ne.
Qed.

(** With distinct names, the dict built for a row holds, under the name of
    each entry, the value decoded from that entry's columns. *)
Lemma decode_row_lookup (infos : list Info) :
  NoDup (info_name <$> infos) ->
  forall col_idx row (dct : gmap string Value) k info,
    infos !! k = Some info ->
    decode_row infos col_idx row dct !! info_name info
    = Some (decode_value info
              (drop (col_idx + widths (take k infos)) row)).
Proof.
  induction infos as [|info0 infos IH]; intros Hnd col_idx row dct k info Hk;
    [done|].
  rewrite fmap_cons in Hnd. apply NoDup_cons in Hnd as [Hnot Hnd].
  destruct k as [|k]; simpl in Hk.
  - injection Hk as ->. simpl. rewrite decode_row_other by done.
    rewrite lookup_insert_eq. by rewrite Nat.add_0_r.
  - simpl. rewrite (IH Hnd _ _ _ k info Hk). do 3 f_equal. lia.
Qed.


(** ** The round trip of one entry *)








(** ** Round trip of a valid map *)













(** The arithmetic of [encode] and [decode] on a continuous cell rounds.
    With the bounds [0, 10], the double 0.9 is normalized and denormalized
    to 0.8999999999999999, another double: an active continuous input is
    in general reproduced only up to rounding. *)
Lemma continuous_cell_round_trip_rounds :
  Binary64.denormalize
    (Binary64.normalize 0x1.ccccccccccccdp-1%float 0%float 10%float)
    0%float 10%float
  = 0x1.cccccccccccccp-1%float
  /\ PrimFloat.eqb 0x1.cccccccccccccp-1%float 0x1.ccccccccccccdp-1%float
     = false.
Proof. split; reflexivity. Qed.

(** ** Campaign write locks *)

Lemma acquire_write_lock_free (db : CampaignLocks.Session) (id : UUID)
    (a : string) (timeout : Z) (now : datetime) :
  db !! id = None ->
  CampaignLocks.acquire_write_lock db id a timeout now =
    (inr true,
     <[id := CampaignLocks.Build_CampaignLock a now (now + timeout)]> db).
Proof. intros H. unfold CampaignLocks.acquire_write_lock. by rewrite H. Qed.

(** X1.  Mutual exclusion of the write lock.  Once [a] has acquired the lock
    of a campaign with a timeout, the lock row names [a] and expires at
    [now + timeout].  Before that time [is_locked] answers true and an
    attempt by any other holder raises [CampaignLockedError] naming [a] and
    the expiry, and leaves the table as it is.  From that time on
    [is_locked] answers false and the other holder's attempt succeeds and
    overwrites the row. *)
Theorem acquire_write_lock_exclusion (db db1 : CampaignLocks.Session)
    (id : UUID) (a b : string) (timeout timeout' : Z) (now t : datetime) :
  CampaignLocks.acquire_write_lock db id a timeout now = (inr true, db1) ->
  a <> b ->
  let held := CampaignLocks.Build_CampaignLock a now (now + timeout) in
  db1 !! id = Some held /\
  (t < now + timeout ->
     CampaignLocks.is_locked db1 id t = (true, Some held) /\
     CampaignLocks.acquire_write_lock db1 id b timeout' t =
       (inl (CampaignLocks.Build_CampaignLockedError id a (now + timeout)),
        db1)) /\
  (now + timeout <= t ->
     CampaignLocks.is_locked db1 id t = (false, None) /\
     CampaignLocks.acquire_write_lock db1 id b timeout' t =
       (inr true,
        <[id := CampaignLocks.Build_CampaignLock b t (t + timeout')]> db1)).
Proof.
  intros Hacq Hab held.
  assert (Hdb1 : db1 = <[id := held]> db).
  { unfold CampaignLocks.acquire_write_lock in Hacq.
    destruct (db !! id) as [existing|]; [|by inversion Hacq].
    destruct (_ && _); by inversion Hacq. }
  assert (Hlook : db1 !! id = Some held) by (subst db1; apply lookup_insert_eq).
  split; [done|].
  unfold CampaignLocks.is_locked, CampaignLocks.acquire_write_lock.
  rewrite Hlook. simpl.
  split; intros Ht.
  - rewrite bool_decide_eq_true_2 by lia.
    by rewrite (bool_decide_eq_true_2 (a <> b)) by done.
  - by rewrite bool_decide_eq_false_2 by lia.
Qed.

Lemma acquire_write_lock_exclusion_witness :
  let held := CampaignLocks.Build_CampaignLock "alice" 100 130 in
  let db1 : CampaignLocks.Session := <[7%positive := held]> ∅ in
  db1 !! 7%positive = Some held /\
  (110 < 100 + 30 ->
     CampaignLocks.is_locked db1 7%positive 110 = (true, Some held) /\
     CampaignLocks.acquire_write_lock db1 7%positive "bob" 60 110 =
       (inl (CampaignLocks.Build_CampaignLockedError 7%positive "alice" 130),
        db1)) /\
  (100 + 30 <= 110 ->
     CampaignLocks.is_locked db1 7%positive 110 = (false, None) /\
     CampaignLocks.acquire_write_lock db1 7%positive "bob" 60 110 =
       (inr true,
        <[7%positive := CampaignLocks.Build_CampaignLock "bob" 110 (110 + 60)]>
          db1)).
Proof.
  apply (acquire_write_lock_exclusion ∅ _ 7%positive "alice" "bob" 30 60 100 110).
  - reflexivity.
  - discriminate.
Defined.

(** X2.  Acquire and release undo each other.  On a campaign that has no
    lock row, acquiring and then releasing, either with no holder given or
    with the holder that acquired, returns true and restores the table;
    releasing without a row returns false and changes nothing. *)
Theorem acquire_release_round_trip (db : CampaignLocks.Session) (id : UUID)
    (a : string) (timeout : Z) (now : datetime) (holder : option string) :
  db !! id = None ->
  holder = None \/ holder = Some a ->
  CampaignLocks.release_write_lock
    (CampaignLocks.acquire_write_lock db id a timeout now).2 id holder
    = (true, db) /\
  CampaignLocks.release_write_lock db id holder = (false, db).
Proof.
  intros Hfree Hh. rewrite acquire_write_lock_free by done. simpl.
  unfold CampaignLocks.release_write_lock. rewrite lookup_insert_eq, Hfree.
  simpl. split; [|done].
  assert (Hdel : delete id
            (<[id := CampaignLocks.Build_CampaignLock a now (now + timeout)]> db)
          = db).
  { rewrite delete_insert_eq. by apply delete_id. }
  destruct Hh as [->| ->]; simpl.
  - by rewrite Hdel.
  - rewrite (bool_decide_eq_false_2 (Some a <> Some a))
      by (intros H; by apply H).
    by rewrite andb_false_r, Hdel.
Qed.

Lemma acquire_release_round_trip_witness :
  CampaignLocks.release_write_lock
    (CampaignLocks.acquire_write_lock ∅ 7%positive "alice" 30 100).2
    7%positive (Some "alice")
    = (true, ∅) /\
  CampaignLocks.release_write_lock ∅ 7%positive (Some "alice") = (false, ∅).
Proof.
  apply (acquire_release_round_trip ∅ 7%positive "alice" 30 100 (Some "alice")).
  - reflexivity.
  - right. reflexivity.
Defined.

(** X3.  Who may release.  When a campaign's lock is held by someone other
    than [b], a release in the name of [b] is refused (false, table
    unchanged) provided [b] is not the empty string; a release in the name
    of the empty string, like one with no holder, deletes the row whoever
    holds it. *)
Theorem release_write_lock_holder_check (db : CampaignLocks.Session)
    (id : UUID) (lock : CampaignLocks.CampaignLock) (b : string) :
  db !! id = Some lock ->
  b <> CampaignLocks.locked_by lock ->
  (b <> "" -> CampaignLocks.release_write_lock db id (Some b) = (false, db)) /\
  CampaignLocks.release_write_lock db id (Some "") = (true, delete id db) /\
  CampaignLocks.release_write_lock db id None = (true, delete id db).
Proof.
  intros Hlock Hb. unfold CampaignLocks.release_write_lock. rewrite Hlock.
  split; [|done].
  intros Hne. simpl. rewrite bool_decide_eq_true_2 by done.
  rewrite bool_decide_eq_true_2; [done|]. intros [= H]. by apply Hb.
Qed.

Lemma release_write_lock_holder_check_witness :
  let db : CampaignLocks.Session :=
    <[7%positive := CampaignLocks.Build_CampaignLock "alice" 100 130]> ∅ in
  ("bob" <> "" ->
   CampaignLocks.release_write_lock db 7%positive (Some "bob") = (false, db)) /\
  CampaignLocks.release_write_lock db 7%positive (Some "")
    = (true, delete 7%positive db) /\
  CampaignLocks.release_write_lock db 7%positive None
    = (true, delete 7%positive db).
Proof.
  apply (release_write_lock_holder_check _ 7%positive
           (CampaignLocks.Build_CampaignLock "alice" 100 130) "bob").
  - reflexivity.
  - discriminate.
Defined.

Lemma cleanup_foldr_delete (l : list (positive * CampaignLocks.CampaignLock)) (db : CampaignLocks.Session) (i : positive) :
  foldr (fun kv db' => delete kv.1 db') db l !! i =
    if bool_decide (i ∈ l.*1) then None else db !! i.
Proof.
  induction l as [|[k v] l IH]; simpl; [done|].
  destruct (decide (i = k)) as [->|Hne].
  - rewrite lookup_delete_eq. rewrite bool_decide_eq_true_2; [done|]. apply list_elem_of_here.
  - rewrite lookup_delete_ne by done. rewrite IH.
    destruct (decide (i ∈ l.*1)).
    + rewrite !bool_decide_eq_true_2; [done| by apply list_elem_of_further | done].
    + rewrite !bool_decide_eq_false_2; [done| | done].
      intros Hin. apply elem_of_cons in Hin as [?|?]; done.
Qed.

Lemma cleanup_expired_locks_store (db : CampaignLocks.Session) (now : datetime) :
  (CampaignLocks.cleanup_expired_locks db now).2 =
    filter (fun kv : positive * CampaignLocks.CampaignLock => now < CampaignLocks.expires_at kv.2) db.
Proof.
  apply map_eq. intros i. unfold CampaignLocks.cleanup_expired_locks. simpl.
  rewrite cleanup_foldr_delete. rewrite map_lookup_filter.
  destruct (db !! i) as [lock|] eqn:Hi; simpl.
  - destruct (decide (CampaignLocks.expires_at lock <= now)) as [Hexp|Hexp].
    + rewrite bool_decide_eq_true_2.
      * rewrite option_guard_False; [done|simpl; lia].
      * apply list_elem_of_fmap. exists (i, lock). split; [done|].
        apply list_elem_of_filter. split; [done|]. by apply elem_of_map_to_list.
    + rewrite bool_decide_eq_false_2.
      * rewrite option_guard_True; [done|simpl; lia].
      * intros Hin. apply list_elem_of_fmap in Hin as [[k v] [-> Hin]].
        apply list_elem_of_filter in Hin as [Hle Hin]. simpl in *.
        apply elem_of_map_to_list in Hin. rewrite Hi in Hin. inversion Hin; subst. lia.
  - by destruct (bool_decide _).
Qed.

Lemma cleanup_expired_locks_keeps_answers (db : CampaignLocks.Session) (now t : datetime) (id : UUID) :
  now <= t ->
  CampaignLocks.is_locked (CampaignLocks.cleanup_expired_locks db now).2 id t = CampaignLocks.is_locked db id t.
Proof.
  intros Ht. rewrite cleanup_expired_locks_store. unfold CampaignLocks.is_locked.
  rewrite map_lookup_filter. destruct (db !! id) as [lock|]; simpl; [|done].
  destruct (decide (now < CampaignLocks.expires_at lock)).
  - by rewrite option_guard_True.
  - rewrite option_guard_False by done. simpl.
    rewrite bool_decide_eq_false_2; [done|lia].
Qed.

Lemma size_map_filter `{Countable K} {A} (P : K * A -> Prop)
    `{!forall x, Decision (P x)} (m : gmap K A) :
  size (filter P m) = length (filter P (map_to_list m)).
Proof.
  rewrite map_filter_alt. apply map_size_list_to_map.
  apply (sublist_NoDup _ (map_to_list m).*1); [apply NoDup_fst_map_to_list|].
  apply fmap_sublist, sublist_filter.
Qed.

(** X4.  What [cleanup_expired_locks] removes.  It deletes exactly the
    rows whose expiry is not after [now] and returns their number; every
    row it keeps is a lock in force at [now], and for no campaign and no
    time from [now] on does it change the answer of [is_locked]. *)
Theorem cleanup_expired_locks_spec (db : CampaignLocks.Session) (now : datetime) :
  let '(n, db') := CampaignLocks.cleanup_expired_locks db now in
  db' = filter (fun kv : positive * CampaignLocks.CampaignLock => now < CampaignLocks.expires_at kv.2) db /\
  (n + size db' = size db)%nat /\
  (forall id lock, db' !! id = Some lock -> CampaignLocks.is_locked db' id now = (true, Some lock)) /\
  (forall id t, now <= t -> CampaignLocks.is_locked db' id t = CampaignLocks.is_locked db id t).
Proof.
  pose proof (cleanup_expired_locks_store db now) as Hst.
  pose proof (cleanup_expired_locks_keeps_answers db now) as Hans.
  destruct (CampaignLocks.cleanup_expired_locks db now) as [n db'] eqn:Hc. simpl in Hst, Hans.
  split; [done|]. split; [|split].
  - assert (Hn : n = length (filter (fun kv : positive * CampaignLocks.CampaignLock =>
                        CampaignLocks.expires_at kv.2 <= now) (map_to_list db)))
      by (by inversion Hc).
    rewrite Hn, <- size_map_filter, Hst.
    rewrite <- (map_filter_union_complement
      (fun kv : positive * CampaignLocks.CampaignLock => CampaignLocks.expires_at kv.2 <= now) db) at 3.
    rewrite map_size_disj_union by apply map_disjoint_filter_complement.
    f_equal. f_equal. apply map_filter_ext. intros i x _. simpl. lia.
  - intros id lock Hl. unfold CampaignLocks.is_locked. rewrite Hl.
    rewrite Hst in Hl. apply map_lookup_filter_Some in Hl as [_ Hlt]. simpl in Hlt.
    by rewrite bool_decide_eq_true_2.
  - intros id t Ht. by apply Hans.
Qed.

(** ** Job queue: dequeue, cancel, progress and clean-up *)

Lemma first_by_created_at_None (created_at : UUID -> datetime)
    (rows : list (UUID * JobQueue.Job)) :
  JobLifecycle.first_by_created_at created_at rows = None <-> rows = [].
Proof.
  destruct rows as [|r rows]; simpl; [done|].
  split; [|done].
  destruct (JobLifecycle.first_by_created_at created_at rows); [|done].
  by destruct (bool_decide _).
Qed.

Lemma first_by_created_at_Some (created_at : UUID -> datetime)
    (rows : list (UUID * JobQueue.Job)) (r : UUID * JobQueue.Job) :
  JobLifecycle.first_by_created_at created_at rows = Some r ->
  r ∈ rows /\ forall r', r' ∈ rows -> created_at r.1 <= created_at r'.1.
Proof.
  revert r. induction rows as [|x rows IH]; intros r; simpl; [done|].
  destruct (JobLifecycle.first_by_created_at created_at rows) as [b|] eqn:Hb.
  - destruct (IH b eq_refl) as [Hin Hmin].
    destruct (decide (created_at x.1 <= created_at b.1)) as [Hle|Hle].
    + rewrite bool_decide_eq_true_2 by done. intros [= <-].
      split; [apply list_elem_of_here|].
      intros r' Hr'. apply elem_of_cons in Hr' as [->|Hr']; [lia|].
      specialize (Hmin r' Hr'). lia.
    + rewrite bool_decide_eq_false_2 by done. intros [= <-].
      split; [by apply list_elem_of_further|].
      intros r' Hr'. apply elem_of_cons in Hr' as [->|Hr']; [lia|].
      by apply Hmin.
  - intros [= <-]. apply first_by_created_at_None in Hb as ->.
    split; [apply list_elem_of_here|].
    intros r' Hr'. apply elem_of_cons in Hr' as [->|Hr']; [lia|].
    by apply elem_of_nil in Hr'.
Qed.

(** X5.  [dequeue] is first in, first out over the pending jobs.  When it
    returns a job, that job was pending, no pending job was created
    earlier, and the only change to the table is that this job is now
    running with [started_at] set; it returns [None], changing nothing,
    exactly when no job is pending. *)
Theorem dequeue_oldest_pending (created_at : UUID -> datetime)
    (db : JobQueue.Session) (now : datetime) :
  match JobLifecycle.dequeue created_at db now with
  | (Some (job_id, job'), db') =>
      exists job,
        db !! job_id = Some job /\
        JobQueue.status job = JOB_PENDING /\
        (forall other job2,
           db !! other = Some job2 -> JobQueue.status job2 = JOB_PENDING ->
           created_at job_id <= created_at other) /\
        db' = <[job_id := job']> db /\
        JobQueue.status job' = JOB_RUNNING /\
        JobQueue.started_at job' = Some now /\
        JobQueue.params job' = JobQueue.params job /\
        JobQueue.job_type job' = JobQueue.job_type job /\
        JobQueue.campaign_id job' = JobQueue.campaign_id job
  | (None, db') =>
      db' = db /\
      forall other job2,
        db !! other = Some job2 -> JobQueue.status job2 <> JOB_PENDING
  end.
Proof.
  unfold JobLifecycle.dequeue.
  destruct (JobLifecycle.first_by_created_at _ _) as [[job_id job]|] eqn:Hf.
  - apply first_by_created_at_Some in Hf as [Hin Hmin].
    apply list_elem_of_filter in Hin as [Hst Hin]. simpl in Hst.
    apply elem_of_map_to_list in Hin.
    exists job. repeat split; try done.
    intros other job2 Ho Hp.
    apply (Hmin (other, job2)).
    apply list_elem_of_filter. split; [done|]. by apply elem_of_map_to_list.
  - split; [done|].
    apply first_by_created_at_None in Hf.
    intros other job2 Ho Hp.
    assert (Hin : (other, job2) ∈ filter
              (fun r : UUID * JobQueue.Job => JobQueue.status r.2 = JOB_PENDING)
              (map_to_list db)).
    { apply list_elem_of_filter. split; [done|]. by apply elem_of_map_to_list. }
    rewrite Hf in Hin. by apply elem_of_nil in Hin.
Qed.

(** X6.  A job that [dequeue] has handed out is out of reach of [cancel]
    and of a second [dequeue]: cancelling it raises
    [JobAlreadyRunningError] and leaves the table alone, and the next
    [dequeue], whenever it is made, returns another job or none. *)
Theorem dequeue_then_cancel_refused (created_at : UUID -> datetime)
    (db db' : JobQueue.Session) (now t : datetime) (job_id : UUID)
    (job' : JobQueue.Job) :
  JobLifecycle.dequeue created_at db now = (Some (job_id, job'), db') ->
  JobLifecycle.cancel db' job_id t = (Err (JobAlreadyRunningError job_id), db')
  /\ forall again,
       (JobLifecycle.dequeue created_at db' t).1 = Some again ->
       again.1 <> job_id.
Proof.
  intros Hd.
  pose proof (dequeue_oldest_pending created_at db now) as Hspec.
  rewrite Hd in Hspec. destruct Hspec as (job & _ & _ & _ & -> & Hrun & _).
  assert (Hlook : (<[job_id := job']> db : JobQueue.Session) !! job_id = Some job')
    by apply lookup_insert_eq.
  split.
  - unfold JobLifecycle.cancel, JobQueue.get_or_raise. rewrite Hlook.
    by rewrite Hrun.
  - intros [id2 j2] Hagain.
    pose proof (dequeue_oldest_pending created_at (<[job_id := job']> db) t) as H2.
    destruct (JobLifecycle.dequeue created_at (<[job_id:=job']> db) t)
      as [[[id3 j3]|] db3]; [|done].
    simpl in Hagain. inversion Hagain; subst id3 j3.
    destruct H2 as (j & Hj & Hp & _). simpl. intros ->.
    rewrite Hlook in Hj. inversion Hj; subst j. by rewrite Hrun in Hp.
Qed.

Lemma dequeue_then_cancel_refused_witness :
  exists db',
  JobLifecycle.cancel db' 5%positive 10 = (Err (JobAlreadyRunningError 5%positive), db')
  /\ forall again,
       (JobLifecycle.dequeue (fun _ => 0) db' 10).1 = Some again ->
       again.1 <> 5%positive.
Proof.
  eexists.
  eapply (dequeue_then_cancel_refused (fun _ => 0) demo_jobs _ 9 10 5%positive).
  vm_compute. reflexivity.
Defined.

(** X7.  [cancel] settles a job for good.  Whenever it returns a job, a
    second [cancel] returns the same job and changes nothing, and no later
    [dequeue] hands that job out. *)
Theorem cancel_is_final (created_at : UUID -> datetime)
    (db db' : JobQueue.Session) (job_id : UUID) (now t : datetime)
    (job' : JobQueue.Job) :
  JobLifecycle.cancel db job_id now = (Ok job', db') ->
  JobQueue.status job' <> JOB_PENDING /\
  JobQueue.status job' <> JOB_RUNNING /\
  JobLifecycle.cancel db' job_id t = (Ok job', db') /\
  forall again,
    (JobLifecycle.dequeue created_at db' t).1 = Some again ->
    again.1 <> job_id.
Proof.
  intros Hc.
  assert (Hlook : db' !! job_id = Some job' /\
                  JobQueue.status job' <> JOB_PENDING /\
                  JobQueue.status job' <> JOB_RUNNING).
  { unfold JobLifecycle.cancel, JobQueue.get_or_raise in Hc.
    destruct (db !! job_id) as [job|] eqn:Hj; [|by inversion Hc].
    destruct (JobQueue.status job) eqn:Hs; inversion Hc; subst;
      try (rewrite Hs; done).
    rewrite lookup_insert_eq. done. }
  destruct Hlook as (Hlook & Hnp & Hnr).
  split; [done|]. split; [done|]. split.
  - unfold JobLifecycle.cancel, JobQueue.get_or_raise. rewrite Hlook.
    by destruct (JobQueue.status job').
  - intros [id2 j2] Hagain. simpl. intros ->.
    pose proof (dequeue_oldest_pending created_at db' t) as H2.
    destruct (JobLifecycle.dequeue created_at db' t) as [[[id3 j3]|] db3];
      [|done].
    simpl in Hagain. inversion Hagain; subst id3 j3.
    destruct H2 as (j & Hj & Hp & _).
    rewrite Hlook in Hj. inversion Hj; subst j. done.
Qed.

Lemma cancel_is_final_witness :
  exists job' db',
  JobQueue.status job' <> JOB_PENDING /\
  JobQueue.status job' <> JOB_RUNNING /\
  JobLifecycle.cancel db' 5%positive 10 = (Ok job', db') /\
  forall again,
    (JobLifecycle.dequeue (fun _ => 0) db' 10).1 = Some again ->
    again.1 <> 5%positive.
Proof.
  eexists. eexists.
  eapply (cancel_is_final (fun _ => 0) demo_jobs _ 5%positive 9 10).
  vm_compute. reflexivity.
Defined.




Lemma count_rows_insert (P : JobQueue.Job -> bool) (db : JobQueue.Session)
    (job_id : UUID) (job job' : JobQueue.Job) :
  db !! job_id = Some job ->
  (length (filter (fun r : UUID * JobQueue.Job => P r.2)
                  (map_to_list (<[job_id := job']> db)))
   + (if P job then 1 else 0)
   = length (filter (fun r : UUID * JobQueue.Job => P r.2) (map_to_list db))
     + (if P job' then 1 else 0))%nat.
Proof.
  intros Hj.
  rewrite <- (insert_delete_eq db job_id job').
  rewrite (Permutation_length (filter_Permutation _ _ _
             (map_to_list_insert (delete job_id db) job_id job'
                (lookup_delete_eq db job_id)))).
  rewrite <- (Permutation_length (filter_Permutation _ _ _
             (map_to_list_delete db job_id job Hj))).
  rewrite !filter_cons. simpl.
  destruct (P job), (P job'); simpl; lia.
Qed.

(** X9.  [dequeue] moves exactly one job from pending to running: counted
    over all campaigns, or over the campaign of the job handed out,
    [pending_count] drops by one and [running_count] rises by one. *)
Theorem dequeue_moves_one_job (created_at : UUID -> datetime)
    (db db' : JobQueue.Session) (now : datetime) (job_id : UUID)
    (job' : JobQueue.Job) (c : option UUID) :
  JobLifecycle.dequeue created_at db now = (Some (job_id, job'), db') ->
  c = None \/ c = JobQueue.campaign_id job' ->
  JobLifecycle.pending_count db c = S (JobLifecycle.pending_count db' c) /\
  JobLifecycle.running_count db' c = S (JobLifecycle.running_count db c).
Proof.
  intros Hd Hc.
  pose proof (dequeue_oldest_pending created_at db now) as Hspec.
  rewrite Hd in Hspec.
  destruct Hspec as (job & Hj & Hp & _ & -> & Hrun & _ & _ & _ & Hcamp).
  assert (Hcf : forall j : JobQueue.Job,
             JobQueue.campaign_id j = JobQueue.campaign_id job' ->
             match c with
             | Some c0 => bool_decide (JobQueue.campaign_id j = Some c0)
             | None => true
             end = true).
  { intros j Hjc. destruct Hc as [->| ->]; [done|].
    destruct (JobQueue.campaign_id job') eqn:E; [|done].
    by rewrite bool_decide_eq_true_2. }
  assert (Ha : JobLifecycle.counted JOB_PENDING c job = true).
  { unfold JobLifecycle.counted. rewrite Hp, (Hcf job (eq_sym Hcamp)). done. }
  assert (Hb : JobLifecycle.counted JOB_PENDING c job' = false).
  { unfold JobLifecycle.counted. by rewrite Hrun. }
  assert (Hc' : JobLifecycle.counted JOB_RUNNING c job = false).
  { unfold JobLifecycle.counted. by rewrite Hp. }
  assert (Hd' : JobLifecycle.counted JOB_RUNNING c job' = true).
  { unfold JobLifecycle.counted. rewrite Hrun, (Hcf job' eq_refl). done. }
  unfold JobLifecycle.pending_count, JobLifecycle.running_count.
  pose proof (count_rows_insert (JobLifecycle.counted JOB_PENDING c)
                db job_id job job' Hj) as H1.
  pose proof (count_rows_insert (JobLifecycle.counted JOB_RUNNING c)
                db job_id job job' Hj) as H2.
  rewrite Ha, Hb in H1. rewrite Hc', Hd' in H2. lia.
Qed.

Lemma dequeue_moves_one_job_witness :
  exists db',
  JobLifecycle.pending_count demo_jobs None
    = S (JobLifecycle.pending_count db' None) /\
  JobLifecycle.running_count db' None
    = S (JobLifecycle.running_count demo_jobs None).
Proof.
  eexists.
  eapply (dequeue_moves_one_job (fun _ => 0) demo_jobs _ 9 5%positive _ None).
  - vm_compute. reflexivity.
  - left. reflexivity.
Defined.





(** X11.  A job put on a queue with no pending job is the next one handed
    out.  After [enqueue] with a fresh key, [dequeue] returns that key with
    the job type, parameters and campaign given to [enqueue], now running
    and started at the time of the [dequeue]. *)
Theorem enqueue_then_dequeue (created_at : UUID -> datetime)
    (db : JobQueue.Session) (job_type : JobQueue.JobType)
    (params : gmap string Value) (campaign_id : option UUID) (uuid : UUID)
    (now t : datetime) :
  db !! uuid = None ->
  (forall other job2,
     db !! other = Some job2 -> JobQueue.status job2 <> JOB_PENDING) ->
  let '(_, db1, created_at1) :=
    JobLifecycle.enqueue created_at db job_type params campaign_id uuid now in
  created_at1 uuid = now /\
  exists job',
    JobLifecycle.dequeue created_at1 db1 t
      = (Some (uuid, job'), <[uuid := job']> db) /\
    JobQueue.status job' = JOB_RUNNING /\
    JobQueue.started_at job' = Some t /\
    JobQueue.job_type job' = job_type /\
    JobQueue.params job' = params /\
    JobQueue.campaign_id job' = campaign_id.
Proof.
  intros Hfresh Hnone. unfold JobLifecycle.enqueue.
  set (job := JobQueue.Build_Job campaign_id job_type JOB_PENDING params
                None None None None None None).
  set (created_at1 := fun k => if decide (k = uuid) then now else created_at k).
  split; [unfold created_at1; by rewrite decide_True|].
  pose proof (dequeue_oldest_pending created_at1 (<[uuid := job]> db) t) as Hd.
  destruct (JobLifecycle.dequeue created_at1 (<[uuid := job]> db) t)
    as [[[id j']|] db2].
  - destruct Hd as (j & Hj & Hp & _ & -> & Hrun & Hst & Hpar & Hty & Hcamp).
    destruct (decide (id = uuid)) as [->|Hne].
    + rewrite lookup_insert_eq in Hj. inversion Hj; subst j.
      exists j'. rewrite insert_insert_eq. by repeat split.
    + rewrite lookup_insert_ne in Hj by done. by destruct (Hnone id j Hj).
  - destruct Hd as [_ Hd]. exfalso.
    apply (Hd uuid job); [apply lookup_insert_eq|done].
Qed.

Lemma enqueue_then_dequeue_witness :
  let '(_, db1, created_at1) :=
    JobLifecycle.enqueue (fun _ => 0) ({[ 6%positive := cancelled_job ]})
      JobQueue.PROPOSE ∅ None 8%positive 4 in
  created_at1 8%positive = 4 /\
  exists job',
    JobLifecycle.dequeue created_at1 db1 9
      = (Some (8%positive, job'),
         <[8%positive := job']> ({[ 6%positive := cancelled_job ]})) /\
    JobQueue.status job' = JOB_RUNNING /\
    JobQueue.started_at job' = Some 9 /\
    JobQueue.job_type job' = JobQueue.PROPOSE /\
    JobQueue.params job' = ∅ /\
    JobQueue.campaign_id job' = None.
Proof.
  apply (enqueue_then_dequeue (fun _ => 0) ({[ 6%positive := cancelled_job ]})
           JobQueue.PROPOSE ∅ None 8%positive 4 9).
  - reflexivity.
  - intros other job2 Hl.
    destruct (decide (other = 6%positive)) as [->|Hne].
    + rewrite lookup_singleton_eq in Hl. by inversion Hl.
    + by rewrite lookup_singleton_ne in Hl.
Defined.

(** ** Iterations *)

Lemma get_latest_None (db : Iterations.Session) (c : UUID) :
  Iterations.get_latest db c = None <-> Iterations.indices db c = [].
Proof.
  unfold Iterations.get_latest, Iterations.indices.
  destruct (filter _ _) as [|r l]; simpl; [done|].
  split; [|done].
  destruct (foldr _ _ l); [|done]. by destruct (bool_decide _).
Qed.

Lemma get_latest_Some (db : Iterations.Session) (c : UUID)
    (r : Iterations.IterationRow) :
  Iterations.get_latest db c = Some r ->
  Iterations.index_of r ∈ Iterations.indices db c /\
  forall i, i ∈ Iterations.indices db c -> i <= Iterations.index_of r.
Proof.
  unfold Iterations.get_latest, Iterations.indices.
  generalize (filter (Iterations.of_campaign c) (Iterations.iterations db)).
  intros l. revert r. induction l as [|x l IH]; intros r; simpl; [done|].
  destruct (foldr _ _ l) as [b|] eqn:Hb.
  - destruct (IH b eq_refl) as [Hin Hmax].
    destruct (decide (Iterations.index_of b <= Iterations.index_of x)) as [Hle|Hle].
    + rewrite bool_decide_eq_true_2 by done. intros [= <-].
      split; [apply list_elem_of_here|].
      intros i Hi. apply elem_of_cons in Hi as [->|Hi]; [lia|].
      specialize (Hmax i Hi). lia.
    + rewrite bool_decide_eq_false_2 by done. intros [= <-].
      split; [by apply list_elem_of_further|].
      intros i Hi. apply elem_of_cons in Hi as [->|Hi]; [lia|].
      by apply Hmax.
  - intros [= <-]. split; [apply list_elem_of_here|].
    assert (l = []) as ->.
    { destruct l as [|y l]; [done|]. simpl in Hb.
      destruct (foldr _ _ l); [|done]. by destruct (bool_decide _). }
    intros i Hi. apply elem_of_cons in Hi as [->|Hi]; [lia|].
    by apply elem_of_nil in Hi.
Qed.

Lemma next_index_contiguous (db : Iterations.Session) (c : UUID) (n : nat) :
  Iterations.indices db c ≡ₚ seqZ 0 (Z.of_nat n) ->
  Iterations.next_index db c = Z.of_nat n.
Proof.
  intros Hperm. unfold Iterations.next_index.
  destruct (Iterations.get_latest db c) as [r|] eqn:Hl.
  - apply get_latest_Some in Hl as [Hin Hmax].
    rewrite Hperm in Hin. apply elem_of_seqZ in Hin.
    destruct n as [|n]; [lia|].
    assert (Hlast : Z.of_nat n ∈ Iterations.indices db c).
    { rewrite Hperm. apply elem_of_seqZ. lia. }
    specialize (Hmax _ Hlast). lia.
  - apply get_latest_None in Hl. rewrite Hl in Hperm.
    apply Permutation_length in Hperm. rewrite length_seqZ in Hperm.
    simpl in Hperm. lia.
Qed.

Lemma indices_snoc (db : Iterations.Session)
    (campaigns' : gmap positive CampaignRepository.Campaign)
    (row : Iterations.IterationRow) (c' : UUID) :
  Iterations.indices
    (Iterations.Build_Session campaigns' (Iterations.iterations db ++ [row])) c'
  = Iterations.indices db c'
    ++ (if decide (Iterations.of_campaign c' row)
        then [Iterations.index_of row] else []).
Proof.
  unfold Iterations.indices. simpl. rewrite filter_app, fmap_app.
  rewrite filter_cons, filter_nil. by destruct (decide _).
Qed.

Lemma latest_snoc (l : list Iterations.IterationRow)
    (x : Iterations.IterationRow) :
  (forall r, r ∈ l -> Iterations.index_of r < Iterations.index_of x) ->
  foldr (fun r best =>
           match best with
           | Some b => if bool_decide (Iterations.index_of b <= Iterations.index_of r)
                       then Some r else Some b
           | None => Some r
           end) None (l ++ [x]) = Some x.
Proof.
  induction l as [|y l IH]; intros Hlt; simpl; [done|].
  rewrite IH by (intros r Hr; apply Hlt; by apply list_elem_of_further).
  rewrite bool_decide_eq_false_2; [done|].
  specialize (Hlt y ltac:(apply list_elem_of_here)). lia.
Qed.

Lemma start_iteration_attached (db : Iterations.Session) (c : UUID)
    (campaign : CampaignRepository.Campaign) (dh : option string)
    (md : option (gmap string Value)) (uuid : UUID) (now : datetime) :
  Iterations.attached db c campaign ->
  exists campaign' campaigns',
    let row :=
      Iterations.Build_IterationRow
        (Ledger.Build_Iteration uuid c (Iterations.next_index db c))
        dh (default ∅ md) in
    Iterations.start_iteration db c campaign dh md uuid now
      = (Ok row, campaign',
         Iterations.Build_Session campaigns' (Iterations.iterations db ++ [row]))
    /\ campaigns' !! c = Some campaign'
    /\ (forall other, other <> c ->
          campaigns' !! other = Iterations.campaigns db !! other)
    /\ CampaignRepository.status campaign'
       = (if decide (CampaignRepository.status campaign = CREATED)
          then ACTIVE else CampaignRepository.status campaign)
    /\ (CampaignRepository.status campaign <> CREATED ->
        campaign' = campaign /\ campaigns' = Iterations.campaigns db).
Proof.
  intros Hatt. unfold Iterations.attached in Hatt.
  unfold Iterations.start_iteration, Iterations.next_index,
    Iterations.get_current_iteration.
  destruct (decide (CampaignRepository.status campaign = CREATED)) as [Hc|Hc].
  - unfold CampaignRepository.update_status, CampaignRepository.get_or_raise.
    rewrite Hatt, Hc. simpl.
    eexists _, _. split; [reflexivity|].
    split; [by rewrite lookup_insert_eq|]. split; [|by split].
    intros other Hne. by rewrite lookup_insert_ne.
  - exists campaign, (Iterations.campaigns db). by repeat split.
Qed.

(** X12.  Iteration indices count up from 0 without gaps.  If the indices
    stored for a campaign are 0, ..., n-1, each once, then
    [start_iteration] on a ledger attached to that campaign returns a new
    iteration of index n, appends it and nothing else, so that the indices
    become 0, ..., n; the iterations of other campaigns are not touched. *)
Theorem start_iteration_next_index (db : Iterations.Session) (c : UUID)
    (campaign : CampaignRepository.Campaign) (dh : option string)
    (md : option (gmap string Value)) (uuid : UUID) (now : datetime)
    (n : nat) :
  Iterations.attached db c campaign ->
  Iterations.indices db c ≡ₚ seqZ 0 (Z.of_nat n) ->
  exists row campaign' db',
    Iterations.start_iteration db c campaign dh md uuid now
      = (Ok row, campaign', db') /\
    Iterations.iteration row = Ledger.Build_Iteration uuid c (Z.of_nat n) /\
    Iterations.iterations db' = Iterations.iterations db ++ [row] /\
    Iterations.indices db' c ≡ₚ seqZ 0 (Z.of_nat (S n)) /\
    Iterations.get_current_iteration db' c = Some row /\
    forall other, other <> c ->
      Iterations.indices db' other = Iterations.indices db other.
Proof.
  intros Hatt Hperm.
  destruct (start_iteration_attached db c campaign dh md uuid now Hatt)
    as (campaign' & campaigns' & Hs & _).
  simpl in Hs. rewrite (next_index_contiguous db c n Hperm) in Hs.
  eexists _, _, _. split; [exact Hs|].
  split; [done|]. split; [done|].
  assert (Hidx : Iterations.indices
            (Iterations.Build_Session campaigns'
               (Iterations.iterations db ++
                  [Iterations.Build_IterationRow
                     (Ledger.Build_Iteration uuid c (Z.of_nat n)) dh
                     (default ∅ md)])) c
          ≡ₚ seqZ 0 (Z.of_nat (S n))).
  { rewrite indices_snoc. rewrite decide_True by done.
    rewrite Hperm.
    replace (Z.of_nat (S n)) with (Z.of_nat n + 1) by lia.
    rewrite seqZ_app by lia.
    assert (seqZ (0 + Z.of_nat n) 1 = [Z.of_nat n]) as ->
      by (unfold seqZ; simpl; f_equal; lia).
    reflexivity. }
  split; [exact Hidx|]. split.
  - unfold Iterations.get_current_iteration, Iterations.get_latest. simpl.
    rewrite filter_app, filter_cons, filter_nil.
    rewrite decide_True by done.
    apply latest_snoc. intros r' Hr'.
    assert (Hi : Iterations.index_of r' ∈ Iterations.indices db c)
      by (unfold Iterations.indices; by apply list_elem_of_fmap_2).
    rewrite Hperm in Hi. apply elem_of_seqZ in Hi.
    unfold Iterations.index_of at 2. simpl. lia.
  - intros other Hne. rewrite indices_snoc.
    rewrite decide_False; [by rewrite app_nil_r|].
    unfold Iterations.of_campaign. simpl. congruence.
Qed.

Lemma start_iteration_next_index_witness :
  exists row campaign' db',
    Iterations.start_iteration
      (Iterations.Build_Session {[ 1%positive := demo_campaign ]} [])
      1%positive demo_campaign None None 31%positive 5
      = (Ok row, campaign', db') /\
    Iterations.iteration row
      = Ledger.Build_Iteration 31%positive 1%positive (Z.of_nat 0) /\
    Iterations.iterations db' = [] ++ [row] /\
    Iterations.indices db' 1%positive ≡ₚ seqZ 0 (Z.of_nat 1) /\
    Iterations.get_current_iteration db' 1%positive = Some row /\
    forall other, other <> 1%positive ->
      Iterations.indices db' other
      = Iterations.indices
          (Iterations.Build_Session {[ 1%positive := demo_campaign ]} []) other.
Proof.
  apply (start_iteration_next_index
           (Iterations.Build_Session {[ 1%positive := demo_campaign ]} [])
           1%positive demo_campaign None None 31%positive 5 0).
  - reflexivity.
  - reflexivity.
Defined.

(** X13.  [start_iteration] does not look at the state of the campaign
    beyond promoting a new one.  On a ledger attached to its campaign it
    succeeds whatever the status is, also on a paused, completed or
    archived campaign; a campaign in state CREATED becomes ACTIVE, and in
    every other state the campaigns table is left exactly as it was. *)
Theorem start_iteration_any_status (db : Iterations.Session) (c : UUID)
    (campaign : CampaignRepository.Campaign) (dh : option string)
    (md : option (gmap string Value)) (uuid : UUID) (now : datetime) :
  Iterations.attached db c campaign ->
  exists row campaign' db',
    Iterations.start_iteration db c campaign dh md uuid now
      = (Ok row, campaign', db') /\
    Iterations.attached db' c campaign' /\
    CampaignRepository.status campaign'
      = (if decide (CampaignRepository.status campaign = CREATED)
         then ACTIVE else CampaignRepository.status campaign) /\
    (CampaignRepository.status campaign <> CREATED ->
       campaign' = campaign /\
       Iterations.campaigns db' = Iterations.campaigns db) /\
    forall other, other <> c ->
      Iterations.campaigns db' !! other = Iterations.campaigns db !! other.
Proof.
  intros Hatt.
  destruct (start_iteration_attached db c campaign dh md uuid now Hatt)
    as (campaign' & campaigns' & Hs & Hl & Hother & Hst & Hsame).
  eexists _, campaign', _. split; [exact Hs|].
  split; [exact Hl|]. split; [exact Hst|]. split; [exact Hsame|exact Hother].
Qed.

Lemma start_iteration_any_status_witness :
  let archived :=
    CampaignRepository.Build_Campaign 1%positive "demo" ARCHIVED None in
  let db := Iterations.Build_Session {[ 1%positive := archived ]} [] in
  exists row campaign' db',
    Iterations.start_iteration db 1%positive archived None None 31%positive 5
      = (Ok row, campaign', db') /\
    Iterations.attached db' 1%positive campaign' /\
    CampaignRepository.status campaign'
      = (if decide (CampaignRepository.status archived = CREATED)
         then ACTIVE else CampaignRepository.status archived) /\
    (CampaignRepository.status archived <> CREATED ->
       campaign' = archived /\
       Iterations.campaigns db' = Iterations.campaigns db) /\
    forall other, other <> 1%positive ->
      Iterations.campaigns db' !! other = Iterations.campaigns db !! other.
Proof.
  apply (start_iteration_any_status
           (Iterations.Build_Session
              {[ 1%positive :=
                   CampaignRepository.Build_Campaign 1%positive "demo"
                     ARCHIVED None ]} [])
           1%positive
           (CampaignRepository.Build_Campaign 1%positive "demo" ARCHIVED None)
           None None 31%positive 5).
  reflexivity.
Defined.

Lemma get_iteration_count_indices (db : Iterations.Session) (c : UUID) :
  Iterations.get_iteration_count db c
  = (length (Iterations.indices db c) `min` 100)%nat.
Proof.
  unfold Iterations.get_iteration_count, Iterations.list_, Iterations.indices.
  rewrite length_take, drop_0, length_fmap.
  rewrite (Permutation_length (merge_sort_Permutation _ _)). lia.
Qed.

(** X14.  A run of [start_iteration] calls numbers the iterations in
    order.  On a ledger attached to a campaign whose stored indices are
    0, ..., n-1, a run of k calls all succeed and return iterations of
    indices n, ..., n+k-1; afterwards the stored indices are
    0, ..., n+k-1, the ledger is still attached, and
    [get_iteration_count] answers n+k as long as that is at most 100 and
    100 beyond, since it counts one page of the listing. *)
Theorem start_iterations_number_in_order (calls : list (UUID * datetime))
    (db : Iterations.Session) (c : UUID)
    (campaign : CampaignRepository.Campaign) (n : nat) :
  Iterations.attached db c campaign ->
  Iterations.indices db c ≡ₚ seqZ 0 (Z.of_nat n) ->
  let '(rows, campaign', db') :=
    Iterations.start_iterations db c campaign calls in
  Iterations.index_of <$> rows
    = seqZ (Z.of_nat n) (Z.of_nat (length calls)) /\
  Iterations.indices db' c ≡ₚ seqZ 0 (Z.of_nat (n + length calls)) /\
  Iterations.attached db' c campaign' /\
  Iterations.get_iteration_count db' c = ((n + length calls) `min` 100)%nat.
Proof.
  revert db campaign n.
  induction calls as [|[uuid now] calls IH]; intros db campaign n Hatt Hperm.
  - simpl. rewrite Nat.add_0_r. split; [done|]. split; [done|].
    split; [done|]. rewrite get_iteration_count_indices.
    rewrite (Permutation_length Hperm), length_seqZ. lia.
  - simpl.
    destruct (start_iteration_next_index db c campaign None None uuid now n
                Hatt Hperm)
      as (row & campaign1 & db1 & Hs & Hrow & _ & Hperm1 & _ & _).
    destruct (start_iteration_any_status db c campaign None None uuid now Hatt)
      as (row' & campaign1' & db1' & Hs' & Hatt1 & _).
    rewrite Hs in Hs'. inversion Hs'; subst row' campaign1' db1'. clear Hs'.
    rewrite Hs.
    specialize (IH db1 campaign1 (S n) Hatt1 Hperm1).
    destruct (Iterations.start_iterations db1 c campaign1 calls)
      as [[rows campaign2] db2].
    destruct IH as (Hrows & Hperm2 & Hatt2 & Hcount).
    replace (n + S (length calls))%nat with (S n + length calls)%nat by lia.
    split; [|done].
    rewrite fmap_cons, Hrows. unfold Iterations.index_of at 1. rewrite Hrow.
    simpl Ledger.index.
    replace (Z.of_nat (S (length calls))) with (1 + Z.of_nat (length calls))
      by lia.
    rewrite seqZ_app by lia.
    assert (seqZ (Z.of_nat n) 1 = [Z.of_nat n]) as ->
      by (unfold seqZ; simpl; f_equal; lia).
    simpl. do 2 f_equal. lia.
Qed.

Lemma start_iterations_number_in_order_witness :
  let '(rows, campaign', db') :=
    Iterations.start_iterations
      (Iterations.Build_Session {[ 1%positive := demo_campaign ]} [])
      1%positive demo_campaign [(31%positive, 5); (32%positive, 6)] in
  Iterations.index_of <$> rows = seqZ (Z.of_nat 0) (Z.of_nat 2) /\
  Iterations.indices db' 1%positive ≡ₚ seqZ 0 (Z.of_nat (0 + 2)) /\
  Iterations.attached db' 1%positive campaign' /\
  Iterations.get_iteration_count db' 1%positive = ((0 + 2) `min` 100)%nat.
Proof.
  apply (start_iterations_number_in_order [(31%positive, 5); (32%positive, 6)]
           (Iterations.Build_Session {[ 1%positive := demo_campaign ]} [])
           1%positive demo_campaign 0).
  - reflexivity.
  - reflexivity.
Defined.

(** ** Process versions: creating and looking up *)

Lemma deactivate_name (n : string) (now : datetime)
    (p : ProcessRepository.Process) :
  ProcessRepository.name (ProcessRepository.deactivate n now p)
  = ProcessRepository.name p.
Proof.
  unfold ProcessRepository.deactivate.
  destruct (decide _); [|done]. by destruct (ProcessRepository.is_active p).
Qed.

Lemma deactivate_version (n : string) (now : datetime)
    (p : ProcessRepository.Process) :
  ProcessRepository.version (ProcessRepository.deactivate n now p)
  = ProcessRepository.version p.
Proof.
  unfold ProcessRepository.deactivate.
  destruct (decide _); [|done]. by destruct (ProcessRepository.is_active p).
Qed.

Lemma deactivate_inactive (n : string) (now : datetime)
    (p : ProcessRepository.Process) :
  ProcessRepository.name p = n ->
  ProcessRepository.is_active (ProcessRepository.deactivate n now p) = false.
Proof.
  intros Hn. unfold ProcessRepository.deactivate.
  rewrite decide_True by done.
  by destruct (ProcessRepository.is_active p) eqn:Ha.
Qed.

Lemma deactivate_other (n : string) (now : datetime)
    (p : ProcessRepository.Process) :
  ProcessRepository.name p <> n -> ProcessRepository.deactivate n now p = p.
Proof.
  intros Hn. unfold ProcessRepository.deactivate. by rewrite decide_False.
Qed.

Lemma filter_name_deactivate (n m : string) (now : datetime)
    (db : list ProcessRepository.Process) :
  filter (fun p => ProcessRepository.name p = m)
         (ProcessRepository.deactivate n now <$> db)
  = ProcessRepository.deactivate n now
      <$> filter (fun p => ProcessRepository.name p = m) db.
Proof.
  induction db as [|p db IH]; [done|].
  rewrite fmap_cons, !filter_cons, deactivate_name.
  destruct (decide _); [rewrite fmap_cons|]; by rewrite IH.
Qed.

Lemma max_version_spec (l : list ProcessRepository.Process) :
  l <> [] ->
  exists m, ProcessRepository.max_version l = Ok m /\
    (forall q, q ∈ l -> ProcessRepository.version q <= m) /\
    (exists q, q ∈ l /\ ProcessRepository.version q = m).
Proof.
  destruct l as [|p l]; [done|]. intros _. simpl. eexists. split; [done|].
  revert p. induction l as [|x l IH]; intros p; simpl.
  - split.
    + intros q Hq. apply list_elem_of_singleton in Hq as ->. lia.
    + exists p. split; [apply list_elem_of_here|done].
  - assert (Hstep : forall a (ps : list ProcessRepository.Process),
              a <= foldl (fun m q => Z.max m (ProcessRepository.version q)) a ps).
    { intros a ps. revert a. induction ps as [|y ps IHps]; intros a; simpl;
        [lia|]. specialize (IHps (Z.max a (ProcessRepository.version y))). lia. }
    destruct (Z.max_spec (ProcessRepository.version p)
                (ProcessRepository.version x)) as [[Hlt Hmax]|[Hle Hmax]];
      rewrite Hmax.
    + destruct (IH x) as [Hall Hex]. split.
      * intros q Hq. apply elem_of_cons in Hq as [->|Hq]; [|by apply Hall].
        specialize (Hstep (ProcessRepository.version x) l). lia.
      * destruct Hex as (q & Hq & Hv). exists q.
        split; [by apply list_elem_of_further|done].
    + destruct (IH p) as [Hall Hex]. split.
      * intros q Hq. apply elem_of_cons in Hq as [->|Hq];
          [apply Hall, list_elem_of_here|].
        apply elem_of_cons in Hq as [->|Hq].
        -- specialize (Hstep (ProcessRepository.version p) l). lia.
        -- by apply Hall, list_elem_of_further.
      * destruct Hex as (q & Hq & Hv).
        apply elem_of_cons in Hq as [->|Hq].
        -- exists p. split; [apply list_elem_of_here|done].
        -- exists q. split; [by do 2 apply list_elem_of_further|done].
Qed.

(** X15.  [create_version] needs a stored version to count from.  When no
    row carries the name of the process it is given, the call raises
    [ValueError] out of [max] of an empty sequence, and the table is left
    as it was. *)
Theorem create_version_unknown_name (db : list ProcessRepository.Process)
    (process : ProcessRepository.Process) (now : datetime) :
  (forall q, q ∈ db ->
     ProcessRepository.name q <> ProcessRepository.name process) ->
  ProcessRepository.create_version db process now
  = (Err (ValueError "max() arg is an empty sequence"), db).
Proof.
  intros Hnone. unfold ProcessRepository.create_version.
  assert (Hsame : ProcessRepository.deactivate
                    (ProcessRepository.name process) now <$> db = db).
  { induction db as [|p db IH]; [done|]. rewrite fmap_cons.
    rewrite deactivate_other by (apply Hnone, list_elem_of_here).
    rewrite IH; [done|]. intros q Hq. by apply Hnone, list_elem_of_further. }
  rewrite Hsame. unfold ProcessRepository.list_by_name.
  assert (Hf : filter (fun p => ProcessRepository.name p
                                = ProcessRepository.name process) db = []).
  { clear Hsame. induction db as [|p db IH]; [done|]. rewrite filter_cons.
    rewrite decide_False by (apply Hnone, list_elem_of_here).
    apply IH. intros q Hq. by apply Hnone, list_elem_of_further. }
  by rewrite Hf.
Qed.

Lemma create_version_unknown_name_witness :
  ProcessRepository.create_version [] next_version 0
  = (Err (ValueError "max() arg is an empty sequence"), []).
Proof.
  apply (create_version_unknown_name [] next_version 0).
  intros q Hq. by apply elem_of_nil in Hq.
Defined.

Lemma deactivated_not_selected (n : string) (now : datetime)
    (db : list ProcessRepository.Process) (P : ProcessRepository.Process -> Prop)
    `{!forall p, Decision (P p)} :
  (forall p, P p ->
     ProcessRepository.name p = n /\ ProcessRepository.is_active p = true) ->
  filter P (ProcessRepository.deactivate n now <$> db) = [].
Proof.
  intros HP. induction db as [|p db IH]; [done|].
  rewrite fmap_cons, filter_cons. rewrite decide_False; [done|].
  intros Hp. destruct (HP _ Hp) as [Hn Ha].
  rewrite deactivate_name in Hn.
  rewrite (deactivate_inactive n now p Hn) in Ha. done.
Qed.

(** X16.  [create_version] supersedes the stored versions of a name.  When
    the table holds between one and a hundred rows of the name, the call
    succeeds; the new row has the given id and specification, is active,
    and its version is one more than the greatest stored version of the
    name, so above every one of them; afterwards it is the row
    [get_by_name] returns for the name and the only one [list_versions]
    lists as active.  Rows of other names are not touched. *)
Theorem create_version_supersedes (db : list ProcessRepository.Process)
    (process : ProcessRepository.Process) (now : datetime) :
  let n := ProcessRepository.name process in
  (exists q, q ∈ db /\ ProcessRepository.name q = n) ->
  (length (filter (fun p => ProcessRepository.name p = n) db) <= 100)%nat ->
  exists p db',
    ProcessRepository.create_version db process now = (Ok p, db') /\
    ProcessRepository.id p = ProcessRepository.id process /\
    ProcessRepository.name p = n /\
    ProcessRepository.spec_yaml p = ProcessRepository.spec_yaml process /\
    ProcessRepository.is_active p = true /\
    (forall q, q ∈ db -> ProcessRepository.name q = n ->
       ProcessRepository.version q < ProcessRepository.version p) /\
    (exists q, q ∈ db /\ ProcessRepository.name q = n /\
       ProcessRepository.version p = ProcessRepository.version q + 1) /\
    ProcessVersions.get_by_name db' n None = Some p /\
    ProcessVersions.list_versions db' n true = [p] /\
    (forall q, ProcessRepository.name q <> n -> q ∈ db' <-> q ∈ db).
Proof.
  intros n (q0 & Hq0 & Hn0) Hlen.
  unfold ProcessRepository.create_version, ProcessRepository.list_by_name.
  fold n. rewrite filter_name_deactivate.
  set (F := filter (fun p => ProcessRepository.name p = n) db) in *.
  rewrite take_ge by (rewrite length_reverse, length_fmap; exact Hlen).
  assert (HF : q0 ∈ F) by (by apply list_elem_of_filter).
  destruct (max_version_spec
              (reverse (ProcessRepository.deactivate n now <$> F)))
    as (m & -> & Hall & Hex).
  { intros Hnil. apply (f_equal length) in Hnil.
    rewrite length_reverse, length_fmap in Hnil.
    destruct F; [by apply elem_of_nil in HF|done]. }
  simpl. eexists _, _. split; [reflexivity|]. simpl.
  split; [done|]. split; [done|]. split; [done|]. split; [done|].
  split; [|split; [|split; [|split]]].
  - intros q Hq Hn.
    assert (Hin : ProcessRepository.deactivate n now q
                  ∈ reverse (ProcessRepository.deactivate n now <$> F)).
    { apply elem_of_reverse, list_elem_of_fmap_2.
      by apply list_elem_of_filter. }
    specialize (Hall _ Hin). rewrite deactivate_version in Hall. lia.
  - destruct Hex as (q & Hq & Hv).
    apply elem_of_reverse, list_elem_of_fmap in Hq as (q1 & -> & Hq1).
    apply list_elem_of_filter in Hq1 as [Hn1 Hq1].
    exists q1. rewrite deactivate_version in Hv. by rewrite Hv.
  - unfold ProcessVersions.get_by_name. rewrite filter_app.
    rewrite (deactivated_not_selected n now db) by (by intros p [? ?]).
    rewrite filter_cons, decide_True by done. done.
  - unfold ProcessVersions.list_versions. rewrite filter_app.
    rewrite (deactivated_not_selected n now db)
      by (intros p [? Ha]; split; [done|by apply Ha]).
    rewrite filter_cons, decide_True by done. rewrite filter_nil. simpl.
    apply Permutation_singleton_r. apply merge_sort_Permutation.
  - intros q Hq. rewrite elem_of_app, list_elem_of_singleton. split.
    + intros [Hin| ->]; [|done].
      apply list_elem_of_fmap in Hin as (q1 & -> & Hq1).
      rewrite deactivate_name in Hq. by rewrite deactivate_other.
    + intros Hin. left. apply list_elem_of_fmap. exists q.
      split; [by rewrite deactivate_other|done].
Qed.

Lemma create_version_supersedes_witness :
  exists p db',
    ProcessRepository.create_version two_processes next_version 0 = (Ok p, db') /\
    ProcessRepository.id p = ProcessRepository.id next_version /\
    ProcessRepository.name p = ProcessRepository.name next_version /\
    ProcessRepository.spec_yaml p = ProcessRepository.spec_yaml next_version /\
    ProcessRepository.is_active p = true /\
    (forall q, q ∈ two_processes ->
       ProcessRepository.name q = ProcessRepository.name next_version ->
       ProcessRepository.version q < ProcessRepository.version p) /\
    (exists q, q ∈ two_processes /\
       ProcessRepository.name q = ProcessRepository.name next_version /\
       ProcessRepository.version p = ProcessRepository.version q + 1) /\
    ProcessVersions.get_by_name db' (ProcessRepository.name next_version) None
      = Some p /\
    ProcessVersions.list_versions db' (ProcessRepository.name next_version) true
      = [p] /\
    (forall q, ProcessRepository.name q <> ProcessRepository.name next_version ->
       q ∈ db' <-> q ∈ two_processes).
Proof.
  apply (create_version_supersedes two_processes next_version 0).
  - eexists. split; [apply list_elem_of_here|reflexivity].
  - vm_compute. lia.
Defined.

(** ** The encoded space *)

Lemma np_clip_unit (x : np_float) : unit_cell (np_clip x 0 1).
Proof.
  destruct x as [| |q|]; [by left| | |]; right.
  - exists 0%Qc. by repeat split.
  - unfold np_clip. eexists. split; [reflexivity|].
    destruct (decide (q < 0)%Qc) as [H0|H0].
    + rewrite decide_False by done. by split.
    + apply Qcnot_lt_le in H0. destruct (decide (1 < q)%Qc) as [H1|H1].
      * by split.
      * apply Qcnot_lt_le in H1. by split.
  - exists 1%Qc. by repeat split.
Qed.

Lemma unit_cell_of_bool (b : bool) : unit_cell (of_bool b).
Proof. right. destruct b; eexists; by repeat split. Qed.

Lemma unit_cell_within (x : np_float) :
  unit_cell x ->
  isnan x = true \/ (fle (Fin 0%Qc) x = true /\ fle x (Fin 1%Qc) = true).
Proof.
  intros [->|(q & -> & H0 & H1)]; [by left|right].
  unfold fle. by rewrite !bool_decide_eq_true_2.
Qed.

Lemma setitem_unit (a a' : list np_float) (i : nat) (x : np_float) :
  setitem a i x = Ok a' -> unit_cell x -> Forall unit_cell a ->
  length a' = length a /\ Forall unit_cell a'.
Proof.
  unfold setitem. destruct (decide _); [|done]. intros [= <-] Hx Ha.
  split; [by rewrite length_insert|]. by apply Forall_insert.
Qed.

Section EncodeRange.

Variable py_float : string -> result np_float.

Lemma encode_categories_unit (df : pydict) (name : string) (is_active : bool)
    (categories : list string) :
  forall encoded col_idx encoded' col_idx',
    encode_categories df name is_active categories encoded col_idx
      = Ok (encoded', col_idx') ->
    Forall unit_cell encoded ->
    length encoded' = length encoded /\ Forall unit_cell encoded'.
Proof.
  induction categories as [|cat cats IH]; intros encoded col_idx encoded' col_idx';
    simpl.
  - by intros [= <- <-].
  - destruct (df_col df name) as [v|e]; [|done]. simpl.
    destruct (setitem encoded col_idx _) as [enc1|e] eqn:Hset; [|done]. simpl.
    intros Hrec Hunit.
    apply setitem_unit in Hset as [Hl1 Hu1]; [|
      destruct is_active;
        [apply unit_cell_of_bool|apply (unit_cell_of_bool false)] | done].
    destruct (IH _ _ _ _ Hrec Hu1) as [Hl2 Hu2]. split; [congruence|done].
Qed.

Lemma encode_info_unit (df : pydict) (info : Info) (encoded : list np_float)
    (col_idx : nat) (encoded' : list np_float) (col_idx' : nat) :
  encode_info py_float df info encoded col_idx = Ok (encoded', col_idx') ->
  Forall unit_cell encoded ->
  length encoded' = length encoded /\ Forall unit_cell encoded'.
Proof.
  unfold encode_info. intros Henc Hunit.
  destruct (match info_active_if info with
            | Some active_if => _check_activity df active_if
            | None => Ok true
            end) as [is_active|e]; [|done]. simpl in Henc.
  assert (Hstep : forall p,
    match info_type info with
    | ContinuousInfo (lo, hi) | DiscreteInfo _ (lo, hi) =>
        v ← df_col df (info_name info);
        values ← astype_float py_float v;
        let normalized := normalize values lo hi in
        let normalized := if is_active then normalized else Fin (Q2Qc (1 # 2)) in
        encoded ← setitem encoded col_idx normalized;
        Ok (encoded, S col_idx)
    | CategoricalInfo categories =>
        encode_categories df (info_name info) is_active categories encoded col_idx
    end = Ok p ->
    length p.1 = length encoded /\ Forall unit_cell p.1).
  { intros [e1 c1]. simpl.
    assert (Hnum : forall lo hi,
      (v ← df_col df (info_name info);
       values ← astype_float py_float v;
       let normalized := normalize values lo hi in
       let normalized := if is_active then normalized else Fin (Q2Qc (1 # 2)) in
       encoded ← setitem encoded col_idx normalized;
       Ok (encoded, S col_idx)) = Ok (e1, c1) ->
      length e1 = length encoded /\ Forall unit_cell e1).
    { intros lo hi. destruct (df_col df (info_name info)) as [v|e]; [|done].
      simpl. destruct (astype_float py_float v) as [values|e]; [|done]. simpl.
      destruct (setitem encoded col_idx _) as [enc1|e] eqn:Hset; [|done]. simpl.
      intros [= <- <-]. apply setitem_unit in Hset; [done| |done].
      destruct is_active; [apply np_clip_unit|].
      right. eexists. split; [reflexivity|]. by split. }
    destruct (info_type info) as [[lo hi]|grid [lo hi]|cats].
    - apply Hnum.
    - apply Hnum.
    - intros Hc. by apply encode_categories_unit in Hc. }
  destruct (match info_type info with
            | ContinuousInfo _ | DiscreteInfo _ _ | CategoricalInfo _ => _
            end) as [[e1 c1]|e] eqn:Hbody; [|done].
  destruct (Hstep _ eq_refl) as [Hl1 Hu1]. simpl in Hl1, Hu1, Henc.
  destruct (is_conditional info).
  - destruct (setitem e1 c1 (of_bool is_active)) as [e2|e] eqn:Hset; [|done].
    simpl in Henc. inversion Henc; subst.
    apply setitem_unit in Hset as [Hl2 Hu2];
      [|apply unit_cell_of_bool|done].
    split; [congruence|done].
  - inversion Henc; subst. done.
Qed.

Lemma encode_loop_unit (df : pydict) (infos : list Info) :
  forall encoded col_idx encoded' col_idx',
    encode_loop py_float df infos encoded col_idx = Ok (encoded', col_idx') ->
    Forall unit_cell encoded ->
    length encoded' = length encoded /\ Forall unit_cell encoded'.
Proof.
  induction infos as [|info infos IH]; intros encoded col_idx encoded' col_idx';
    simpl.
  - by intros [= <- <-].
  - destruct (encode_info py_float df info encoded col_idx) as [[e1 c1]|e]
      eqn:Hinfo; [|done]. simpl. intros Hrec Hunit.
    destruct (encode_info_unit _ _ _ _ _ _ Hinfo Hunit) as [Hl1 Hu1].
    destruct (IH _ _ _ _ Hrec Hu1) as [Hl2 Hu2]. split; [congruence|done].
Qed.

(** X17.  Whatever [encode_single] returns lies in the box [get_bounds]
    describes.  For every encoder and every map on which the call
    succeeds, the row has [n_encoded] cells and each cell is between the
    lower bound 0 and the upper bound 1 of its column, or is NaN; an
    infinite or out-of-range number never comes out. *)
Theorem encode_single_within_bounds (enc : MixedSpaceEncoder)
    (x : gmap string Value) (row : list np_float) :
  encode_single py_float enc x = Ok row ->
  length row = n_encoded enc /\ within_bounds (get_bounds enc) row.
Proof.
  unfold encode_single, encode. intros Henc.
  destruct (encode_loop py_float x (input_info enc)
              (replicate (n_encoded enc) (Fin 0%Qc)) O) as [[e c]|err] eqn:Hloop;
    [|done].
  simpl in Henc. inversion Henc as [Hrow]. rewrite app_nil_r.
  apply encode_loop_unit in Hloop as [Hlen Hunit].
  2:{ apply Forall_replicate. right. exists 0%Qc. by repeat split. }
  rewrite length_replicate in Hlen.
  split; [done|]. unfold within_bounds, get_bounds. simpl.
  rewrite length_replicate. split; [done|].
  intros i lo hi cell Hlo Hhi Hcell.
  apply lookup_replicate in Hlo as [-> _].
  apply lookup_replicate in Hhi as [-> _].
  apply unit_cell_within.
  by apply (Forall_lookup_1 _ _ _ _ Hunit Hcell).
Qed.

End EncodeRange.

Lemma encode_single_within_bounds_witness :
  exists row,
    length row = n_encoded hill_encoder
    /\ within_bounds (get_bounds hill_encoder) row.
Proof.
  eexists.
  eapply (encode_single_within_bounds py_float_refuse hill_encoder
            {[ "x" := VNum (Fin (Q2Qc 25)) ]}).
  vm_compute. reflexivity.
Defined.

(** ** Decoding any array *)

Lemma decode_info_rows (d : nat) (rows : list (list np_float)) (info : Info)
    (decoded : list (gmap string Value)) (col_idx : nat) :
  info_wf info ->
  (col_idx + info_width info <= d)%nat ->
  decode_info d rows info decoded col_idx
  = Ok (zip_with (fun row (dct : gmap string Value) =>
                    <[info_name info := decode_value info (drop col_idx row)]> dct)
                 rows decoded,
        (col_idx + info_width info)%nat).
Proof.
  intros Hwf Hd. pose proof (content_width_pos info Hwf) as Hpos.
  unfold decode_info, decode_value, info_width, content_width, info_wf in *.
  destruct (info_type info) as [[lo hi]|grid [lo hi]|cats].
  - rewrite decide_True by lia. simpl.
    assert (Hz : forall (row : list np_float) (dct : gmap string Value),
              <[info_name info := VNum (denormalize (row !!! col_idx) lo hi)]> dct
              = <[info_name info :=
                    VNum (denormalize (drop col_idx row !!! O) lo hi)]> dct).
    { intros row dct. by rewrite lookup_total_drop, Nat.add_0_r. }
    rewrite (zip_with_ext _ _ rows rows decoded decoded Hz eq_refl eq_refl).
    destruct (is_conditional info); simpl; do 2 f_equal; lia.
  - rewrite decide_True by lia. simpl.
    assert (Hz : forall (row : list np_float) (dct : gmap string Value),
              <[info_name info :=
                  VNum (snap_value grid (denormalize (row !!! col_idx) lo hi))]> dct
              = <[info_name info :=
                    VNum (snap_value grid
                            (denormalize (drop col_idx row !!! O) lo hi))]> dct).
    { intros row dct. by rewrite lookup_total_drop, Nat.add_0_r. }
    rewrite (zip_with_ext _ _ rows rows decoded decoded Hz eq_refl eq_refl).
    destruct (is_conditional info); simpl; do 2 f_equal; lia.
  - assert (Hw : slice_width d col_idx (length cats) = length cats).
    { unfold slice_width. lia. }
    rewrite Hw. rewrite decide_False by lia. simpl. unfold one_hot_slice.
    destruct (is_conditional info); simpl; do 2 f_equal; lia.
Qed.

Lemma zip_with_decode_step (infos : list Info) (info : Info) (col_idx : nat)
    (rows : list (list np_float)) :
  forall decoded : list (gmap string Value),
    zip_with (decode_row infos (col_idx + info_width info)) rows
      (zip_with (fun row (dct : gmap string Value) =>
                   <[info_name info := decode_value info (drop col_idx row)]> dct)
                rows decoded)
    = zip_with (decode_row (info :: infos) col_idx) rows decoded.
Proof.
  induction rows as [|row rows IH]; intros [|dct decoded]; simpl; try done.
  by rewrite IH.
Qed.

Lemma zip_with_decode_nil (col_idx : nat) (rows : list (list np_float)) :
  forall decoded : list (gmap string Value),
    length decoded = length rows ->
    zip_with (decode_row [] col_idx) rows decoded = decoded.
Proof.
  induction rows as [|row rows IH]; intros [|dct decoded] Hlen; simpl in *;
    try done.
  rewrite IH; [done|lia].
Qed.

Lemma decode_loop_rows (d : nat) (rows : list (list np_float))
    (infos : list Info) :
  Forall info_wf infos ->
  forall (decoded : list (gmap string Value)) (col_idx : nat),
    length decoded = length rows ->
    (col_idx + widths infos <= d)%nat ->
    decode_loop d rows infos decoded col_idx
    = Ok (zip_with (decode_row infos col_idx) rows decoded,
          (col_idx + widths infos)%nat).
Proof.
  induction infos as [|info infos IH]; intros Hwf decoded col_idx Hlen Hd.
  - rewrite zip_with_decode_nil by done. simpl. do 2 f_equal. lia.
  - apply Forall_cons in Hwf as [Hwf Hwfs]. simpl in Hd. cbn [decode_loop].
    rewrite decode_info_rows by (done || lia). simpl.
    rewrite IH; [|done| |lia].
    + rewrite zip_with_decode_step. do 2 f_equal. lia.
    + rewrite length_zip_with. lia.
Qed.

Lemma decode_matrix (spec : ProcessSpec) (enc : MixedSpaceEncoder)
    (rows : list (list np_float)) :
  pydantic_valid spec = true ->
  _build_encoding_info spec = Ok enc ->
  decode enc (Arr2 (n_encoded enc) rows)
  = Ok ((fun row => decode_row (input_info enc) O row ∅) <$> rows).
Proof.
  intros Hvalid Henc.
  destruct (encoder_wf spec enc Hvalid Henc) as (Hwf & Hn & _).
  unfold decode. rewrite (decode_loop_rows _ _ _ Hwf);
    [|by rewrite length_replicate|lia].
  simpl. by rewrite zip_with_replicate_r_eq.
Qed.

Lemma decode_value_in_domain (inp : InputSpec) (info : Info)
    (cols : list np_float) :
  build_info inp = Ok info -> info_wf info ->
  in_domain inp (decode_value info cols).
Proof.
  intros Hb Hwf. unfold info_wf, decode_value in *.
  destruct inp as [name bounds act|name values act|name cats act]; simpl in Hb.
  - inversion Hb; subst; simpl in *. destruct bounds. by eexists.
  - destruct (discrete_bounds values) as [[lo hi]|e] eqn:Hdb; [|done].
    inversion Hb; subst; simpl in *.
    destruct (discrete_bounds_spec _ _ _ Hdb) as [Hne _].
    destruct (snap_value_grid values (denormalize (cols !!! O) lo hi) Hne)
      as (g & Hg & Hin).
    exists g. by rewrite Hg.
  - inversion Hb; subst; simpl in *. eexists. split; [reflexivity|].
    apply list_elem_of_lookup_total_2.
    destruct (take (length cats) cols) as [|c l] eqn:Ht.
    + unfold argmax_row. simpl. destruct cats; [done|simpl; lia].
    + pose proof (argmax_row_lt (c :: l) ltac:(done)) as Hlt.
      rewrite <- Ht in Hlt at 2. rewrite length_take in Hlt. lia.
Qed.

(** X18.  [decode] accepts every array of the encoder's width and only
    returns declared values.  For an encoder built from a specification
    that passes the model validators and any 2-d array with [n_encoded]
    columns, whatever its cells hold, NaN and infinities included,
    [decode] returns one dict per row; each dict has exactly the declared
    input names as keys, a grid value under every discrete input and a
    declared level under every categorical input. *)
Theorem decode_total_in_domain (spec : ProcessSpec) (enc : MixedSpaceEncoder)
    (rows : list (list np_float)) :
  pydantic_valid spec = true ->
  _build_encoding_info spec = Ok enc ->
  wf_ndarray (Arr2 (n_encoded enc) rows) ->
  exists decoded,
    decode enc (Arr2 (n_encoded enc) rows) = Ok decoded /\
    length decoded = length rows /\
    forall dct, dct ∈ decoded ->
      (forall inp, inp ∈ inputs spec ->
         exists v, dct !! input_name inp = Some v /\ in_domain inp v) /\
      (forall key, is_Some (dct !! key) -> key ∈ input_names spec).
Proof.
  intros Hvalid Henc _.
  destruct (encoder_wf spec enc Hvalid Henc) as (Hwf & Hn & Hnodup).
  pose proof (encoder_input_info spec enc Henc) as Hinfos.
  eexists. split; [by apply (decode_matrix spec)|].
  split; [by rewrite length_fmap|].
  intros dct Hdct. apply list_elem_of_fmap in Hdct as (row & -> & _).
  assert (Hnames : info_name <$> input_info enc = input_names spec).
  { unfold input_names. clear -Hinfos.
    induction Hinfos as [|inp info inps infos Hb _ IH]; [done|].
    rewrite !fmap_cons, IH. f_equal. by apply build_info_name in Hb as [-> _]. }
  split.
  - intros inp Hinp.
    apply list_elem_of_lookup in Hinp as [k Hk].
    destruct (Forall2_lookup_l _ _ _ _ _ Hinfos Hk) as (info & Hik & Hb).
    exists (decode_value info
              (drop (O + widths (take k (input_info enc))) row)).
    split.
    + destruct (build_info_name _ _ Hb) as [<- _].
      by apply decode_row_lookup.
    + apply decode_value_in_domain; [done|].
      rewrite Forall_forall in Hwf. apply Hwf.
      by apply list_elem_of_lookup_2 in Hik.
  - intros key Hsome. rewrite <- Hnames.
    destruct (decide (key ∈ info_name <$> input_info enc)) as [|Hnot]; [done|].
    rewrite (decode_row_other _ _ Hnot) in Hsome.
    rewrite lookup_empty in Hsome. by destruct Hsome.
Qed.

Lemma decode_total_in_domain_witness :
  exists decoded,
    decode hill_encoder (Arr2 (n_encoded hill_encoder) [[NaN]; [PInf]])
      = Ok decoded /\
    length decoded = length [[NaN]; [PInf]] /\
    forall dct, dct ∈ decoded ->
      (forall inp, inp ∈ inputs hill_spec ->
         exists v, dct !! input_name inp = Some v /\ in_domain inp v) /\
      (forall key, is_Some (dct !! key) -> key ∈ input_names hill_spec).
Proof.
  apply (decode_total_in_domain hill_spec hill_encoder [[NaN]; [PInf]]).
  - reflexivity.
  - reflexivity.
  - repeat constructor.
Defined.

(** ** Round trip of a valid map, whatever the rounding *)



(** ** Decoding after snapping *)







(** ** Campaign engine: status changes *)

(** X20.  What the engine's status methods require.  For an engine whose
    campaign object is the stored row: [pause] and [complete] succeed
    exactly when the campaign is active, [resume] exactly when it is
    paused; a refused [pause] or [complete] leaves the table as it was, and
    [resume] on a campaign that is not paused raises [ValueError] before
    touching the table. *)
Theorem engine_status_guards (db : gmap positive CampaignRepository.Campaign)
    (campaign_id : UUID) (campaign : CampaignRepository.Campaign)
    (now : datetime) :
  db !! campaign_id = Some campaign ->
  (is_Ok (CampaignEngine.pause db campaign_id now).1 = true
     <-> CampaignRepository.status campaign = ACTIVE) /\
  (is_Ok (CampaignEngine.complete db campaign_id now).1 = true
     <-> CampaignRepository.status campaign = ACTIVE) /\
  (is_Ok (CampaignEngine.resume db campaign_id campaign now).1 = true
     <-> CampaignRepository.status campaign = PAUSED) /\
  (CampaignRepository.status campaign <> ACTIVE ->
     (CampaignEngine.pause db campaign_id now).2 = db /\
     (CampaignEngine.complete db campaign_id now).2 = db) /\
  (CampaignRepository.status campaign <> PAUSED ->
     CampaignEngine.resume db campaign_id campaign now
     = (Err (ValueError "Campaign is not paused"), db)).
Proof.
  intros Hdb.
  unfold CampaignEngine.pause, CampaignEngine.complete, CampaignEngine.resume,
    CampaignRepository.update_status, CampaignRepository.get_or_raise.
  rewrite Hdb.
  destruct (CampaignRepository.status campaign) eqn:Hs; simpl;
    repeat split; try done; try (by intros [? ?]); try (intros H; by destruct H).
Qed.

Lemma engine_status_guards_witness :
  let db : gmap positive CampaignRepository.Campaign :=
    {[ 1%positive := demo_campaign ]} in
  (is_Ok (CampaignEngine.pause db 1%positive 5).1 = true
     <-> CampaignRepository.status demo_campaign = ACTIVE) /\
  (is_Ok (CampaignEngine.complete db 1%positive 5).1 = true
     <-> CampaignRepository.status demo_campaign = ACTIVE) /\
  (is_Ok (CampaignEngine.resume db 1%positive demo_campaign 5).1 = true
     <-> CampaignRepository.status demo_campaign = PAUSED) /\
  (CampaignRepository.status demo_campaign <> ACTIVE ->
     (CampaignEngine.pause db 1%positive 5).2 = db /\
     (CampaignEngine.complete db 1%positive 5).2 = db) /\
  (CampaignRepository.status demo_campaign <> PAUSED ->
     CampaignEngine.resume db 1%positive demo_campaign 5
     = (Err (ValueError "Campaign is not paused"), db)).
Proof.
  apply (engine_status_guards {[ 1%positive := demo_campaign ]} 1%positive
           demo_campaign 5).
  reflexivity.
Defined.

(** X21.  Pausing and resuming.  An active campaign can be paused and then
    resumed, which brings it back to active with its name and process
    unchanged; while it is paused, [complete] is refused with
    [InvalidStateTransitionError] and changes nothing, so a paused
    campaign has to be resumed before it can be completed. *)
Theorem pause_resume_round_trip
    (db : gmap positive CampaignRepository.Campaign) (campaign_id : UUID)
    (campaign : CampaignRepository.Campaign) (t1 t2 t3 : datetime) :
  db !! campaign_id = Some campaign ->
  CampaignRepository.status campaign = ACTIVE ->
  exists paused db1 resumed,
    CampaignEngine.pause db campaign_id t1 = (Ok paused, db1) /\
    db1 !! campaign_id = Some paused /\
    CampaignRepository.status paused = PAUSED /\
    CampaignEngine.complete db1 campaign_id t2
      = (Err (InvalidStateTransitionError PAUSED COMPLETED), db1) /\
    CampaignEngine.resume db1 campaign_id paused t3
      = (Ok resumed, <[campaign_id := resumed]> db) /\
    CampaignRepository.status resumed = ACTIVE /\
    CampaignRepository.name resumed = CampaignRepository.name campaign /\
    CampaignRepository.process_id resumed
      = CampaignRepository.process_id campaign.
Proof.
  intros Hdb Hs.
  unfold CampaignEngine.pause, CampaignEngine.complete, CampaignEngine.resume,
    CampaignRepository.update_status, CampaignRepository.get_or_raise.
  rewrite Hdb, Hs. simpl.
  eexists _, _, _. split; [reflexivity|].
  rewrite lookup_insert_eq. split; [reflexivity|]. simpl.
  split; [done|]. split; [done|].
  rewrite insert_insert_eq. by repeat split.
Qed.

Lemma pause_resume_round_trip_witness :
  let active := CampaignRepository.Build_Campaign 1%positive "demo" ACTIVE None in
  let db : gmap positive CampaignRepository.Campaign := {[ 1%positive := active ]} in
  exists paused db1 resumed,
    CampaignEngine.pause db 1%positive 5 = (Ok paused, db1) /\
    db1 !! 1%positive = Some paused /\
    CampaignRepository.status paused = PAUSED /\
    CampaignEngine.complete db1 1%positive 6
      = (Err (InvalidStateTransitionError PAUSED COMPLETED), db1) /\
    CampaignEngine.resume db1 1%positive paused 7
      = (Ok resumed, <[1%positive := resumed]> db) /\
    CampaignRepository.status resumed = ACTIVE /\
    CampaignRepository.name resumed = CampaignRepository.name active /\
    CampaignRepository.process_id resumed
      = CampaignRepository.process_id active.
Proof.
  apply (pause_resume_round_trip
           {[ 1%positive :=
                CampaignRepository.Build_Campaign 1%positive "demo" ACTIVE None ]}
           1%positive
           (CampaignRepository.Build_Campaign 1%positive "demo" ACTIVE None)
           5 6 7).
  - reflexivity.
  - reflexivity.
Defined.

(** ** Campaign engine: batches of observations *)

Section Batches.

Variable py_float : string -> result np_float.

Lemma add_observations_batch_cons (enc : MixedSpaceEncoder)
    (db : Ledger.Session) (c : UUID) (obs : gmap string pydict) (uuid : UUID)
    (now : datetime)
    (rest : list (gmap string pydict * UUID * datetime)) (source : string) :
  CampaignEngine.add_observations_batch py_float enc db c
    ((obs, uuid, now) :: rest) source
  = match CampaignEngine.prepare py_float enc obs with
    | Err e => (Err e, db)
    | Ok (x_raw, y, x_encoded) =>
        CampaignEngine.add_observations_batch py_float enc
          (Ledger.add_observation db c x_raw y (Some x_encoded) source
             None None uuid now).2
          c rest source
    end.
Proof.
  cbn [CampaignEngine.add_observations_batch].
  unfold CampaignEngine.prepare, Engine.add_observation.
  destruct (CampaignEngine.getitem obs "x_raw") as [x|e]; [|done]. simpl.
  destruct (CampaignEngine.getitem obs "y") as [y|e]; [|done]. simpl.
  destruct (encode_single py_float enc x) as [row|e]; [|done]. done.
Qed.

(** X22.  A batch of observations is not all-or-nothing.  If the elements
    before some element of the batch all have an [x_raw] and a [y] and can
    be encoded, and that element cannot (a missing key or an input the
    encoder refuses), then [add_observations_batch] raises the error of
    that element after having stored one observation for each element
    before it, encoded and in order; the elements after it are not looked
    at, and proposals and decisions are not touched. *)
Theorem add_observations_batch_keeps_prefix (enc : MixedSpaceEncoder)
    (db : Ledger.Session) (c : UUID)
    (pre : list (gmap string pydict * UUID * datetime))
    (bad : gmap string pydict * UUID * datetime)
    (post : list (gmap string pydict * UUID * datetime))
    (source : string) (e : exn) :
  Forall (fun item => is_Ok (CampaignEngine.prepare py_float enc item.1.1) = true)
         pre ->
  CampaignEngine.prepare py_float enc bad.1.1 = Err e ->
  exists db1 rows,
    CampaignEngine.add_observations_batch py_float enc db c
      (pre ++ bad :: post) source = (Err e, db1) /\
    CampaignEngine.add_observations_batch py_float enc db c pre source
      = (Ok tt, db1) /\
    Ledger.observations db1 = Ledger.observations db ++ rows /\
    Ledger.proposals db1 = Ledger.proposals db /\
    Ledger.decisions db1 = Ledger.decisions db /\
    Forall2 (fun item o =>
               CampaignEngine.prepare py_float enc item.1.1
                 = Ok (Ledger.x_raw o, Ledger.y o,
                       default [] (Ledger.x_encoded o))
               /\ is_Some (Ledger.x_encoded o)
               /\ Ledger.observation_id o = item.1.2
               /\ Ledger.observation_campaign o = c
               /\ Ledger.source o = source)
            pre rows.
Proof.
  intros Hpre Hbad. revert db.
  induction Hpre as [|[[obs uuid] now] pre Hok Hpre IH]; intros db.
  - destruct bad as [[obs uuid] now]. simpl in Hbad.
    exists db, []. rewrite app_nil_l, add_observations_batch_cons, Hbad.
    rewrite app_nil_r. by repeat split.
  - simpl in Hok. rewrite <- app_comm_cons, !add_observations_batch_cons.
    destruct (CampaignEngine.prepare py_float enc obs) as [[[x y] row]|e0]
      eqn:Hprep; [|done].
    destruct (IH (Ledger.add_observation db c x y (Some row) source
                    None None uuid now).2)
      as (db1 & rows & Hfail & Hokb & Hobs & Hprop & Hdec & Hrows).
    exists db1. eexists (_ :: rows).
    split; [exact Hfail|]. split; [exact Hokb|].
    split; [rewrite Hobs; simpl; by rewrite <- app_assoc|].
    split; [by rewrite Hprop|]. split; [by rewrite Hdec|].
    constructor; [|exact Hrows]. simpl. by repeat split.
Qed.

End Batches.

Lemma add_observations_batch_keeps_prefix_witness :
  exists db1 rows,
    CampaignEngine.add_observations_batch py_float_refuse hill_encoder
      empty_ledger 7%positive
      ([({[ "x_raw" := {[ "x" := VNum (Fin 1%Qc) ]}; "y" := ∅ ]},
         41%positive, 5)]
       ++ ({[ "x_raw" := ∅; "y" := ∅ ]}, 42%positive, 6) :: [])
      "user"
      = (Err (KeyError "x"), db1) /\
    CampaignEngine.add_observations_batch py_float_refuse hill_encoder
      empty_ledger 7%positive
      [({[ "x_raw" := {[ "x" := VNum (Fin 1%Qc) ]}; "y" := ∅ ]},
        41%positive, 5)]
      "user"
      = (Ok tt, db1) /\
    Ledger.observations db1 = Ledger.observations empty_ledger ++ rows /\
    Ledger.proposals db1 = Ledger.proposals empty_ledger /\
    Ledger.decisions db1 = Ledger.decisions empty_ledger /\
    Forall2 (fun (item : gmap string pydict * UUID * datetime) o =>
               CampaignEngine.prepare py_float_refuse hill_encoder item.1.1
                 = Ok (Ledger.x_raw o, Ledger.y o,
                       default [] (Ledger.x_encoded o))
               /\ is_Some (Ledger.x_encoded o)
               /\ Ledger.observation_id o = item.1.2
               /\ Ledger.observation_campaign o = 7%positive
               /\ Ledger.source o = "user")
            [({[ "x_raw" := {[ "x" := VNum (Fin 1%Qc) ]}; "y" := ∅ ]},
              41%positive, 5)]
            rows.
Proof.
  apply (add_observations_batch_keeps_prefix py_float_refuse hill_encoder
           empty_ledger 7%positive
           [({[ "x_raw" := {[ "x" := VNum (Fin 1%Qc) ]}; "y" := ∅ ]},
             41%positive, 5)]
           ({[ "x_raw" := ∅; "y" := ∅ ]}, 42%positive, 6) [] "user"
           (KeyError "x")).
  - repeat constructor.
  - reflexivity.
Defined.

(** ** Campaign engine: training data *)

Section Training.

Variable py_float : string -> result np_float.

Lemma encode_single_length (enc : MixedSpaceEncoder) (x : gmap string Value)
    (row : list np_float) :
  encode_single py_float enc x = Ok row -> length row = n_encoded enc.
Proof.
  unfold encode_single, encode. intros Henc.
  destruct (encode_loop py_float x (input_info enc)
              (replicate (n_encoded enc) (Fin 0%Qc)) O) as [[e c]|err] eqn:Hloop;
    [|done].
  simpl in Henc. inversion Henc as [Hrow]. rewrite app_nil_r.
  apply encode_loop_unit in Hloop as [Hlen _].
  - by rewrite length_replicate in Hlen.
  - apply Forall_replicate. right. exists 0%Qc. by repeat split.
Qed.

Lemma encode_rows_spec (enc : MixedSpaceEncoder)
    (observations : list Ledger.Observation) :
  match CampaignEngine.encode_rows py_float enc observations with
  | Ok rows =>
      Forall2 (fun o row =>
                 encode_single py_float enc (Ledger.x_raw o) = Ok row)
              observations rows
  | Err e =>
      exists o, o ∈ observations
                /\ encode_single py_float enc (Ledger.x_raw o) = Err e
  end.
Proof.
  induction observations as [|o obs IH]; simpl; [constructor|].
  destruct (encode_single py_float enc (Ledger.x_raw o)) as [row|e] eqn:Ho;
    simpl.
  - destruct (CampaignEngine.encode_rows py_float enc obs) as [rows|e]; simpl.
    + by constructor.
    + destruct IH as (o' & Hin & He). exists o'.
      split; [by apply list_elem_of_further|done].
  - exists o. split; [apply list_elem_of_here|done].
Qed.

Lemma get_observations_length (db : Ledger.Session) (c : UUID) :
  length (CampaignEngine.get_observations db c)
  = (CampaignEngine.count db c `min` 1000)%nat.
Proof.
  unfold CampaignEngine.get_observations, CampaignEngine.list_,
    CampaignEngine.count.
  rewrite length_take, drop_0.
  rewrite (Permutation_length (merge_sort_Permutation _ _)).
  rewrite (list_filter_iff (CampaignEngine.listed c None)
             (fun o => Ledger.observation_campaign o = c)).
  - lia.
  - intros o. unfold CampaignEngine.listed.
    split; [by intros [? _]|by intros ?; split].
Qed.

(** X23.  What [get_training_data] returns.  It reads the campaign's
    observations through one page of the listing, so it has as many rows
    as there are observations up to 1000 and 1000 beyond.  It succeeds
    exactly when every listed observation can be encoded; then [X] has one
    encoded row of width [n_encoded] per observation, in the order of the
    listing, and [Y] one row per observation with one cell per objective,
    NaN where the observation has no value for it.  Otherwise it raises
    the error of an observation that cannot be encoded. *)
Theorem get_training_data_spec (enc : MixedSpaceEncoder) (spec : ProcessSpec)
    (db : Ledger.Session) (c : UUID) :
  let observations := CampaignEngine.get_observations db c in
  length observations = (CampaignEngine.count db c `min` 1000)%nat /\
  match CampaignEngine.get_training_data py_float enc spec db c with
  | Ok (X, (n_obj, Y)) =>
      exists rows,
        X = Arr2 (n_encoded enc) rows /\ wf_ndarray X /\
        Forall2 (fun o row =>
                   encode_single py_float enc (Ledger.x_raw o) = Ok row)
                observations rows /\
        n_obj = length (objectives spec) /\
        Forall2 (fun o (cells : list Value) =>
                   length cells = n_obj /\
                   forall i obj, objectives spec !! i = Some obj ->
                     cells !! i
                     = Some (default (VNum NaN)
                               (Ledger.y o !! objective_name obj)))
                observations Y
  | Err e =>
      exists o, o ∈ observations
                /\ encode_single py_float enc (Ledger.x_raw o) = Err e
  end.
Proof.
  intros observations. split; [apply get_observations_length|].
  unfold CampaignEngine.get_training_data. fold observations.
  assert (HY : Forall2 (fun o (cells : list Value) =>
                 length cells = length (objectives spec) /\
                 forall i obj, objectives spec !! i = Some obj ->
                   cells !! i
                   = Some (default (VNum NaN)
                             (Ledger.y o !! objective_name obj)))
              observations
              (CampaignEngine.objective_row spec <$> observations)).
  { apply Forall2_fmap_r, Forall_Forall2_diag, Forall_forall.
    intros o _. unfold CampaignEngine.objective_row.
    split; [by rewrite length_fmap|].
    intros i obj Hi. by rewrite list_lookup_fmap, Hi. }
  pose proof (encode_rows_spec enc observations) as Hrows.
  destruct observations as [|o obs] eqn:Hobs.
  - exists []. repeat split; try constructor.
  - destruct (CampaignEngine.encode_rows py_float enc (o :: obs)) as [rows|e];
      simpl.
    + exists rows. split; [done|]. split; [|by repeat split].
      simpl. clear -Hrows. induction Hrows as [|? ? ? ? H _ IH]; constructor.
      * by apply encode_single_length in H.
      * exact IH.
    + exact Hrows.
Qed.

End Training.

(** ** Pareto mask *)

Lemma fle_trans (a b c : np_float) :
  fle a b = true -> fle b c = true -> fle a c = true.
Proof.
  destruct a as [| |a|], b as [| |b|], c as [| |c|]; simpl; try done.
  rewrite !bool_decide_eq_true. apply Qcle_trans.
Qed.

Lemma flt_fle (a b : np_float) :
  JobLifecycle.flt a b = true -> fle a b = true.
Proof.
  destruct a as [| |a|], b as [| |b|]; simpl; try done.
  rewrite !bool_decide_eq_true. apply Qclt_le_weak.
Qed.

Lemma flt_fle_trans (a b c : np_float) :
  JobLifecycle.flt a b = true -> fle b c = true -> JobLifecycle.flt a c = true.
Proof.
  destruct a as [| |a|], b as [| |b|], c as [| |c|]; simpl; try done.
  rewrite !bool_decide_eq_true. apply Qclt_le_trans.
Qed.

Lemma fle_flt_trans (a b c : np_float) :
  fle a b = true -> JobLifecycle.flt b c = true -> JobLifecycle.flt a c = true.
Proof.
  destruct a as [| |a|], b as [| |b|], c as [| |c|]; simpl; try done.
  rewrite !bool_decide_eq_true. apply Qcle_lt_trans.
Qed.

Lemma flt_irrefl (a : np_float) : JobLifecycle.flt a a = false.
Proof.
  destruct a as [| |a|]; simpl; try done.
  apply bool_decide_eq_false. intros H. by apply Qclt_not_eq in H.
Qed.

Lemma any_gt_irrefl (a : list np_float) : CampaignAnalyzer.any_gt a a = false.
Proof.
  unfold CampaignAnalyzer.any_gt. induction a as [|x a IH]; [done|].
  simpl. by rewrite flt_irrefl, IH.
Qed.

Lemma dominates_irrefl (a : list np_float) :
  CampaignAnalyzer.dominates a a = false.
Proof.
  unfold CampaignAnalyzer.dominates. by rewrite any_gt_irrefl, andb_false_r.
Qed.

Lemma dominates_trans (a : list np_float) :
  forall b c : list np_float,
    length a = length b -> length b = length c ->
    CampaignAnalyzer.dominates a b = true ->
    CampaignAnalyzer.dominates b c = true ->
    CampaignAnalyzer.dominates a c = true.
Proof.
  unfold CampaignAnalyzer.dominates, CampaignAnalyzer.all_ge,
    CampaignAnalyzer.any_gt.
  induction a as [|x a IH]; intros [|y b] [|z c] Hab Hbc; simpl in *;
    try done; try lia.
  rewrite !andb_true_iff, !orb_true_iff. intros [[Hyx Hge1] Hgt1] [[Hzy Hge2] Hgt2].
  assert (Hzx : fle z x = true) by (by apply (fle_trans z y x)).
  rewrite Hzx. split; [split; [done|]|].
  - specialize (IH b c ltac:(lia) ltac:(lia)).
    destruct (forallb _ (zip a c)) eqn:Hac; [done|].
    (* all_ge is transitive on its own *)
    exfalso. clear -Hge1 Hge2 Hab Hbc Hac.
    revert b c Hab Hbc Hge1 Hge2 Hac.
    induction a as [|x a IHa]; intros [|y b] [|z c] Hab Hbc; simpl in *;
      try done; try lia.
    rewrite !andb_true_iff, andb_false_iff. intros [H1 H2] [H3 H4] [H5|H5].
    + by rewrite (fle_trans z y x) in H5.
    + apply (IHa b c); (done || lia).
  - destruct Hgt1 as [Hgt1|Hgt1].
    + left. by apply (fle_flt_trans z y x).
    + destruct Hgt2 as [Hgt2|Hgt2].
      * left. by apply (flt_fle_trans z y x).
      * assert (Hrec : forallb (fun ab : np_float * np_float => fle ab.2 ab.1)
                         (zip a c)
                       && existsb (fun ab : np_float * np_float =>
                                     JobLifecycle.flt ab.2 ab.1) (zip a c)
                       = true).
        { apply (IH b c); [lia|lia| |]; by rewrite andb_true_iff. }
        apply andb_true_iff in Hrec as [_ Hrec]. by right.
Qed.

Lemma pareto_cover (m : nat) (L : list (list np_float)) :
  Forall (fun r => length r = m) L ->
  forall x, length x = m ->
    (exists r, r ∈ L /\ CampaignAnalyzer.dominates r x = true) ->
    exists r', r' ∈ L
      /\ (forall r, r ∈ L -> CampaignAnalyzer.dominates r r' = false)
      /\ CampaignAnalyzer.dominates r' x = true.
Proof.
  induction L as [|a L IH]; intros HL x Hx (r & Hr & Hdom).
  { by apply elem_of_nil in Hr. }
  apply Forall_cons in HL as [Ha HL]. specialize (IH HL).
  assert (Hlen : forall r, r ∈ L -> length r = m)
    by (by apply Forall_forall).
  (* it is enough to treat a dominating row taken from the tail *)
  assert (Htail : forall r0, r0 ∈ L -> CampaignAnalyzer.dominates r0 x = true ->
            exists r', r' ∈ a :: L
              /\ (forall r, r ∈ a :: L -> CampaignAnalyzer.dominates r r' = false)
              /\ CampaignAnalyzer.dominates r' x = true).
  { intros r0 Hr0 Hd0.
    destruct (IH x Hx (ex_intro _ r0 (conj Hr0 Hd0))) as (r' & Hr' & Hmax & Hd').
    destruct (CampaignAnalyzer.dominates a r') eqn:Har.
    - exists a. split; [apply list_elem_of_here|]. split.
      + intros r1 Hr1. apply elem_of_cons in Hr1 as [->|Hr1];
          [apply dominates_irrefl|].
        destruct (CampaignAnalyzer.dominates r1 a) eqn:Hr1a; [|done].
        rewrite <- (Hmax r1 Hr1). symmetry.
        pose proof (Hlen r1 Hr1). pose proof (Hlen r' Hr').
        apply (dominates_trans r1 a r'); (done || congruence).
      + pose proof (Hlen r' Hr').
        apply (dominates_trans a r' x); (done || congruence).
    - exists r'. split; [by apply list_elem_of_further|]. split; [|done].
      intros r1 Hr1. apply elem_of_cons in Hr1 as [->|Hr1]; [done|].
      by apply Hmax. }
  apply elem_of_cons in Hr as [->|Hr]; [|by apply (Htail r)].
  destruct (existsb (fun r => CampaignAnalyzer.dominates r a) L) eqn:Hex.
  - apply existsb_exists in Hex as (z & Hz & Hza).
    apply list_elem_of_In in Hz.
    apply (Htail z Hz). pose proof (Hlen z Hz).
    apply (dominates_trans z a x); (done || congruence).
  - exists a. split; [apply list_elem_of_here|]. split; [|done].
    intros r1 Hr1. apply elem_of_cons in Hr1 as [->|Hr1];
      [apply dominates_irrefl|].
    destruct (CampaignAnalyzer.dominates r1 a) eqn:Hr1a; [|done].
    rewrite <- Hex. symmetry. apply existsb_exists. exists r1.
    split; [by apply list_elem_of_In|done].
Qed.

Lemma pareto_exists (m : nat) (L : list (list np_float)) :
  Forall (fun r => length r = m) L -> L <> [] ->
  exists r', r' ∈ L
    /\ forall r, r ∈ L -> CampaignAnalyzer.dominates r r' = false.
Proof.
  intros HL Hne. destruct L as [|a L]; [done|].
  destruct (existsb (fun r => CampaignAnalyzer.dominates r a) (a :: L)) eqn:Hex.
  - apply existsb_exists in Hex as (z & Hz & Hza).
    apply list_elem_of_In in Hz.
    destruct (pareto_cover m (a :: L) HL a) as (r' & Hr' & Hmax & _).
    + by apply Forall_cons in HL as [? _].
    + by exists z.
    + by exists r'.
  - exists a. split; [apply list_elem_of_here|].
    intros r Hr. destruct (CampaignAnalyzer.dominates r a) eqn:Hra; [|done].
    rewrite <- Hex. symmetry. apply existsb_exists. exists r.
    split; [by apply list_elem_of_In|done].
Qed.

Lemma is_dominated_spec (Y : list (list np_float)) (i : nat)
    (Yi : list np_float) :
  Y !! i = Some Yi ->
  CampaignAnalyzer.is_dominated Y i Yi = true
  <-> exists r, r ∈ Y /\ CampaignAnalyzer.dominates r Yi = true.
Proof.
  intros Hi. unfold CampaignAnalyzer.is_dominated. split.
  - intros H. apply existsb_exists in H as ([j r] & Hin & Hd).
    apply list_elem_of_In, elem_of_lookup_imap in Hin as (j' & r' & [= -> ->] & Hj).
    apply andb_true_iff in Hd as [_ Hd]. simpl in Hd.
    exists r'. split; [by apply list_elem_of_lookup_2 in Hj|done].
  - intros (r & Hr & Hd). apply list_elem_of_lookup in Hr as [j Hj].
    apply existsb_exists. exists (j, r). split.
    + apply list_elem_of_In, elem_of_lookup_imap. by exists j, r.
    + simpl. rewrite Hd, andb_true_r. apply bool_decide_eq_true.
      intros ->. rewrite Hi in Hj. inversion Hj; subst.
      by rewrite dominates_irrefl in Hd.
Qed.

Lemma flip_signs_Ok (p : nat) (objs : list ObjectiveSpec) :
  forall (i : nat) (Y : list (list np_float)),
    (i + length objs <= p)%nat ->
    Forall (fun r => length r = p) Y ->
    exists Y', Executor.flip_signs p objs i Y = Ok Y'
      /\ length Y' = length Y /\ Forall (fun r => length r = p) Y'.
Proof.
  induction objs as [|obj objs IH]; intros i Y Hi HY; simpl in *.
  - by exists Y.
  - destruct (is_maximization obj); [apply IH; [lia|done]|].
    rewrite decide_True by lia.
    destruct (IH (S i) (Executor.negate_column i Y)) as (Y' & HY' & Hl & Hf).
    + lia.
    + unfold Executor.negate_column. apply Forall_fmap.
      eapply Forall_impl; [exact HY|]. intros r Hr. simpl.
      by rewrite length_insert.
    + exists Y'. split; [done|]. split; [|done].
      rewrite Hl. unfold Executor.negate_column. by rewrite length_fmap.
Qed.

(** The flags of [_get_pareto_mask] in terms of the test of its inner loop. *)
Lemma pareto_mask_dominates (spec : ProcessSpec) (Y : list (list np_float)) :
  let p := length (objectives spec) in
  Y <> [] ->
  Forall (fun row => length row = p) Y ->
  exists Y_max mask,
    CampaignAnalyzer.to_maximization spec p Y = Ok Y_max /\
    CampaignAnalyzer._get_pareto_mask spec p Y = Ok mask /\
    length Y_max = length Y /\ length mask = length Y /\
    (forall i Yi, Y_max !! i = Some Yi ->
       (mask !! i = Some true
          <-> forall Yj, Yj ∈ Y_max -> CampaignAnalyzer.dominates Yj Yi = false)
       /\ (mask !! i = Some false ->
             exists j Yj, mask !! j = Some true /\ Y_max !! j = Some Yj
                          /\ CampaignAnalyzer.dominates Yj Yi = true)) /\
    (exists i, mask !! i = Some true).
Proof.
  intros p Hne HY.
  destruct (flip_signs_Ok p (objectives spec) O Y ltac:(unfold p; lia) HY)
    as (Y1 & Hflip & Hl1 & Hf1).
  set (Y_max := (fun row : list np_float => CampaignAnalyzer.nan_to_num <$> row)
                  <$> Y1).
  assert (Hmax : CampaignAnalyzer.to_maximization spec p Y = Ok Y_max).
  { unfold CampaignAnalyzer.to_maximization. by rewrite Hflip. }
  assert (Hlen : length Y_max = length Y)
    by (unfold Y_max; by rewrite length_fmap).
  assert (Hrows : Forall (fun r => length r = p) Y_max).
  { unfold Y_max. apply Forall_fmap. eapply Forall_impl; [exact Hf1|].
    intros r Hr. simpl. by rewrite length_fmap. }
  assert (Hne' : Y_max <> []).
  { intros Hnil. rewrite Hnil in Hlen. destruct Y; [done|simpl in Hlen; lia]. }
  set (mask := imap (fun i Yi => negb (CampaignAnalyzer.is_dominated Y_max i Yi))
                    Y_max).
  assert (Hmask : forall i Yi, Y_max !! i = Some Yi ->
            mask !! i = Some (negb (CampaignAnalyzer.is_dominated Y_max i Yi))).
  { intros i Yi Hi. unfold mask. by rewrite list_lookup_imap, Hi. }
  assert (Htrue : forall i Yi, Y_max !! i = Some Yi ->
            (mask !! i = Some true
               <-> forall Yj, Yj ∈ Y_max ->
                     CampaignAnalyzer.dominates Yj Yi = false)).
  { intros i Yi Hi. rewrite (Hmask i Yi Hi).
    pose proof (is_dominated_spec Y_max i Yi Hi) as Hspec.
    destruct (CampaignAnalyzer.is_dominated Y_max i Yi); simpl; split.
    - intros [=].
    - intros Hno. destruct (proj1 Hspec eq_refl) as (r & Hr & Hd).
      by rewrite (Hno r Hr) in Hd.
    - intros _ Yj Hj.
      destruct (CampaignAnalyzer.dominates Yj Yi) eqn:Hd; [|done].
      assert (false = true) by (apply Hspec; by exists Yj). done.
    - done. }
  exists Y_max, mask. split; [done|]. split.
  { unfold CampaignAnalyzer._get_pareto_mask.
    rewrite decide_False by (destruct Y; [done|simpl; lia]).
    by rewrite Hmax. }
  split; [done|]. split; [unfold mask; by rewrite length_imap|].
  split.
  - intros i Yi Hi. split; [by apply Htrue|].
    rewrite (Hmask i Yi Hi). intros [= Hdom].
    apply negb_false_iff in Hdom.
    apply (is_dominated_spec Y_max i Yi Hi) in Hdom.
    destruct (pareto_cover p Y_max Hrows Yi) as (r' & Hr' & Hmx & Hd).
    + rewrite Forall_forall in Hrows. apply Hrows.
      by apply list_elem_of_lookup_2 in Hi.
    + done.
    + apply list_elem_of_lookup in Hr' as [j Hj].
      exists j, r'. split; [|by split]. by apply (Htrue j r' Hj).
  - destruct (pareto_exists p Y_max Hrows Hne') as (r' & Hr' & Hmx).
    apply list_elem_of_lookup in Hr' as [j Hj].
    exists j. by apply (Htrue j r' Hj).
Qed.

Lemma all_ge_spec (a : list np_float) :
  forall b : list np_float,
    CampaignAnalyzer.all_ge a b = true
    <-> forall j x y, a !! j = Some x -> b !! j = Some y -> fle y x = true.
Proof.
  unfold CampaignAnalyzer.all_ge.
  induction a as [|x a IH]; intros [|y b]; simpl.
  - split; [by intros _ [|?] ? ? ?|done].
  - split; [by intros _ [|?] ? ? ?|done].
  - split; [by intros _ [|?] ? ? ? ?|done].
  - rewrite andb_true_iff, IH. split.
    + intros [Hxy Hrest] [|j] x' y' Hx Hy; simpl in *.
      * by inversion Hx; inversion Hy; subst.
      * by apply (Hrest j).
    + intros H. split; [by apply (H O)|].
      intros j x' y' Hx Hy. by apply (H (S j)).
Qed.

Lemma any_gt_spec (a : list np_float) :
  forall b : list np_float,
    CampaignAnalyzer.any_gt a b = true
    <-> exists j x y, a !! j = Some x /\ b !! j = Some y
                      /\ JobLifecycle.flt y x = true.
Proof.
  unfold CampaignAnalyzer.any_gt.
  induction a as [|x a IH]; intros [|y b]; simpl.
  - split; [done|by intros ([|?] & ? & ? & ? & _)].
  - split; [done|by intros ([|?] & ? & ? & ? & _)].
  - split; [done|by intros ([|?] & ? & ? & _ & ? & _)].
  - rewrite orb_true_iff, IH. split.
    + intros [Hxy|(j & x' & y' & Hx & Hy & Hlt)].
      * by exists O, x, y.
      * by exists (S j), x', y'.
    + intros ([|j] & x' & y' & Hx & Hy & Hlt); simpl in *.
      * left. by inversion Hx; inversion Hy; subst.
      * right. by exists j, x', y'.
Qed.

Lemma dominates_spec (a b : list np_float) :
  CampaignAnalyzer.dominates a b = true <-> pareto_dominates a b.
Proof.
  unfold CampaignAnalyzer.dominates, pareto_dominates.
  by rewrite andb_true_iff, all_ge_spec, any_gt_spec.
Qed.

Lemma flip_signs_cells (p : nat) (objs : list ObjectiveSpec) :
  forall (i : nat) (Y Y' : list (list np_float)),
    Executor.flip_signs p objs i Y = Ok Y' ->
    forall k row, Y !! k = Some row ->
      exists row', Y' !! k = Some row' /\
        forall j x, row !! j = Some x ->
          row' !! j
          = Some (if decide (i <= j)%nat then
                    match objs !! (j - i)%nat with
                    | Some obj => if is_maximization obj then x else fneg x
                    | None => x
                    end
                  else x).
Proof.
  induction objs as [|obj objs IH]; intros i Y Y' Hflip k row Hrow; simpl in Hflip.
  - inversion Hflip; subst. exists row. split; [done|].
    intros j x Hx. rewrite lookup_nil. by destruct (decide _).
  - destruct (is_maximization obj) eqn:Hmax.
    + destruct (IH (S i) Y Y' Hflip k row Hrow) as (row' & Hrow' & Hcells).
      exists row'. split; [done|]. intros j x Hx. rewrite (Hcells j x Hx).
      destruct (decide (S i <= j)%nat) as [Hle|Hnle].
      * rewrite decide_True by lia.
        replace (j - i)%nat with (S (j - S i)) by lia. done.
      * destruct (decide (i <= j)%nat) as [Hij|]; [|done].
        replace (j - i)%nat with O by lia. simpl. by rewrite Hmax.
    + destruct (decide (i < p)%nat); [|done].
      assert (Hrow1 : Executor.negate_column i Y !! k
                      = Some (<[i := fneg (row !!! i)]> row)).
      { unfold Executor.negate_column. by rewrite list_lookup_fmap, Hrow. }
      destruct (IH (S i) _ Y' Hflip k _ Hrow1) as (row' & Hrow' & Hcells).
      exists row'. split; [done|]. intros j x Hx.
      destruct (decide (j = i)) as [->|Hne].
      * assert (Hx1 : <[i := fneg (row !!! i)]> row !! i = Some (fneg x)).
        { rewrite list_lookup_insert_eq by (by apply lookup_lt_Some in Hx).
          by rewrite (list_lookup_total_correct _ _ _ Hx). }
        rewrite (Hcells i _ Hx1). rewrite decide_False by lia.
        rewrite decide_True by lia. rewrite Nat.sub_diag. simpl.
        by rewrite Hmax.
      * assert (Hx1 : <[i := fneg (row !!! i)]> row !! j = Some x)
          by (by rewrite list_lookup_insert_ne).
        rewrite (Hcells j _ Hx1).
        destruct (decide (S i <= j)%nat) as [Hle|Hnle].
        -- rewrite decide_True by lia.
           replace (j - i)%nat with (S (j - S i)) by lia. done.
        -- rewrite decide_False by lia. done.
Qed.

(** X24.  The Pareto mask marks the undominated observations, and they are
    enough.  For an array [Y] with at least one row and one column per
    objective, the rows are compared on scores: the value itself for a
    maximized objective and its negation for a minimized one, with NaN
    counted as minus infinity and the two infinities as the largest and
    the smallest finite double.  [_get_pareto_mask] returns one flag per
    row; a row is flagged exactly when no row's scores dominate its
    scores; at least one row is flagged; and every row that is not flagged
    is dominated by a flagged row. *)
Theorem pareto_mask_spec (spec : ProcessSpec) (Y : list (list np_float)) :
  let p := length (objectives spec) in
  Y <> [] ->
  Forall (fun row => length row = p) Y ->
  exists scores mask,
    CampaignAnalyzer.to_maximization spec p Y = Ok scores /\
    length scores = length Y /\
    (forall i row, Y !! i = Some row ->
       exists srow, scores !! i = Some srow /\
         forall j obj x,
           objectives spec !! j = Some obj -> row !! j = Some x ->
           srow !! j
           = Some (match (if is_maximization obj then x else fneg x) with
                   | NaN => NInf
                   | PInf => Fin CampaignAnalyzer.float_max
                   | NInf => Fin (- CampaignAnalyzer.float_max)%Qc
                   | Fin q => Fin q
                   end)) /\
    CampaignAnalyzer._get_pareto_mask spec p Y = Ok mask /\
    length mask = length Y /\
    (forall i si, scores !! i = Some si ->
       (mask !! i = Some true
          <-> forall sj, sj ∈ scores -> ~ pareto_dominates sj si)
       /\ (mask !! i = Some false ->
             exists j sj, mask !! j = Some true /\ scores !! j = Some sj
                          /\ pareto_dominates sj si)) /\
    (exists i, mask !! i = Some true).
Proof.
  intros p Hne HY.
  destruct (pareto_mask_dominates spec Y Hne HY)
    as (scores & mask & Hmax & Hmask & Hl1 & Hl2 & Hflags & Hex).
  exists scores, mask. split; [done|]. split; [done|]. split; [|split; [done|]].
  - intros i row Hrow.
    unfold CampaignAnalyzer.to_maximization in Hmax.
    destruct (Executor.flip_signs (length (objectives spec)) (objectives spec)
                O Y) as [Y1|e] eqn:Hflip; [|done].
    inversion Hmax as [Hsc].
    destruct (flip_signs_cells _ _ _ _ _ Hflip i row Hrow)
      as (row1 & Hrow1 & Hcells).
    exists (CampaignAnalyzer.nan_to_num <$> row1).
    split; [by rewrite list_lookup_fmap, Hrow1|].
    intros j obj x Hobj Hx. rewrite list_lookup_fmap, (Hcells j x Hx).
    rewrite decide_True by lia. rewrite Nat.sub_0_r, Hobj. done.
  - split; [done|]. split; [|done].
    intros i si Hi. destruct (Hflags i si Hi) as [Htrue Hfalse]. split.
    + rewrite Htrue. split.
      * intros Hno sj Hsj Hdom. apply dominates_spec in Hdom.
        by rewrite (Hno sj Hsj) in Hdom.
      * intros Hno sj Hsj.
        destruct (CampaignAnalyzer.dominates sj si) eqn:Hd; [|done].
        exfalso. apply (Hno sj Hsj). by apply dominates_spec.
    + intros Hf. destruct (Hfalse Hf) as (j & sj & Hj & Hsj & Hd).
      exists j, sj. split; [done|]. split; [done|]. by apply dominates_spec.
Qed.

Lemma pareto_mask_spec_witness :
  exists scores mask,
    CampaignAnalyzer.to_maximization minimize_spec
      (length (objectives minimize_spec)) [[Fin 1%Qc]; [NaN]; [Fin 0%Qc]]
      = Ok scores /\
    length scores = length [[Fin 1%Qc]; [NaN]; [Fin 0%Qc]] /\
    (forall i row, [[Fin 1%Qc]; [NaN]; [Fin 0%Qc]] !! i = Some row ->
       exists srow, scores !! i = Some srow /\
         forall j obj x,
           objectives minimize_spec !! j = Some obj -> row !! j = Some x ->
           srow !! j
           = Some (match (if is_maximization obj then x else fneg x) with
                   | NaN => NInf
                   | PInf => Fin CampaignAnalyzer.float_max
                   | NInf => Fin (- CampaignAnalyzer.float_max)%Qc
                   | Fin q => Fin q
                   end)) /\
    CampaignAnalyzer._get_pareto_mask minimize_spec
      (length (objectives minimize_spec)) [[Fin 1%Qc]; [NaN]; [Fin 0%Qc]]
      = Ok mask /\
    length mask = length [[Fin 1%Qc]; [NaN]; [Fin 0%Qc]] /\
    (forall i si, scores !! i = Some si ->
       (mask !! i = Some true
          <-> forall sj, sj ∈ scores -> ~ pareto_dominates sj si)
       /\ (mask !! i = Some false ->
             exists j sj, mask !! j = Some true /\ scores !! j = Some sj
                          /\ pareto_dominates sj si)) /\
    (exists i, mask !! i = Some true).
Proof.
  apply (pareto_mask_spec minimize_spec [[Fin 1%Qc]; [NaN]; [Fin 0%Qc]]).
  - discriminate.
  - repeat constructor.
Defined.

(** ** Improvement history *)

Lemma fle_refl (a : np_float) : isnan a = false -> fle a a = true.
Proof.
  destruct a as [| |a|]; simpl; try done. intros _.
  apply bool_decide_eq_true. apply Qcle_refl.
Qed.

Lemma flt_false_fle (a b : np_float) :
  isnan a = false -> isnan b = false ->
  JobLifecycle.flt a b = false -> fle b a = true.
Proof.
  destruct a as [| |a|], b as [| |b|]; simpl; try done. intros _ _.
  rewrite bool_decide_eq_false, bool_decide_eq_true. apply Qcnot_lt_le.
Qed.

Lemma fle_antisym (a b : np_float) :
  fle a b = true -> fle b a = true -> a = b.
Proof.
  destruct a as [| |a|], b as [| |b|]; simpl; try done.
  rewrite !bool_decide_eq_true. intros H1 H2. f_equal. by apply Qcle_antisym.
Qed.

Lemma at_least_as_good_trans (mx : bool) (a b c : np_float) :
  at_least_as_good mx a b -> at_least_as_good mx b c ->
  at_least_as_good mx a c.
Proof.
  unfold at_least_as_good. destruct mx; intros H1 H2.
  - by apply (fle_trans c b a).
  - by apply (fle_trans a b c).
Qed.

Lemma best_step (mx : bool) (best val : np_float) :
  isnan best = false -> isnan val = false ->
  let b := if mx then JobLifecycle.max2 best val
           else JobLifecycle.min2 best val in
  isnan b = false /\ at_least_as_good mx b best /\ at_least_as_good mx b val
  /\ (b = best \/ b = val)
  /\ ((forall w, isnan w = false -> at_least_as_good mx w best) -> b = val).
Proof.
  intros Hb Hv. unfold at_least_as_good, JobLifecycle.max2, JobLifecycle.min2.
  destruct mx.
  - destruct (JobLifecycle.flt best val) eqn:Hlt.
    + repeat split; try done; [by apply flt_fle|by apply fle_refl|by right].
    + repeat split; try done;
        [by apply fle_refl|by apply flt_false_fle|by left|].
      intros Hbot. apply fle_antisym; [by apply Hbot|by apply flt_false_fle].
  - destruct (JobLifecycle.flt val best) eqn:Hlt.
    + repeat split; try done; [by apply flt_fle|by apply fle_refl|by right].
    + repeat split; try done;
        [by apply fle_refl|by apply flt_false_fle|by left|].
      intros Hbot. apply fle_antisym; [by apply flt_false_fle|by apply Hbot].
Qed.

Lemma cumulative_best_spec (mx : bool) (column : list np_float) :
  forall (best : np_float) (seen : list np_float),
    isnan best = false ->
    (forall w, w ∈ seen -> isnan w = false -> at_least_as_good mx best w) ->
    (best ∈ seen \/ forall w, isnan w = false -> at_least_as_good mx w best) ->
    length (CampaignAnalyzer.cumulative_best mx best column) = length column /\
    forall i v, column !! i = Some v ->
      (isnan v = true ->
         CampaignAnalyzer.cumulative_best mx best column !! i = Some NaN) /\
      (isnan v = false ->
         exists b,
           CampaignAnalyzer.cumulative_best mx best column !! i = Some b /\
           isnan b = false /\
           (forall w, w ∈ seen ++ take (S i) column -> isnan w = false ->
              at_least_as_good mx b w) /\
           b ∈ seen ++ take (S i) column).
Proof.
  induction column as [|val column IH]; intros best seen Hb Hseen Hbot;
    [by split|].
  cbn [CampaignAnalyzer.cumulative_best].
  destruct (isnan val) eqn:Hval.
  - destruct (IH best (seen ++ [val])) as [Hlen Hrec]; [done| | |].
    { intros w Hw Hnn. apply elem_of_app in Hw as [Hw|Hw]; [by apply Hseen|].
      apply list_elem_of_singleton in Hw as ->. congruence. }
    { destruct Hbot as [Hin|Hbot]; [left; apply elem_of_app; by left|by right]. }
    split; [simpl; by rewrite Hlen|].
    intros [|i] v Hv; simpl in Hv.
    + inversion Hv; subst v. split; [done|]. intros. congruence.
    + destruct (Hrec i v Hv) as [H1 H2]. split; [done|].
      intros Hnn. destruct (H2 Hnn) as (b & Hb1 & Hb2 & Hb3 & Hb4).
      exists b. rewrite <- app_assoc in Hb3, Hb4. by repeat split.
  - set (b := if mx then JobLifecycle.max2 best val
              else JobLifecycle.min2 best val).
    destruct (best_step mx best val Hb Hval) as (Hnn & Hgb & Hgv & Hor & Hbt).
    fold b in Hnn, Hgb, Hgv, Hor, Hbt.
    assert (Hall : forall w, w ∈ seen ++ [val] -> isnan w = false ->
              at_least_as_good mx b w).
    { intros w Hw Hwn. apply elem_of_app in Hw as [Hw|Hw].
      - apply (at_least_as_good_trans mx b best w); [done|by apply Hseen].
      - by apply list_elem_of_singleton in Hw as ->. }
    assert (Hin : b ∈ seen ++ [val]).
    { apply elem_of_app. destruct Hbot as [Hs|Hbot'].
      - destruct Hor as [->| ->]; [by left|right; apply list_elem_of_here].
      - right. rewrite (Hbt Hbot'). apply list_elem_of_here. }
    destruct (IH b (seen ++ [val])) as [Hlen Hrec]; [done|done|by left|].
    split; [simpl; by rewrite Hlen|].
    intros [|i] v Hv; simpl in Hv.
    + inversion Hv; subst v. split; [intros; congruence|]. intros _.
      exists b. simpl. rewrite take_0. by repeat split.
    + destruct (Hrec i v Hv) as [H1 H2]. split; [done|].
      intros Hvn. destruct (H2 Hvn) as (b' & Hb1 & Hb2 & Hb3 & Hb4).
      exists b'. rewrite <- app_assoc in Hb3, Hb4. by repeat split.
Qed.

Section ImprovementHistory.

Variable _compute_hypervolume : list (list np_float) -> option np_float.

(** X25.  With one objective the improvement history is the running best.
    For a specification with a single objective and an array [Y] with at
    least one row, the history has one entry per observation; the entry of
    an observation whose value is NaN is NaN; every other entry is the best
    value among the observations up to and including that one, NaN values
    left out: it is one of them and at least as good as each of them,
    greatest for a maximized objective and least for a minimized one. *)
Theorem improvement_history_running_best (spec : ProcessSpec)
    (obj : ObjectiveSpec) (Y : list (list np_float)) (has_ref_point : bool) :
  objectives spec = [obj] ->
  Y <> [] ->
  let column := (fun row : list np_float => row !!! O) <$> Y in
  let history :=
    CampaignAnalyzer._compute_improvement_history _compute_hypervolume
      spec Y has_ref_point in
  length history = length Y /\
  forall i v, column !! i = Some v ->
    (isnan v = true -> history !! i = Some NaN) /\
    (isnan v = false ->
       exists b,
         history !! i = Some b /\ isnan b = false /\
         b ∈ take (S i) column /\
         forall w, w ∈ take (S i) column -> isnan w = false ->
           at_least_as_good (is_maximization obj) b w).
Proof.
  intros Hobj Hne column history.
  unfold history, CampaignAnalyzer._compute_improvement_history.
  rewrite decide_False by (destruct Y; [done|simpl; lia]).
  rewrite Hobj. fold column.
  destruct (cumulative_best_spec (is_maximization obj) column
              (if is_maximization obj then NInf else PInf) [])
    as [Hlen Hrec].
  - by destruct (is_maximization obj).
  - intros w Hw. by apply elem_of_nil in Hw.
  - right. intros w Hw. unfold at_least_as_good.
    destruct (is_maximization obj), w; done.
  - split; [rewrite Hlen; unfold column; by rewrite length_fmap|].
    intros i v Hv. destruct (Hrec i v Hv) as [H1 H2]. split; [done|].
    intros Hvn. destruct (H2 Hvn) as (b & Hb1 & Hb2 & Hb3 & Hb4).
    exists b. rewrite app_nil_l in Hb3, Hb4. by repeat split.
Qed.

End ImprovementHistory.

Lemma improvement_history_running_best_witness :
  let column := (fun row : list np_float => row !!! O)
                  <$> [[Fin 1%Qc]; [NaN]; [Fin 0%Qc]] in
  let history :=
    CampaignAnalyzer._compute_improvement_history (fun _ => None)
      hill_spec [[Fin 1%Qc]; [NaN]; [Fin 0%Qc]] false in
  length history = length [[Fin 1%Qc]; [NaN]; [Fin 0%Qc]] /\
  forall i v, column !! i = Some v ->
    (isnan v = true -> history !! i = Some NaN) /\
    (isnan v = false ->
       exists b,
         history !! i = Some b /\ isnan b = false /\
         b ∈ take (S i) column /\
         forall w, w ∈ take (S i) column -> isnan w = false ->
           at_least_as_good
             (is_maximization {| objective_name := "y"; direction := MAXIMIZE |})
             b w).
Proof.
  apply (improvement_history_running_best (fun _ => None) hill_spec
           {| objective_name := "y"; direction := MAXIMIZE |}
           [[Fin 1%Qc]; [NaN]; [Fin 0%Qc]] false).
  - reflexivity.
  - discriminate.
Defined.
